(** * Shallow embedding of the sat-core worker: column statistics engine
    ([src/tasks/bluebase.py]) and the alignment task ([src/tasks/app.py]).

    Modelling conventions.
    - A sequence is a [list ascii]; a FASTA file is the list of its parsed
      records.  Python [str.upper]/[str.lower] act on ASCII letters only.
    - Python exceptions are the constructors of [exn]; fallible code returns
      [result A].
    - Python ints are [nat] (counts) or [Z]; Python floats produced by a
      division are exact rationals [Q] where only comparisons and further
      arithmetic read them.  Where a float is rounded to an int (the column
      percentages), the binary64 arithmetic is written out: [fl64] rounds
      each operation to nearest-even on 53 bits, and [round(x)] is
      [py_round_float] (round half to even on the exact double).
    - Python dicts keyed by identity threshold are [gmap Z nat]
      (the float keys 90.0, ..., 40.0 are the integers 90, ..., 40). *)

From Stdlib Require Import Ascii String List ZArith QArith Qpower Lqa Lia Bool Sorted.
From stdpp Require Import gmap strings.
Import ListNotations.
Open Scope Z_scope.

(* ------------------------------------------------------------------ *)
(** ** Exceptions and the error monad *)

Inductive exn :=
| ValueError
| IndexError
| KeyError
| ZeroDivisionError
| RuntimeError
| OSError
| KeyboardInterrupt.

(** Python's [except Exception] catches everything but [KeyboardInterrupt]. *)
Definition is_Exception (e : exn) : bool :=
  match e with KeyboardInterrupt => false | _ => true end.

Inductive result (A : Type) :=
| Ok (a : A)
| Exc (e : exn).
Arguments Ok {A} a.
Arguments Exc {A} e.

Definition rbind {A B} (r : result A) (k : A -> result B) : result B :=
  match r with Ok a => k a | Exc e => Exc e end.

Notation "'let!' x := r 'in' k" := (rbind r (fun x => k))
  (at level 200, x name, r at level 100, k at level 200).

Fixpoint rmap {A B} (f : A -> result B) (l : list A) : result (list B) :=
  match l with
  | [] => Ok []
  | x :: l' => let! y := f x in let! ys := rmap f l' in Ok (y :: ys)
  end.

(* ------------------------------------------------------------------ *)
(** ** Characters, strings and Python built-ins *)

Definition gap : ascii := "-"%char.

Definition ascii_upper (c : ascii) : ascii :=
  let n := nat_of_ascii c in
  if (97 <=? n)%nat && (n <=? 122)%nat then ascii_of_nat (n - 32) else c.

Definition ascii_lower (c : ascii) : ascii :=
  let n := nat_of_ascii c in
  if (65 <=? n)%nat && (n <=? 90)%nat then ascii_of_nat (n + 32) else c.

Definition str_upper (s : list ascii) : list ascii := map ascii_upper s.

(** [s.replace(a, b)] for single characters. *)
Definition replace_char (a b : ascii) (s : list ascii) : list ascii :=
  map (fun c => if Ascii.eqb c a then b else c) s.

Definition count_char (c : ascii) (s : list ascii) : nat :=
  length (List.filter (Ascii.eqb c) s).

Definition elem_char (c : ascii) (s : list ascii) : bool :=
  existsb (Ascii.eqb c) s.

(** The exact quotient [n / d] ([d > 0]) rounded half to even, as Python's
    [round] rounds a float's exact value. *)
Definition pyround (n d : Z) : Z :=
  let q := n / d in
  let r := n mod d in
  if 2 * r <? d then q
  else if d <? 2 * r then q + 1
  else if Z.even q then q else q + 1.

(** [round(x)] for a Python float [x]: round half to even on its exact value. *)
Definition py_round_float (x : Q) : Z := pyround (Qnum x) (Zpos (Qden x)).

(** The binary exponent [e] of a positive [x] in binary64:
    [2^52 <= x / 2^e < 2^53] (lemma [fl64_exp_spec]). *)
Definition fl64_exp (x : Q) : Z :=
  let k := Z.log2 (Qnum x) - Z.log2 (Zpos (Qden x)) in
  if Qle_bool (2 ^ k) x then k - 52 else k - 53.

(** The IEEE 754 binary64 result of an operation whose exact value is
    [x >= 0], rounded to nearest, ties to even: the 53-bit mantissa is the
    scaled value rounded half to even.  The values rounded here lie between
    [2^-1022] and [2^1024], where no subnormal or infinite result arises. *)
Definition fl64 (x : Q) : Q :=
  if Qle_bool x 0 then 0%Q
  else let e := fl64_exp x in
       (inject_Z (py_round_float (x * 2 ^ (- e))) * 2 ^ e)%Q.

(** [round((float(n) / total) * 100)] (lines 259, 268-271): a division and
    a multiplication in binary64, then [round]; [n] and [total] are counts,
    exact as floats. *)
Definition float_pct (n : nat) (tz : Z) : Z :=
  py_round_float (fl64 (fl64 (inject_Z (Z.of_nat n) / inject_Z tz) * 100)).

(** [str(n)] for a Python int. *)
Fixpoint digits_aux (fuel : nat) (n : Z) (acc : string) : string :=
  match fuel with
  | O => acc
  | S f =>
      let acc' := String (ascii_of_nat (48 + Z.to_nat (n mod 10))) acc in
      if n <? 10 then acc' else digits_aux f (n / 10) acc'
  end.

Definition str_Z (n : Z) : string :=
  if n <? 0 then String "-" (digits_aux 64 (- n) EmptyString)
  else digits_aux 64 n EmptyString.

Definition str_nat (n : nat) : string := str_Z (Z.of_nat n).

Fixpoint join (sep : string) (l : list string) : string :=
  match l with
  | [] => EmptyString
  | [x] => x
  | x :: l' => x ++ sep ++ join sep l'
  end.

Definition tab : string := String (ascii_of_nat 9) EmptyString.

Example pyround_half : pyround 5 2 = 2 /\ pyround 7 2 = 4. Proof. split; reflexivity. Qed.
(** [(float(23) / 40) * 100] is [57.49999999999999] in binary64, so
    [round] gives 57, while [float(1) / 8 * 100] is exactly [12.5]. *)
Example float_pct_ex : float_pct 23 40 = 57 /\ float_pct 3 4 = 75 /\ float_pct 1 8 = 12.
Proof. vm_compute. repeat split; reflexivity. Qed.
Example str_Z_ex : str_Z 1024 = "1024"%string /\ str_Z 0 = "0"%string.
Proof. split; reflexivity. Qed.

(* ------------------------------------------------------------------ *)
(** ** [BlueBase.align_to_statistics], per-record pass (lines 88-165) *)

(** [str(record.seq).replace(".", "-").upper()] *)
Definition prep (r : list ascii) : list ascii :=
  str_upper (replace_char "." gap r).

(** State of the front -> end loop (lines 92-114). *)
Record front_state := {
  fs_miss : nat;            (* miss_front *)
  fs_mask : list ascii;     (* miss_front_seq *)
  fs_cont : bool;           (* miss_continue *)
  fs_base_start : nat       (* base_start *)
}.

Definition front_step (seq : list ascii) (i : nat) (st : front_state) : front_state :=
  let c := nth i seq gap in
  let bs := if negb (Ascii.eqb c gap) && (fs_base_start st =? 0)%nat
            then i else fs_base_start st in
  let '(m, ms, cont) :=
    if fs_cont st then (fs_miss st, fs_mask st ++ ["|"%char], fs_cont st)
    else if (i =? 0)%nat && Ascii.eqb c gap then
      (S (fs_miss st), fs_mask st ++ ["*"%char], fs_cont st)
    else if (i =? 0)%nat && negb (Ascii.eqb c gap) then
      (fs_miss st, fs_mask st ++ ["|"%char], true)
    else if negb (i =? 0)%nat && negb (Ascii.eqb c gap) then
      (fs_miss st, fs_mask st ++ ["|"%char], true)
    else if negb (fs_miss st =? 0)%nat && Ascii.eqb c gap then
      (S (fs_miss st), fs_mask st ++ ["*"%char], fs_cont st)
    else (fs_miss st, fs_mask st, fs_cont st) in
  {| fs_miss := m; fs_mask := ms; fs_cont := cont; fs_base_start := bs |}.

(** [for i in range(k)] *)
Fixpoint front_loop (seq : list ascii) (k : nat) (st : front_state) : front_state :=
  match k with
  | O => st
  | S k' => front_step seq k' (front_loop seq k' st)
  end.

Definition front_init : front_state :=
  {| fs_miss := 0; fs_mask := []; fs_cont := false; fs_base_start := 0 |}.

Definition front_pass (seq : list ascii) : front_state :=
  front_loop seq (length seq) front_init.

(** State of the end -> front loop (lines 118-140). *)
Record end_state := {
  es_miss : nat;            (* miss_end *)
  es_mask : list ascii;     (* miss_end_seq *)
  es_cont : bool;           (* miss_continue *)
  es_base_end : nat         (* base_end *)
}.

Definition end_step (seq : list ascii) (i : nat) (st : end_state) : end_state :=
  let c := nth i seq gap in
  let last := (i =? length seq - 1)%nat in
  let be := if negb (Ascii.eqb c gap) && (es_base_end st =? 0)%nat
            then i else es_base_end st in
  let '(m, ms, cont) :=
    if es_cont st then (es_miss st, "|"%char :: es_mask st, es_cont st)
    else if last && Ascii.eqb c gap then
      (S (es_miss st), "*"%char :: es_mask st, es_cont st)
    else if last && negb (Ascii.eqb c gap) then
      (es_miss st, "|"%char :: es_mask st, true)
    else if negb last && negb (Ascii.eqb c gap) then
      (es_miss st, "|"%char :: es_mask st, true)
    else if negb (es_miss st =? 0)%nat && Ascii.eqb c gap then
      (S (es_miss st), "*"%char :: es_mask st, es_cont st)
    else (es_miss st, es_mask st, es_cont st) in
  {| es_miss := m; es_mask := ms; es_cont := cont; es_base_end := be |}.

(** [for i in reversed(range(k))]: index [k-1] first. *)
Fixpoint end_loop (seq : list ascii) (k : nat) (st : end_state) : end_state :=
  match k with
  | O => st
  | S k' => end_loop seq k' (end_step seq k' st)
  end.

Definition end_init : end_state :=
  {| es_miss := 0; es_mask := []; es_cont := false; es_base_end := 0 |}.

Definition end_pass (seq : list ascii) : end_state :=
  end_loop seq (length seq) end_init.

(** Python slice [s[a:b]] for non-negative [a], [b]. *)
Definition slice (a b : nat) (s : list ascii) : list ascii :=
  firstn (b - a) (skipn a s).

(** Gap-run scan of lines 147-158: [(flag, gap_starts, gap_ends)]. *)
Definition run_step (s : list ascii) (n : nat)
    (st : bool * list nat * list nat) : bool * list nat * list nat :=
  let '(flag, starts, ends) := st in
  if Ascii.eqb (nth n s gap) gap then
    (if flag then st else (true, starts ++ [n], ends))
  else
    (if flag then (false, starts, ends ++ [n]) else st).

Fixpoint run_loop (s : list ascii) (k : nat) (st : bool * list nat * list nat)
    : bool * list nat * list nat :=
  match k with
  | O => st
  | S k' => run_step s k' (run_loop s k' st)
  end.

Definition gap_runs (s : list ascii) : list nat * list nat :=
  let '(_, starts, ends) := run_loop s (length s) (false, [], []) in
  (starts, ends).

(** Lines 161-165: [gap_ends[g]] raises [IndexError] past its end. *)
Fixpoint gap_length_sum (starts ends : list nat) (acc : Z) : result Z :=
  match starts, ends with
  | [], _ => Ok acc
  | s :: starts', e :: ends' =>
      gap_length_sum starts' ends' (acc + (Z.of_nat e - Z.of_nat s))
  | _ :: _, [] => Exc IndexError
  end.

(** What one record contributes. *)
Record record_info := {
  ri_seq : list ascii;       (* appended to fasta_list *)
  ri_front : list ascii;     (* appended to miss_front_list *)
  ri_end : list ascii;       (* appended to miss_end_list *)
  ri_gapped : bool;          (* gap_seq_count += 1 *)
  ri_runs : nat;             (* gap_count += len(gap_starts) *)
  ri_runlen : Z              (* gap_sumlength += ... *)
}.

Definition record_pass (r : list ascii) : result record_info :=
  let seq := prep r in
  let fs := front_pass seq in
  let es := end_pass seq in
  let core := slice (fs_base_start fs) (S (es_base_end es)) seq in
  if elem_char gap core then
    let '(starts, ends) := gap_runs core in
    let! len := gap_length_sum starts ends 0 in
    Ok {| ri_seq := seq; ri_front := fs_mask fs; ri_end := es_mask es;
          ri_gapped := true; ri_runs := length starts; ri_runlen := len |}
  else
    Ok {| ri_seq := seq; ri_front := fs_mask fs; ri_end := es_mask es;
          ri_gapped := false; ri_runs := 0; ri_runlen := 0 |}.

Example record_pass_ex :
  match record_pass (list_ascii_of_string "AA--A--AA") with
  | Ok ri => (ri_gapped ri, ri_runs ri, ri_runlen ri) = (true, 2%nat, 4)
  | Exc _ => False
  end.
Proof. vm_compute. reflexivity. Qed.

(** The record loop of lines 88-165, in file order. *)
Record rec_acc := {
  ra_fasta : list (list ascii);       (* fasta_list *)
  ra_front : list (list ascii);       (* miss_front_list *)
  ra_end : list (list ascii);         (* miss_end_list *)
  ra_gap_seq_count : nat;
  ra_gap_count : nat;
  ra_gap_sumlength : Z
}.

Definition rec_acc_init : rec_acc :=
  {| ra_fasta := []; ra_front := []; ra_end := [];
     ra_gap_seq_count := 0; ra_gap_count := 0; ra_gap_sumlength := 0 |}.

Definition rec_add (acc : rec_acc) (ri : record_info) : rec_acc :=
  {| ra_fasta := ra_fasta acc ++ [ri_seq ri];
     ra_front := ra_front acc ++ [ri_front ri];
     ra_end := ra_end acc ++ [ri_end ri];
     ra_gap_seq_count := ra_gap_seq_count acc + (if ri_gapped ri then 1 else 0);
     ra_gap_count := ra_gap_count acc + ri_runs ri;
     ra_gap_sumlength := ra_gap_sumlength acc + ri_runlen ri |}.

Fixpoint record_loop (recs : list (list ascii)) (acc : rec_acc) : result rec_acc :=
  match recs with
  | [] => Ok acc
  | r :: recs' => let! ri := record_pass r in record_loop recs' (rec_add acc ri)
  end.

(* ------------------------------------------------------------------ *)
(** ** Column majority vote and column profile (lines 196-294) *)

Definition Nucleotide_common : list ascii := ["A"; "T"; "G"; "C"]%char.

Definition DEG_list : list ascii :=
  ["Y"; "R"; "W"; "K"; "S"; "M"; "N"; "D"; "V"; "H"; "B"; "-"; "."]%char.

Definition Nucleotide_IUPAC_code : list (string * string) :=
  [("A", "A"); ("G", "G"); ("C", "C"); ("T", "T");
   ("CT", "Y"); ("AG", "R"); ("AT", "W"); ("GT", "K"); ("CG", "S"); ("AC", "M");
   ("AGT", "D"); ("ACG", "V"); ("ACT", "H"); ("CGT", "B");
   ("", "None"); ("ACGT", "X")]%string.

Definition dict_lookup (k : string) (d : list (string * string)) : result string :=
  match find (fun kv => String.eqb (fst kv) k) d with
  | Some (_, v) => Ok v
  | None => Exc KeyError
  end.

(** Values gathered for column [i] (lines 198-214). *)
Record column_data := {
  cd_data : list ascii;       (* data *)
  cd_mdata : list ascii;      (* mdata *)
  cd_not_gap : list ascii     (* not_gap_data *)
}.

Definition lookup2 (l : list (list ascii)) (j i : nat) : option ascii :=
  match nth_error l j with Some r => nth_error r i | None => None end.

(** One iteration of the inner [for j] loop with its [try]/[except]. *)
Definition gather_step (fl mf me : list (list ascii)) (i j : nat)
    (cd : column_data) : column_data :=
  match lookup2 fl j i with
  | None => {| cd_data := cd_data cd ++ [gap]; cd_mdata := cd_mdata cd;
               cd_not_gap := cd_not_gap cd |}
  | Some c =>
      let ng := if elem_char c Nucleotide_common
                then cd_not_gap cd ++ [c] else cd_not_gap cd in
      match lookup2 mf j i, lookup2 me j i with
      | Some f, Some e =>
          let md :=
            if Ascii.eqb f "*" && Ascii.eqb e "|" then cd_mdata cd ++ ["*"%char]
            else if Ascii.eqb f "|" && Ascii.eqb e "|" then cd_mdata cd ++ ["|"%char]
            else if Ascii.eqb f "|" && Ascii.eqb e "*" then cd_mdata cd ++ ["*"%char]
            else cd_mdata cd in
          {| cd_data := cd_data cd ++ [c]; cd_mdata := md; cd_not_gap := ng |}
      | _, _ => {| cd_data := cd_data cd ++ [gap]; cd_mdata := cd_mdata cd;
                   cd_not_gap := ng |}
      end
  end.

Fixpoint gather_loop (fl mf me : list (list ascii)) (i k : nat) : column_data :=
  match k with
  | O => {| cd_data := []; cd_mdata := []; cd_not_gap := [] |}
  | S k' => gather_step fl mf me i k' (gather_loop fl mf me i k')
  end.

Definition gather (fl mf me : list (list ascii)) (i : nat) : column_data :=
  gather_loop fl mf me i (length fl).

(** [Counter(l)]: counts in first-occurrence order. *)
Fixpoint counter_add (c : ascii) (cnt : list (ascii * nat)) : list (ascii * nat) :=
  match cnt with
  | [] => [(c, 1%nat)]
  | (x, n) :: cnt' =>
      if Ascii.eqb x c then (x, S n) :: cnt' else (x, n) :: counter_add c cnt'
  end.

Definition Counter (l : list ascii) : list (ascii * nat) :=
  fold_left (fun cnt c => counter_add c cnt) l [].

(** [most_common(1)[0]]: Python's [max] keeps the first maximal item. *)
Definition most_common1 (cnt : list (ascii * nat)) : option (ascii * nat) :=
  match cnt with
  | [] => None
  | x :: cnt' =>
      Some (fold_left (fun best y => if (snd best <? snd y)%nat then y else best)
                      cnt' x)
  end.

(** [list(set(data))] sorted, as a string (lines 261-263). *)
Fixpoint insert_sorted (c : ascii) (l : list ascii) : list ascii :=
  match l with
  | [] => [c]
  | x :: l' =>
      if Ascii.eqb x c then l
      else if (nat_of_ascii c <? nat_of_ascii x)%nat then c :: l
      else x :: insert_sorted c l'
  end.

Definition sorted_set (l : list ascii) : list ascii :=
  fold_left (fun acc c => insert_sorted c acc) l [].

Record profile := {
  p_a : nat; p_t : nat; p_g : nat; p_c : nat;
  p_etc : nat;               (* etc_count *)
  p_miss : nat;              (* miss_count *)
  p_real_gap : Z;            (* real_gap_count *)
  p_miss_gap : nat;          (* miss_gap_count *)
  p_total : nat;             (* total_count *)
  p_apcr : Z;                (* round(apcr_count) *)
  p_a_freq : Z; p_t_freq : Z; p_g_freq : Z; p_c_freq : Z;
  p_iupac : string;          (* iupac_bases *)
  p_major : ascii;           (* max_nucleotide *)
  p_major_count : nat;       (* num_max_nucleotide *)
  p_freq_max : Z             (* freq_max = bp_color[cnt][1] *)
}.

Definition ambiguity_letters : list ascii :=
  ["Y"; "R"; "W"; "S"; "K"; "M"; "D"; "V"; "H"; "B"; "N"]%char.

Definition column_profile (cd : column_data) : result profile :=
  let data := cd_data cd in
  let a := count_char "A" data in
  let t := count_char "T" data in
  let g := count_char "G" data in
  let c := count_char "C" data in
  let miss := count_char "*" (cd_mdata cd) in
  let '(mx, nmx) :=
    match most_common1 (Counter (cd_not_gap cd)) with
    | Some p => p
    | None => (gap, 0%nat)
    end in
  let etc := fold_right (fun x acc => count_char x data + acc)%nat 0%nat
                        ambiguity_letters in
  let miss_gap := (count_char gap data + count_char "." data)%nat in
  let real_gap := Z.of_nat miss_gap - Z.of_nat miss in
  let sequence_count := (a + t + g + c)%nat in
  let total := (a + t + g + c + etc + miss_gap)%nat in
  if (total =? 0)%nat then Exc ZeroDivisionError else
  let tz := Z.of_nat total in
  let temp := List.filter (fun x => negb (elem_char x DEG_list)) (sorted_set data) in
  let freq n := float_pct n tz in
  let! iupac := dict_lookup (string_of_list_ascii temp) Nucleotide_IUPAC_code in
  Ok {| p_a := a; p_t := t; p_g := g; p_c := c; p_etc := etc; p_miss := miss;
        p_real_gap := real_gap; p_miss_gap := miss_gap; p_total := total;
        p_apcr := float_pct sequence_count tz;
        p_a_freq := freq a; p_t_freq := freq t; p_g_freq := freq g; p_c_freq := freq c;
        p_iupac := iupac; p_major := mx; p_major_count := nmx;
        p_freq_max := Z.max (Z.max (Z.max (freq a) (freq t)) (freq g)) (freq c) |}.

Definition column_loop (fl mf me : list (list ascii)) (L : nat) : result (list profile) :=
  rmap (fun i => column_profile (gather fl mf me i)) (seq 0 L).

Example column_AAAT :
  match column_profile {| cd_data := ["A"; "A"; "A"; "T"]%char; cd_mdata := [];
                          cd_not_gap := ["A"; "A"; "A"; "T"]%char |} with
  | Ok p => (p_major p, p_major_count p, p_freq_max p, p_iupac p)
            = ("A"%char, 3%nat, 75, "W"%string)
  | Exc _ => False
  end.
Proof. vm_compute. reflexivity. Qed.

(* ------------------------------------------------------------------ *)
(** ** Blue-base classification (lines 296-327) *)

Definition pctid_cutoff : list Z := [90; 80; 70; 60; 50; 40].

(** [if pctid not in blue_base_count: ... = 0; blue_base_count[pctid] += 1] *)
Definition incr (k : Z) (d : gmap Z nat) : gmap Z nat :=
  <[k := S (default 0%nat (d !! k))]> d.

(** [for c in range(len(pctid_cutoff))] for a cell matching its column's
    majority with majority frequency [f] (lines 306-317). *)
Fixpoint cutoff_loop (cs : list Z) (c : nat) (f : Z) (d : gmap Z nat) : gmap Z nat :=
  match cs with
  | [] => d
  | pctid :: cs' =>
      let d' :=
        if (c =? 0)%nat then
          (if (f <=? pctid + 10) && (pctid <=? f) then incr pctid d else d)
        else
          (if (f <? pctid + 10) && (pctid <=? f) then incr pctid d else d) in
      cutoff_loop cs' (S c) f d'
  end.

(** Lines 306-322. *)
Definition bump (f : Z) (d : gmap Z nat) : gmap Z nat :=
  let d' := cutoff_loop pctid_cutoff 0 f d in
  if f <? 40 then incr 40 d' else d'.

Record blue_state := {
  bs_count : gmap Z nat;    (* blue_base_count *)
  bs_nomiss : nat;          (* nomiss_base_count *)
  bs_noblue : nat           (* noblue_base_count *)
}.

(** Body of [for j in range(len(seq))]; [bp] lists [bp_color[1..L]]. *)
Definition blue_cell (bp : list (ascii * Z)) (seq : list ascii) (j : nat)
    (st : blue_state) : result blue_state :=
  let c := nth j seq gap in
  let nm := if negb (Ascii.eqb c gap) then S (bs_nomiss st) else bs_nomiss st in
  match nth_error bp j with
  | None => Exc KeyError
  | Some (mx, f) =>
      if Ascii.eqb c mx then
        Ok {| bs_count := bump f (bs_count st); bs_nomiss := nm;
              bs_noblue := bs_noblue st |}
      else if negb (Ascii.eqb c gap) then
        Ok {| bs_count := bs_count st; bs_nomiss := nm;
              bs_noblue := S (bs_noblue st) |}
      else
        Ok {| bs_count := bs_count st; bs_nomiss := nm;
              bs_noblue := bs_noblue st |}
  end.

Fixpoint blue_row (bp : list (ascii * Z)) (seq : list ascii) (k : nat)
    (st : blue_state) : result blue_state :=
  match k with
  | O => Ok st
  | S k' => let! st' := blue_row bp seq k' st in blue_cell bp seq k' st'
  end.

Fixpoint blue_loop (bp : list (ascii * Z)) (fl : list (list ascii))
    (st : blue_state) : result blue_state :=
  match fl with
  | [] => Ok st
  | seq :: fl' =>
      let! st' := blue_row bp seq (length seq) st in blue_loop bp fl' st'
  end.

Definition blue_init : blue_state :=
  {| bs_count := ∅; bs_nomiss := 0; bs_noblue := 0 |}.

Definition sum_values (d : gmap Z nat) : nat :=
  map_fold (fun _ v acc => v + acc)%nat 0%nat d.

(* ------------------------------------------------------------------ *)
(** ** The report and the whole of [align_to_statistics] *)

Record gap_stat_result := {
  total_seq : nat;
  gap_seq_count : nat;
  gap_count : nat;
  gap_frequency : Q;
  gap_sum_length : Z;
  gap_length : Q;
  sum_of_blue_bases : nat;
  no_blue_bases : nat;
  no_miss_bases : nat;
  blue_base_ratio : Q
}.

Record stats_output := {
  values : list string;
  gap_stat_header : list string;
  gap_stats : gap_stat_result;
  pct_id_cutoff : list Z;
  blue_base_count : gmap Z nat
}.

Definition gap_stat_header_names : list string :=
  ["Total seqs"; "Gap seq. count"; "Gap count"; "Gap frequency";
   "Sum of gap length"; "Gap length"; "Sum of blue bases"; "No blue bases";
   "No miss bases"; "Blue base ratio"]%string.

Definition value_names : list string :=
  map (fun x => x ++ " count")%string ["A"; "T"; "G"; "C"; "Miss"; "Gap"; "etc"; "MissGap"]%string
  ++ map (fun x => x ++ " freq")%string ["A"; "T"; "G"; "C"]%string
  ++ ["Total count"; "Coverage"; "IUPAC"; "Major base"; "Major base count"]%string.

Definition value_data_list (ps : list profile) : list (list string) :=
  [map (fun p => str_nat (p_a p)) ps;
   map (fun p => str_nat (p_t p)) ps;
   map (fun p => str_nat (p_g p)) ps;
   map (fun p => str_nat (p_c p)) ps;
   map (fun p => str_nat (p_miss p)) ps;
   map (fun p => str_Z (p_real_gap p)) ps;
   map (fun p => str_nat (p_etc p)) ps;
   map (fun p => str_nat (p_miss_gap p)) ps;
   map (fun p => str_Z (p_a_freq p)) ps;
   map (fun p => str_Z (p_t_freq p)) ps;
   map (fun p => str_Z (p_g_freq p)) ps;
   map (fun p => str_Z (p_c_freq p)) ps;
   map (fun p => str_nat (p_total p)) ps;
   map (fun p => str_Z (p_apcr p)) ps;
   map p_iupac ps;
   map (fun p => String (p_major p) EmptyString) ps;
   map (fun p => str_nat (p_major_count p)) ps].

Definition header_line (L : nat) : string :=
  join tab ("Position"%string :: map str_nat (seq 1 L)).

(** [values = [header]] followed by one line per metric (lines 387-390). *)
Definition report (L : nat) (ps : list profile) : list string :=
  header_line L ::
  map (fun nd => fst nd ++ tab ++ join tab (snd nd))%string
      (combine value_names (value_data_list ps)).

Definition qdiv (n d : Z) : Q := inject_Z n / inject_Z d.

(** [BlueBase.align_to_statistics] on the records of the input file. *)
Definition align_to_statistics (recs : list (list ascii)) : result stats_output :=
  let! ra := record_loop recs rec_acc_init in
  let fl := ra_fasta ra in
  let gsc := ra_gap_seq_count ra in
  let '(gap_freq, gap_avg_length) :=
    if (gsc =? 0)%nat then (0%Q, 0%Q)
    else (qdiv (Z.of_nat (ra_gap_count ra)) (Z.of_nat gsc),
          qdiv (ra_gap_sumlength ra) (Z.of_nat gsc)) in
  let list_length := length fl in
  let! first := match fl with [] => Exc IndexError | s :: _ => Ok s end in
  let sequence_length := length first in
  let! ps := column_loop fl (ra_front ra) (ra_end ra) sequence_length in
  let bp := map (fun p => (p_major p, p_freq_max p)) ps in
  let! bs := blue_loop bp fl blue_init in
  if (bs_nomiss bs =? 0)%nat then Exc ZeroDivisionError else
  let sblue := sum_values (bs_count bs) in
  Ok {| values := report sequence_length ps;
        gap_stat_header := gap_stat_header_names;
        gap_stats := {| total_seq := length fl;
                        gap_seq_count := gsc;
                        gap_count := ra_gap_count ra;
                        gap_frequency := gap_freq;
                        gap_sum_length := ra_gap_sumlength ra;
                        gap_length := gap_avg_length;
                        sum_of_blue_bases := sblue;
                        no_blue_bases := bs_noblue bs;
                        no_miss_bases := bs_nomiss bs;
                        blue_base_ratio := qdiv (Z.of_nat sblue) (Z.of_nat (bs_nomiss bs)) |};
        pct_id_cutoff := pctid_cutoff;
        blue_base_count := bs_count bs |}.

Definition fasta (l : list string) : list (list ascii) := map list_ascii_of_string l.

(* ================================================================== *)
(** * Lemmas about the engine *)

Lemma rbind_Ok {A B} (r : result A) (k : A -> result B) (b : B) :
  rbind r k = Ok b -> exists a, r = Ok a /\ k a = Ok b.
Proof. destruct r as [a|e]; simpl; [eauto | discriminate]. Qed.

Ltac inv_bind H :=
  let a := fresh "a" in let Ha := fresh "Hr" in
  apply rbind_Ok in H; destruct H as [a [Ha H]].

(** ** The record loop keeps the prepared sequences and their masks. *)

Lemma record_pass_fields r ri :
  record_pass r = Ok ri ->
  ri_seq ri = prep r /\ ri_front ri = fs_mask (front_pass (prep r)) /\
  ri_end ri = es_mask (end_pass (prep r)).
Proof.
  unfold record_pass.
  destruct (elem_char gap _).
  - destruct (gap_runs _) as [starts ends].
    intro H; inv_bind H. inversion H; subst; simpl; auto.
  - intro H; inversion H; subst; simpl; auto.
Qed.

Lemma record_loop_fields recs acc ra :
  record_loop recs acc = Ok ra ->
  ra_fasta ra = ra_fasta acc ++ map prep recs /\
  ra_front ra = ra_front acc ++ map (fun r => fs_mask (front_pass (prep r))) recs /\
  ra_end ra = ra_end acc ++ map (fun r => es_mask (end_pass (prep r))) recs.
Proof.
  revert acc; induction recs as [|r recs IH]; intros acc H; simpl in H.
  - inversion H; subst. rewrite !app_nil_r. auto.
  - inv_bind H. apply record_pass_fields in Hr as (E1 & E2 & E3).
    apply IH in H as (F1 & F2 & F3). simpl in F1, F2, F3.
    rewrite F1, F2, F3, E1, E2, E3, <- !app_assoc. auto.
Qed.

Lemma record_pass_error r e : record_pass r = Exc e -> e = IndexError.
Proof.
  unfold record_pass. destruct (elem_char gap _); [|discriminate].
  destruct (gap_runs _) as [starts ends].
  assert (G : forall s en acc e', gap_length_sum s en acc = Exc e' -> e' = IndexError).
  { induction s as [|x s IH]; intros [|y en] acc e' H; simpl in H;
      try discriminate; [congruence | eauto]. }
  destruct (gap_length_sum starts ends 0) eqn:E; simpl; [discriminate|].
  intro H; inversion H; subst. eauto.
Qed.

(** ** Lengths of the two missing-data masks *)

Lemma front_loop_mask_length seq k :
  length (fs_mask (front_loop seq k front_init)) = k /\
  (k = 0%nat \/ fs_cont (front_loop seq k front_init) = true \/
   (0 < fs_miss (front_loop seq k front_init))%nat).
Proof.
  induction k as [|k [L I]]; [simpl; auto|].
  simpl. set (st := front_loop seq k front_init) in *.
  unfold front_step.
  destruct (fs_cont st) eqn:Ec; simpl;
    [rewrite length_app; simpl; split; [lia | auto]|].
  destruct (k =? 0)%nat eqn:Ek; destruct (Ascii.eqb (nth k seq gap) gap) eqn:Eg;
    simpl; try (rewrite length_app; simpl; split; [lia | right; (left; reflexivity) || (right; lia)]).
  apply Nat.eqb_neq in Ek.
  destruct (fs_miss st =? 0)%nat eqn:Em; simpl.
  - apply Nat.eqb_eq in Em. exfalso. destruct I as [I|[I|I]]; [lia|congruence|lia].
  - apply Nat.eqb_neq in Em. rewrite length_app; simpl. split; [lia | right; right; lia].
Qed.

Lemma front_mask_length seq : length (fs_mask (front_pass seq)) = length seq.
Proof. apply front_loop_mask_length. Qed.

Lemma end_loop_mask_length seq k st :
  (k <= length seq)%nat ->
  (k = length seq \/ es_cont st = true \/ (0 < es_miss st)%nat) ->
  length (es_mask (end_loop seq k st)) = (length (es_mask st) + k)%nat.
Proof.
  revert st; induction k as [|k IH]; intros st Hk I; simpl; [lia|].
  rewrite IH; [| lia |].
  - unfold end_step.
    destruct (es_cont st) eqn:Ec; simpl; [lia|].
    destruct (k =? length seq - 1)%nat eqn:El;
      destruct (Ascii.eqb (nth k seq gap) gap); simpl; try lia.
    apply Nat.eqb_neq in El.
    destruct (es_miss st =? 0)%nat eqn:Em; simpl; [|lia].
    apply Nat.eqb_eq in Em. exfalso. destruct I as [I|[I|I]]; [lia|congruence|lia].
  - right. unfold end_step.
    destruct (es_cont st) eqn:Ec; simpl; [auto|].
    destruct (k =? length seq - 1)%nat eqn:El;
      destruct (Ascii.eqb (nth k seq gap) gap); simpl; try (right; lia); try auto.
    apply Nat.eqb_neq in El.
    destruct (es_miss st =? 0)%nat eqn:Em; simpl; [|right; lia].
    apply Nat.eqb_eq in Em. exfalso. destruct I as [I|[I|I]]; [lia|congruence|lia].
Qed.

Lemma end_mask_length seq : length (es_mask (end_pass seq)) = length seq.
Proof. unfold end_pass. rewrite end_loop_mask_length; simpl; auto. Qed.

(** ** Gathering a column *)

Lemma firstn_snoc {A} (l : list A) k x :
  nth_error l k = Some x -> firstn (S k) l = firstn k l ++ [x].
Proof.
  revert k; induction l as [|y l IH]; intros [|k] H; simpl in *; try discriminate.
  - inversion H; reflexivity.
  - f_equal. apply IH in H. simpl in H. exact H.
Qed.

Definition canonical (c : ascii) : bool := elem_char c Nucleotide_common.

(** The cells of column [i]: a row shorter than [i] contributes ["-"]. *)
Definition column (fl : list (list ascii)) (i : nat) : list ascii :=
  map (fun s => nth i s gap) fl.

Section Gather.
Variables (F E : list ascii -> list ascii).
Hypothesis F_len : forall s, length (F s) = length s.
Hypothesis E_len : forall s, length (E s) = length s.

Lemma gather_loop_spec fl i k :
  (k <= length fl)%nat ->
  cd_data (gather_loop fl (map F fl) (map E fl) i k) = column (firstn k fl) i /\
  cd_not_gap (gather_loop fl (map F fl) (map E fl) i k) =
    List.filter canonical (column (firstn k fl) i).
Proof.
  induction k as [|k IH]; intros Hk; [simpl; auto|].
  destruct (nth_error fl k) as [s|] eqn:Es;
    [| apply nth_error_None in Es; lia].
  rewrite (firstn_snoc _ _ _ Es). unfold column in *. rewrite map_app, List.filter_app.
  destruct IH as [IH1 IH2]; [lia|].
  cbn -[elem_char]. unfold gather_step, lookup2.
  rewrite Es, !nth_error_map, Es. cbn -[elem_char].
  destruct (nth_error s i) as [c|] eqn:Ec.
  - assert (Hf : nth_error (F s) i <> None)
      by (apply nth_error_Some; rewrite F_len; apply nth_error_Some; congruence).
    assert (He : nth_error (E s) i <> None)
      by (apply nth_error_Some; rewrite E_len; apply nth_error_Some; congruence).
    destruct (nth_error (F s) i); [|congruence].
    destruct (nth_error (E s) i); [|congruence].
    rewrite (List.nth_error_nth s i gap Ec). cbn -[elem_char].
    rewrite IH1, IH2. unfold canonical.
    destruct (elem_char c Nucleotide_common) eqn:Hc; cbn -[elem_char]; rewrite ?Hc, ?app_nil_r; auto.
  - apply nth_error_None in Ec. rewrite (nth_overflow _ _ Ec). simpl.
    rewrite IH1, IH2. split; [reflexivity|].
    rewrite app_nil_r. reflexivity.
Qed.

Lemma gather_spec fl i :
  cd_data (gather fl (map F fl) (map E fl) i) = column fl i /\
  cd_not_gap (gather fl (map F fl) (map E fl) i) = List.filter canonical (column fl i).
Proof.
  unfold gather. destruct (gather_loop_spec fl i (length fl)) as [H1 H2]; [lia|].
  rewrite firstn_all in H1, H2. auto.
Qed.
End Gather.

(** ** [Counter] and [most_common(1)] *)

Lemma count_char_app x l l' :
  count_char x (l ++ l') = (count_char x l + count_char x l')%nat.
Proof. unfold count_char. rewrite List.filter_app, length_app. reflexivity. Qed.

Lemma count_char_single x c :
  count_char x [c] = if Ascii.eqb x c then 1%nat else 0%nat.
Proof. unfold count_char. simpl. destruct (Ascii.eqb x c); reflexivity. Qed.

Lemma count_char_zero x l : count_char x l = 0%nat <-> ~ In x l.
Proof.
  unfold count_char. induction l as [|y l IH]; simpl; [tauto|].
  destruct (Ascii.eqb x y) eqn:E.
  - apply Ascii.eqb_eq in E; subst. simpl. split; [discriminate | tauto].
  - apply Ascii.eqb_neq in E. rewrite IH. intuition.
Qed.

Lemma count_char_filter x f l :
  count_char x (List.filter f l) = if f x then count_char x l else 0%nat.
Proof.
  unfold count_char. induction l as [|y l IH]; simpl; [destruct (f x); auto|].
  destruct (f y) eqn:Fy; simpl; destruct (Ascii.eqb x y) eqn:E; simpl;
    rewrite IH; try reflexivity;
    apply Ascii.eqb_eq in E; subst; rewrite Fy in *; try reflexivity; discriminate.
Qed.

Lemma counter_add_keys c cnt :
  map fst (counter_add c cnt) =
  if in_dec ascii_dec c (map fst cnt) then map fst cnt else map fst cnt ++ [c].
Proof.
  induction cnt as [|[y m] cnt IH]; simpl; [reflexivity|].
  destruct (Ascii.eqb y c) eqn:E.
  - apply Ascii.eqb_eq in E; subst. simpl.
    destruct (ascii_dec c c); [|congruence]. reflexivity.
  - apply Ascii.eqb_neq in E. simpl. rewrite IH.
    destruct (in_dec ascii_dec c (map fst cnt)), (ascii_dec y c); try congruence;
      destruct (in_dec ascii_dec c (y :: map fst cnt)) as [H|H];
      simpl in H; try tauto; reflexivity.
Qed.

Lemma counter_add_in c cnt x n :
  List.NoDup (map fst cnt) -> In (x, n) (counter_add c cnt) ->
  if Ascii.eqb x c then
    (In (c, pred n) cnt /\ n <> 0%nat) \/ (n = 1%nat /\ ~ In c (map fst cnt))
  else In (x, n) cnt.
Proof.
  induction cnt as [|[y m] cnt IH]; intros ND H; simpl in H.
  - destruct H as [H|[]]. inversion H; subst. rewrite Ascii.eqb_refl. right. auto.
  - inversion ND as [|? ? Hy ND']; subst. simpl in Hy.
    destruct (Ascii.eqb y c) eqn:E.
    + apply Ascii.eqb_eq in E; subst. destruct H as [H|H].
      * inversion H; subst. rewrite Ascii.eqb_refl. left. simpl. auto.
      * destruct (Ascii.eqb x c) eqn:Ex.
        -- apply Ascii.eqb_eq in Ex; subst. exfalso. apply Hy.
           apply (in_map fst) in H. exact H.
        -- simpl. auto.
    + apply Ascii.eqb_neq in E. destruct H as [H|H].
      * inversion H; subst. apply Ascii.eqb_neq in E. rewrite E. simpl. auto.
      * specialize (IH ND' H). destruct (Ascii.eqb x c).
        -- destruct IH as [[I1 I2]|[I1 I2]]; [left; simpl; auto|right; split; auto].
           simpl. intros [H'|H']; [congruence | tauto].
        -- simpl. auto.
Qed.

(** The invariant of a [Counter] built from [l]. *)
Definition counter_inv (cnt : list (ascii * nat)) (l : list ascii) : Prop :=
  List.NoDup (map fst cnt) /\
  (forall x n, In (x, n) cnt -> n = count_char x l) /\
  (forall x, In x (map fst cnt) <-> In x l).

Lemma counter_add_inv c cnt l :
  counter_inv cnt l -> counter_inv (counter_add c cnt) (l ++ [c]).
Proof.
  intros (ND & V & K). split; [|split].
  - rewrite counter_add_keys. destruct (in_dec ascii_dec c (map fst cnt)); auto.
    apply List.NoDup_app; auto using List.NoDup_cons, List.NoDup_nil.
    intros x Hx [Hx'|[]]; subst. contradiction.
  - intros x n H. apply counter_add_in in H; auto.
    rewrite count_char_app, count_char_single.
    destruct (Ascii.eqb x c) eqn:E.
    + apply Ascii.eqb_eq in E; subst. destruct H as [[H1 H2]|[H1 H2]].
      * apply V in H1. lia.
      * subst. rewrite K in H2. apply count_char_zero in H2. lia.
    + rewrite (V _ _ H). lia.
  - intros x. rewrite counter_add_keys, in_app_iff.
    destruct (in_dec ascii_dec c (map fst cnt)) as [Hc|Hc].
    + rewrite K. rewrite K in Hc. simpl. intuition congruence.
    + rewrite in_app_iff, K. tauto.
Qed.

Lemma Counter_inv l : counter_inv (Counter l) l.
Proof.
  induction l as [|c l IH] using rev_ind.
  - unfold Counter; simpl. split; [constructor | split; simpl; [tauto | tauto]].
  - unfold Counter in *. rewrite fold_left_app. simpl.
    apply counter_add_inv. exact IH.
Qed.

Lemma most_common1_fold (cnt : list (ascii * nat)) x :
  let r := fold_left (fun best y => if (snd best <? snd y)%nat then y else best) cnt x in
  In r (x :: cnt) /\ forall y, In y (x :: cnt) -> (snd y <= snd r)%nat.
Proof.
  revert x; induction cnt as [|z cnt IH]; intros x; simpl.
  - split; [auto | intros y [H|[]]; subst; lia].
  - destruct (snd x <? snd z)%nat eqn:E.
    + apply Nat.ltb_lt in E. destruct (IH z) as [I1 I2]. split.
      * simpl in I1 |- *. tauto.
      * intros y [H|[H|H]]; subst; [| apply I2; simpl; auto | apply I2; simpl; auto].
        specialize (I2 z (or_introl eq_refl)). lia.
    + apply Nat.ltb_ge in E. destruct (IH x) as [I1 I2]. split.
      * simpl in I1 |- *. tauto.
      * intros y [H|[H|H]]; subst; [apply I2; simpl; auto| |apply I2; simpl; auto].
        specialize (I2 x (or_introl eq_refl)). lia.
Qed.

Lemma most_common1_spec cnt b n :
  most_common1 cnt = Some (b, n) ->
  In (b, n) cnt /\ forall y, In y cnt -> (snd y <= n)%nat.
Proof.
  destruct cnt as [|x cnt]; simpl; [discriminate|].
  intro H; inversion H as [H']. destruct (most_common1_fold cnt x) as [I1 I2].
  rewrite H' in I1, I2. rewrite H'. split; [exact I1 | exact I2].
Qed.

(** ** Rounding *)

Lemma pyround_mono n1 n2 d :
  0 < d -> n1 <= n2 -> pyround n1 d <= pyround n2 d.
Proof.
  intros Hd Hn. unfold pyround.
  pose proof (Z.div_mod n1 d ltac:(lia)) as D1.
  pose proof (Z.div_mod n2 d ltac:(lia)) as D2.
  pose proof (Z.mod_pos_bound n1 d Hd) as B1.
  pose proof (Z.mod_pos_bound n2 d Hd) as B2.
  pose proof (Z.div_le_mono n1 n2 d Hd Hn) as Q.
  set (q1 := n1 / d) in *. set (q2 := n2 / d) in *.
  set (r1 := n1 mod d) in *. set (r2 := n2 mod d) in *.
  destruct (Z.eq_dec q1 q2) as [Eq|Ne].
  - assert (r1 <= r2) by nia. rewrite Eq.
    destruct (2 * r1 <? d) eqn:A1; destruct (d <? 2 * r1) eqn:A2;
    destruct (2 * r2 <? d) eqn:A3; destruct (d <? 2 * r2) eqn:A4;
    rewrite ?Z.ltb_lt, ?Z.ltb_ge in *; try lia;
    destruct (Z.even q2); lia.
  - assert (q1 + 1 <= q2) by lia.
    destruct (2 * r1 <? d); destruct (d <? 2 * r1);
    destruct (2 * r2 <? d); destruct (d <? 2 * r2);
    destruct (Z.even q1); destruct (Z.even q2); lia.
Qed.

Lemma pyround_near n d : 0 < d -> - d <= 2 * (d * pyround n d - n) <= d.
Proof.
  intros Hd. unfold pyround.
  pose proof (Z.div_mod n d ltac:(lia)) as D.
  pose proof (Z.mod_pos_bound n d Hd) as B.
  set (q := n / d) in *. set (r := n mod d) in *.
  destruct (Z.ltb_spec (2 * r) d); [nia|].
  destruct (Z.ltb_spec d (2 * r)); [nia|].
  destruct (Z.even q); nia.
Qed.

Lemma pyround_scale n d c : 0 < d -> 0 < c -> pyround (n * c) (d * c) = pyround n d.
Proof.
  intros Hd Hc. unfold pyround.
  rewrite Z.div_mul_cancel_r, Z.mul_mod_distr_r by lia.
  pose proof (Z.mod_pos_bound n d Hd).
  destruct (Z.ltb_spec (2 * (n mod d * c)) (d * c));
  destruct (Z.ltb_spec (2 * (n mod d)) d); try nia;
  destruct (Z.ltb_spec (d * c) (2 * (n mod d * c)));
  destruct (Z.ltb_spec d (2 * (n mod d))); try nia; reflexivity.
Qed.

Lemma py_round_float_near s :
  (s - (1#2) <= inject_Z (py_round_float s) <= s + (1#2))%Q.
Proof.
  destruct s as [n d]. unfold py_round_float. simpl.
  pose proof (pyround_near n (Zpos d) eq_refl).
  unfold Qle, Qminus, Qplus, Qopp, inject_Z; simpl.
  rewrite ?Pos2Z.inj_mul. split; nia.
Qed.

Lemma py_round_float_mono s1 s2 :
  (s1 <= s2)%Q -> py_round_float s1 <= py_round_float s2.
Proof.
  destruct s1 as [n1 d1], s2 as [n2 d2]. unfold Qle, py_round_float. simpl. intros H.
  rewrite <- (pyround_scale n1 (Zpos d1) (Zpos d2)) by lia.
  rewrite <- (pyround_scale n2 (Zpos d2) (Zpos d1)) by lia.
  rewrite (Z.mul_comm (Zpos d2) (Zpos d1)). apply pyround_mono; lia.
Qed.

Lemma py_round_float_le s N : (s <= inject_Z N)%Q -> py_round_float s <= N.
Proof.
  intros H. destruct (py_round_float_near s) as [_ H2].
  assert (H3 : (inject_Z (py_round_float s) < inject_Z (N + 1))%Q).
  { rewrite inject_Z_plus.
    assert (E : (inject_Z 1 == 1)%Q) by reflexivity. rewrite E. lra. }
  rewrite <- Zlt_Qlt in H3. lia.
Qed.

Lemma py_round_float_ge s N : (inject_Z N <= s)%Q -> N <= py_round_float s.
Proof.
  intros H. destruct (py_round_float_near s) as [H2 _].
  assert (H3 : (inject_Z (N - 1) < inject_Z (py_round_float s))%Q).
  { unfold Z.sub. rewrite inject_Z_plus.
    assert (E : (inject_Z (-1) == -1)%Q) by reflexivity. rewrite E. lra. }
  rewrite <- Zlt_Qlt in H3. lia.
Qed.

Lemma two_neq_0 : ~ (2 == 0)%Q.
Proof. intro H. inversion H. Qed.

Lemma pow2_pos z : (0 < 2 ^ z)%Q.
Proof. apply Qpower_0_lt. lra. Qed.

Lemma pow2_add a b : (2 ^ (a + b) == 2 ^ a * 2 ^ b)%Q.
Proof. apply Qpower_plus. exact two_neq_0. Qed.

Lemma pow2_Z n : 0 <= n -> (inject_Z (2 ^ n) == 2 ^ n)%Q.
Proof. intros Hn. apply (Zpower_Qpower 2 n Hn). Qed.

Lemma fl64_exp_spec x : (0 < x)%Q ->
  (2 ^ (52 + fl64_exp x) <= x < 2 ^ (53 + fl64_exp x))%Q.
Proof.
  intros Hx. destruct x as [a b].
  assert (Ha : 0 < a) by (unfold Qlt in Hx; simpl in Hx; lia).
  unfold fl64_exp. cbn [Qnum Qden].
  set (la := Z.log2 a). set (lb := Z.log2 (Zpos b)).
  destruct (Z.log2_spec a Ha) as [A1 A2].
  destruct (Z.log2_spec (Zpos b) eq_refl) as [B1 B2].
  fold la lb in A1, A2, B1, B2.
  pose proof (Z.log2_nonneg a). pose proof (Z.log2_nonneg (Zpos b)). fold la lb in H, H0.
  rewrite Zle_Qle in A1, B1. rewrite Zlt_Qlt in A2, B2.
  rewrite pow2_Z in A1, A2, B1, B2 by lia.
  assert (X : ((a # b) * inject_Z (Zpos b) == inject_Z a)%Q).
  { unfold Qeq; simpl. lia. }
  set (k := la - lb).
  assert (Hk : (2 ^ k * 2 ^ lb == 2 ^ la)%Q)
    by (rewrite <- pow2_add; replace (k + lb) with la by lia; reflexivity).
  assert (Hk1 : (2 ^ (k + 1) * 2 ^ lb == 2 ^ Z.succ la)%Q)
    by (rewrite <- pow2_add; replace (k + 1 + lb) with (Z.succ la) by lia; reflexivity).
  assert (Hk2 : (2 ^ (k - 1) * 2 ^ Z.succ lb == 2 ^ la)%Q)
    by (rewrite <- pow2_add; replace (k - 1 + Z.succ lb) with la by lia; reflexivity).
  pose proof (pow2_pos lb). pose proof (pow2_pos (k + 1)). pose proof (pow2_pos (k - 1)).
  set (X0 := (a # b)) in *. set (A := inject_Z a) in *. set (B := inject_Z (Zpos b)) in *.
  destruct (Qle_bool (2 ^ k) X0) eqn:E.
  - apply Qle_bool_iff in E.
    replace (52 + (k - 52)) with k by lia. replace (53 + (k - 52)) with (k + 1) by lia.
    split; [exact E|].
    set (P := 2 ^ (k + 1)) in *. set (Q1 := 2 ^ lb) in *. set (QA := 2 ^ Z.succ la) in *.
    nra.
  - assert (E' : (X0 < 2 ^ k)%Q).
    { apply Qnot_le_lt. intro E'. apply Qle_bool_iff in E'. congruence. }
    replace (52 + (k - 53)) with (k - 1) by lia. replace (53 + (k - 53)) with k by lia.
    split; [|exact E'].
    set (P := 2 ^ (k - 1)) in *. set (Q1 := 2 ^ Z.succ lb) in *. set (QA := 2 ^ la) in *.
    nra.
Qed.

Lemma fl64_pos_eq x : (0 < x)%Q ->
  fl64 x = (inject_Z (py_round_float (x * 2 ^ (- fl64_exp x))) * 2 ^ fl64_exp x)%Q.
Proof.
  intros Hx. unfold fl64.
  destruct (Qle_bool x 0) eqn:E; [|reflexivity].
  apply Qle_bool_iff in E. lra.
Qed.

Lemma fl64_nonpos x : (x <= 0)%Q -> fl64 x = 0%Q.
Proof.
  intros Hx. unfold fl64. apply Qle_bool_iff in Hx. rewrite Hx. reflexivity.
Qed.

(** The scaled value [x * 2^-e] and the unit [2^e] of a positive [x]. *)
Lemma fl64_scaled x : (0 < x)%Q ->
  let e := fl64_exp x in
  let s := (x * 2 ^ (- e))%Q in
  (s * 2 ^ e == x)%Q /\ (2 ^ 52 <= s < 2 ^ 53)%Q.
Proof.
  intros Hx e s.
  pose proof (pow2_pos e) as Pe.
  assert (S : (s * 2 ^ e == x)%Q).
  { assert (Ne : ~ (2 ^ e == 0)%Q) by (intro H; rewrite H in Pe; apply (Qlt_irrefl 0 Pe)).
    unfold s. rewrite Qpower_opp. field. exact Ne. }
  split; [exact S|].
  destruct (fl64_exp_spec x Hx) as [L U]. fold e in L, U.
  rewrite pow2_add in L, U. rewrite <- S in L, U.
  set (P := 2 ^ e) in *. pose proof (pow2_pos 52). pose proof (pow2_pos 53).
  set (P52 := 2 ^ 52) in *. set (P53 := 2 ^ 53) in *.
  split; nra.
Qed.

Lemma fl64_nonneg x : (0 <= fl64 x)%Q.
Proof.
  destruct (Qlt_le_dec 0 x) as [Hx|Hx]; [|rewrite fl64_nonpos by exact Hx; lra].
  rewrite fl64_pos_eq by exact Hx.
  destruct (fl64_scaled x Hx) as [_ [L _]].
  assert (H0 : (inject_Z 0 <= x * 2 ^ (- fl64_exp x))%Q)
    by (apply Qle_trans with (2 ^ 52)%Q; [apply Qlt_le_weak, pow2_pos | exact L]).
  pose proof (py_round_float_ge _ 0 H0).
  apply Qmult_le_0_compat; [|apply Qlt_le_weak, pow2_pos].
  rewrite Zle_Qle in H. exact H.
Qed.

Definition u53 : Q := 1 # 9007199254740992.

(** Round to nearest: the relative error is at most [2^-53]. *)
Lemma fl64_error x : (0 <= x)%Q ->
  (x - x * u53 <= fl64 x <= x + x * u53)%Q.
Proof.
  intros Hx0. destruct (Qlt_le_dec 0 x) as [Hx|Hx].
  2:{ rewrite fl64_nonpos by lra. unfold u53. lra. }
  rewrite fl64_pos_eq by exact Hx.
  destruct (fl64_scaled x Hx) as [S [L _]].
  set (e := fl64_exp x) in *. set (s := (x * 2 ^ (- e))%Q) in *.
  destruct (py_round_float_near s) as [N1 N2].
  set (R := inject_Z (py_round_float s)) in *.
  pose proof (pow2_pos e) as Pe. set (P := 2 ^ e) in *.
  assert (P52 : (2 ^ 52 == 4503599627370496)%Q) by reflexivity. rewrite P52 in L.
  unfold u53. split; nra.
Qed.

Lemma fl64_mono x y : (0 <= x <= y)%Q -> (fl64 x <= fl64 y)%Q.
Proof.
  intros [Hx0 Hxy]. destruct (Qlt_le_dec 0 x) as [Hx|Hx].
  2:{ rewrite (fl64_nonpos x Hx). apply fl64_nonneg. }
  assert (Hy : (0 < y)%Q) by lra.
  pose proof (fl64_exp_spec x Hx) as [Lx Ux]. pose proof (fl64_exp_spec y Hy) as [Ly Uy].
  destruct (fl64_scaled x Hx) as [Sx [Lsx Usx]]. destruct (fl64_scaled y Hy) as [Sy [Lsy Usy]].
  rewrite (fl64_pos_eq x Hx), (fl64_pos_eq y Hy).
  set (ex := fl64_exp x) in *. set (ey := fl64_exp y) in *.
  set (sx := (x * 2 ^ (- ex))%Q) in *. set (sy := (y * 2 ^ (- ey))%Q) in *.
  assert (Hle : ex <= ey).
  { assert (52 + ex < 53 + ey); [|lia].
    apply (Qpower_lt_compat_l_inv 2); [|lra].
    apply (Qle_lt_trans _ x); [exact Lx|]. apply (Qle_lt_trans _ y); [exact Hxy | exact Uy]. }
  pose proof (pow2_pos ex) as Px. pose proof (pow2_pos ey) as Py.
  destruct (Z.eq_dec ex ey) as [Eq|Ne].
  - assert (Hs : (sx <= sy)%Q).
    { unfold sx, sy. rewrite Eq. apply Qmult_le_compat_r; [exact Hxy|].
      apply Qlt_le_weak, pow2_pos. }
    apply py_round_float_mono in Hs. rewrite Zle_Qle in Hs.
    rewrite Eq. apply Qmult_le_compat_r; [exact Hs | apply Qlt_le_weak, Py].
  - assert (Rx : py_round_float sx <= 2 ^ 53).
    { apply py_round_float_le. rewrite pow2_Z by lia. apply Qlt_le_weak, Usx. }
    assert (Ry : 2 ^ 52 <= py_round_float sy).
    { apply py_round_float_ge. rewrite pow2_Z by lia. exact Lsy. }
    rewrite Zle_Qle, pow2_Z in Rx, Ry by lia.
    apply Qle_trans with (2 ^ 53 * 2 ^ ex)%Q;
      [apply Qmult_le_compat_r; [exact Rx | apply Qlt_le_weak, Px]|].
    apply Qle_trans with (2 ^ 52 * 2 ^ ey)%Q;
      [|apply Qmult_le_compat_r; [exact Ry | apply Qlt_le_weak, Py]].
    rewrite <- !pow2_add. apply Qpower_le_compat_l; [lia | lra].
Qed.

Lemma fl64_one : (fl64 1 == 1)%Q.
Proof. vm_compute. reflexivity. Qed.

Lemma fl64_100 : (fl64 100 == 100)%Q.
Proof. vm_compute. reflexivity. Qed.

Lemma fl64_le_const x c : (0 <= x <= c)%Q -> (fl64 c == c)%Q -> (fl64 x <= c)%Q.
Proof.
  intros H Hc. apply Qle_trans with (fl64 c); [apply fl64_mono; exact H|].
  rewrite Hc. apply Qle_refl.
Qed.

Lemma inject_Z_pos_lt a b : a < b -> (inject_Z a < inject_Z b)%Q.
Proof. rewrite Zlt_Qlt. auto. Qed.

Lemma inject_Z_pos_le a b : a <= b -> (inject_Z a <= inject_Z b)%Q.
Proof. rewrite Zle_Qle. auto. Qed.

(** The quotient [float(n) / total] of a count by a positive total. *)
Lemma pct_quotient n tz : 0 < tz -> Z.of_nat n <= tz ->
  let w := (inject_Z (Z.of_nat n) / inject_Z tz)%Q in
  (w * inject_Z tz == inject_Z (Z.of_nat n))%Q /\ (0 <= w <= 1)%Q.
Proof.
  intros T0 Hn w.
  pose proof (inject_Z_pos_lt 0 tz T0) as TQ.
  pose proof (inject_Z_pos_le 0 (Z.of_nat n) ltac:(lia)) as N0.
  pose proof (inject_Z_pos_le _ _ Hn) as NT.
  set (N := inject_Z (Z.of_nat n)) in *. set (T := inject_Z tz) in *.
  assert (W : (w * T == N)%Q).
  { unfold w. field. intro H. rewrite H in TQ. apply (Qlt_irrefl 0 TQ). }
  split; [exact W|]. change (inject_Z 0) with 0%Q in TQ, N0.
  clearbody w N T. split; nra.
Qed.

Lemma float_pct_range n tz : 0 < tz -> Z.of_nat n <= tz -> 0 <= float_pct n tz <= 100.
Proof.
  intros T0 Hn. destruct (pct_quotient n tz T0 Hn) as [_ [W0 W1]].
  set (w := (inject_Z (Z.of_nat n) / inject_Z tz)%Q) in *.
  unfold float_pct. fold w.
  pose proof (fl64_nonneg w) as Q0.
  pose proof (fl64_le_const w 1 ltac:(lra) fl64_one) as Q1.
  set (q := fl64 w) in *.
  pose proof (fl64_nonneg (q * 100)) as F0.
  pose proof (fl64_le_const (q * 100) 100 ltac:(lra) fl64_100) as F1.
  split; [apply py_round_float_ge; exact F0 | apply py_round_float_le; exact F1].
Qed.

Lemma float_pct_mono n1 n2 tz : 0 < tz -> (n1 <= n2)%nat -> float_pct n1 tz <= float_pct n2 tz.
Proof.
  intros T0 Hn. unfold float_pct. apply py_round_float_mono, fl64_mono.
  pose proof (inject_Z_pos_lt 0 tz T0) as TQ.
  pose proof (inject_Z_pos_le 0 (Z.of_nat n1) ltac:(lia)) as N0.
  pose proof (inject_Z_pos_le _ _ (proj1 (Nat2Z.inj_le _ _) Hn)) as N12.
  set (T := inject_Z tz) in *.
  assert (D : (inject_Z (Z.of_nat n1) / T <= inject_Z (Z.of_nat n2) / T)%Q).
  { apply Qmult_le_compat_r; [exact N12|]. apply Qlt_le_weak, Qinv_lt_0_compat, TQ. }
  assert (D0 : (0 <= inject_Z (Z.of_nat n1) / T)%Q).
  { apply Qmult_le_0_compat; [exact N0|]. apply Qlt_le_weak, Qinv_lt_0_compat, TQ. }
  pose proof (fl64_nonneg (inject_Z (Z.of_nat n1) / T)).
  pose proof (fl64_mono _ _ (conj D0 D)).
  split; lra.
Qed.

(** With fewer than [2^40] sequences the two rounding errors of the float
    arithmetic stay below [1/(2 total)], so [round] returns a nearest integer
    of the exact percentage [100 n / total]. *)
Lemma float_pct_near n tz : 0 < tz < 2 ^ 40 -> Z.of_nat n <= tz ->
  - tz <= 2 * (tz * float_pct n tz - 100 * Z.of_nat n) <= tz.
Proof.
  intros [T0 T1] Hn. destruct (pct_quotient n tz T0 Hn) as [W [W0 W1]].
  set (w := (inject_Z (Z.of_nat n) / inject_Z tz)%Q) in *.
  unfold float_pct. fold w.
  destruct (fl64_error w W0) as [Q1 Q2].
  pose proof (fl64_nonneg w) as Q0. set (q := fl64 w) in *.
  destruct (fl64_error (q * 100) ltac:(lra)) as [F1 F2]. set (f := fl64 (q * 100)) in *.
  destruct (py_round_float_near f) as [R1 R2].
  set (r := py_round_float f) in *. set (R := inject_Z r) in *.
  unfold u53 in *.
  assert (B1 : (R - 100 * w <= (1 # 2) + (1 # 10000000000000))%Q) by lra.
  assert (B2 : (- ((1 # 2) + (1 # 10000000000000)) <= R - 100 * w)%Q) by lra.
  pose proof (inject_Z_pos_lt 0 tz T0) as TQ.
  pose proof (inject_Z_pos_lt _ _ T1) as TB.
  change (inject_Z 0) with 0%Q in TQ.
  set (T := inject_Z tz) in *. set (N := inject_Z (Z.of_nat n)) in *.
  assert (E : (inject_Z (2 * (tz * r - 100 * Z.of_nat n)) == 2 * ((R - 100 * w) * T))%Q).
  { unfold Z.sub. rewrite inject_Z_mult, inject_Z_plus, inject_Z_opp, !inject_Z_mult.
    unfold T, R, N in *. rewrite <- W. change (inject_Z 2) with 2%Q.
    change (inject_Z 100) with 100%Q. ring. }
  assert (C1 : ((R - 100 * w) * T <= ((1 # 2) + (1 # 10000000000000)) * T)%Q)
    by (apply Qmult_le_compat_r; [exact B1 | lra]).
  assert (C2 : (- ((1 # 2) + (1 # 10000000000000)) * T <= (R - 100 * w) * T)%Q)
    by (apply Qmult_le_compat_r; [exact B2 | lra]).
  assert (H40 : (inject_Z (2 ^ 40) == 1099511627776)%Q) by reflexivity.
  rewrite H40 in TB.
  assert (U1 : (inject_Z (2 * (tz * r - 100 * Z.of_nat n)) < inject_Z (tz + 1))%Q).
  { rewrite E, inject_Z_plus. change (inject_Z 1) with 1%Q. fold T. lra. }
  assert (U2 : (inject_Z (- tz - 1) < inject_Z (2 * (tz * r - 100 * Z.of_nat n)))%Q).
  { assert (M : (inject_Z (- tz - 1) == - T - 1)%Q).
    { unfold T. rewrite <- inject_Z_opp. change 1%Q with (inject_Z 1).
      unfold Qminus. rewrite <- inject_Z_opp, <- inject_Z_plus. reflexivity. }
    rewrite E, M. lra. }
  rewrite <- Zlt_Qlt in U1, U2. lia.
Qed.

Lemma max_mono_nat (f : nat -> Z) x y :
  (forall a b, (a <= b)%nat -> f a <= f b) -> Z.max (f x) (f y) = f (Nat.max x y).
Proof.
  intros M. destruct (Nat.max_spec x y) as [[H E]|[H E]]; rewrite E.
  - apply Z.max_r. apply M. lia.
  - apply Z.max_l. apply M. lia.
Qed.

(** ** The column profile *)

Lemma canonical_cases b :
  canonical b = true -> b = "A"%char \/ b = "T"%char \/ b = "G"%char \/ b = "C"%char.
Proof.
  unfold canonical, elem_char. simpl.
  destruct (Ascii.eqb b "A") eqn:EA; [apply Ascii.eqb_eq in EA; auto|].
  destruct (Ascii.eqb b "T") eqn:ET; [apply Ascii.eqb_eq in ET; auto|].
  destruct (Ascii.eqb b "G") eqn:EG; [apply Ascii.eqb_eq in EG; auto|].
  destruct (Ascii.eqb b "C") eqn:EC; [apply Ascii.eqb_eq in EC; auto|].
  discriminate.
Qed.

Lemma column_profile_spec cd p :
  cd_not_gap cd = List.filter canonical (cd_data cd) ->
  column_profile cd = Ok p ->
  let data := cd_data cd in
  (forall b, canonical b = true -> (count_char b data <= p_major_count p)%nat) /\
  (if existsb canonical data
   then canonical (p_major p) = true /\ p_major_count p = count_char (p_major p) data
   else p_major p = gap /\ p_major_count p = 0%nat) /\
  p_total p =
    (count_char "A" data + count_char "T" data + count_char "G" data
     + count_char "C" data
     + fold_right (fun x acc => count_char x data + acc) 0 ambiguity_letters
     + (count_char gap data + count_char "." data))%nat /\
  (0 < p_total p)%nat /\
  p_freq_max p = float_pct (p_major_count p) (Z.of_nat (p_total p)).
Proof.
  intros NG H data. unfold column_profile in H. fold data in H.
  destruct (Counter_inv (cd_not_gap cd)) as (ND & V & K).
  (* the majority base and its count *)
  assert (MAJ : exists mx nmx,
             (match most_common1 (Counter (cd_not_gap cd)) with
              | Some p => p | None => (gap, 0%nat) end) = (mx, nmx) /\
             (forall b, canonical b = true -> (count_char b data <= nmx)%nat) /\
             (if existsb canonical data
              then canonical mx = true /\ nmx = count_char mx data
              else mx = gap /\ nmx = 0%nat)).
  { destruct (most_common1 (Counter (cd_not_gap cd))) as [[b n]|] eqn:M.
    - apply most_common1_spec in M as [Hin Hmax].
      assert (Hb : In b (cd_not_gap cd))
        by (apply K; apply (in_map fst) in Hin; exact Hin).
      rewrite NG in Hb. apply filter_In in Hb as [Hb Cb].
      exists b, n. split; [reflexivity|split].
      + intros b' Cb'.
        replace (count_char b' data) with (count_char b' (cd_not_gap cd))
          by (rewrite NG, count_char_filter, Cb'; reflexivity).
        destruct (in_dec ascii_dec b' (cd_not_gap cd)) as [I|I].
        * apply K in I. apply in_map_iff in I as [[x m] [Ex Im]]. simpl in Ex; subst.
          rewrite <- (V _ _ Im). apply (Hmax _ Im).
        * apply count_char_zero in I. lia.
      + assert (E : existsb canonical data = true)
          by (apply existsb_exists; eauto).
        rewrite E. split; [exact Cb|].
        rewrite (V _ _ Hin), NG, count_char_filter, Cb. reflexivity.
    - destruct (Counter (cd_not_gap cd)) as [|x cnt] eqn:C; [|discriminate].
      assert (E : existsb canonical data = false).
      { destruct (existsb canonical data) eqn:E; [|reflexivity].
        apply existsb_exists in E as [x [Hx Cx]].
        assert (Hx' : In x (cd_not_gap cd)) by (rewrite NG; apply filter_In; auto).
        apply K in Hx'. destruct Hx'. }
      exists gap, 0%nat. split; [reflexivity|]. rewrite E. split; [|auto].
      intros b Cb.
      replace (count_char b data) with (count_char b (cd_not_gap cd))
        by (rewrite NG, count_char_filter, Cb; reflexivity).
      assert (count_char b (cd_not_gap cd) = 0%nat); [|lia].
      apply count_char_zero. intro I. apply K in I. destruct I. }
  destruct MAJ as (mx & nmx & Em & Hmax & Hsel).
  rewrite Em in H.
  destruct (_ =? 0)%nat eqn:Ht in H; [discriminate|].
  apply Nat.eqb_neq in Ht.
  inv_bind H. inversion H; subst p; clear H. cbn [p_major p_major_count p_total p_freq_max].
  split; [exact Hmax|]. split; [exact Hsel|]. split; [reflexivity|].
  simpl in Ht |- *.
  match goal with |- context [float_pct nmx (Z.of_nat ?T)] =>
    set (TT := T) in * end.
  split; [lia|].
  set (g := fun n => float_pct n (Z.of_nat TT)).
  assert (Mg : forall a b, (a <= b)%nat -> g a <= g b)
    by (intros; unfold g; apply float_pct_mono; lia).
  change (Z.max (Z.max (Z.max (g (count_char "A" data)) (g (count_char "T" data)))
                       (g (count_char "G" data)))
                (g (count_char "C" data)) = g nmx).
  rewrite !(max_mono_nat g) by exact Mg. f_equal.
  pose proof (Hmax "A"%char eq_refl). pose proof (Hmax "T"%char eq_refl).
  pose proof (Hmax "G"%char eq_refl). pose proof (Hmax "C"%char eq_refl).
  destruct (existsb canonical data).
  - destruct Hsel as [Cm Em'].
    destruct (canonical_cases _ Cm) as [-> | [-> | [-> | ->]]]; lia.
  - destruct Hsel as [_ ->]. lia.
Qed.

Lemma rmap_nth {A B} (f : A -> result B) l ys i y :
  rmap f l = Ok ys -> nth_error ys i = Some y ->
  exists x, nth_error l i = Some x /\ f x = Ok y.
Proof.
  revert ys i; induction l as [|x l IH]; intros ys i H Hy; simpl in H.
  - inversion H; subst. destruct i; discriminate.
  - inv_bind H. inv_bind H. inversion H; subst.
    destruct i as [|i]; simpl in Hy.
    + inversion Hy; subst. exists x. auto.
    + apply (IH _ _ Hr0 Hy).
Qed.

Lemma rmap_length {A B} (f : A -> result B) l ys :
  rmap f l = Ok ys -> length ys = length l.
Proof.
  revert ys; induction l as [|x l IH]; intros ys H; simpl in H.
  - inversion H; reflexivity.
  - inv_bind H. inv_bind H. inversion H; subst. simpl. f_equal. auto.
Qed.

(** The profile of column [i] of the prepared records. *)
Lemma column_loop_profile recs ra L ps i p :
  record_loop recs rec_acc_init = Ok ra ->
  column_loop (ra_fasta ra) (ra_front ra) (ra_end ra) L = Ok ps ->
  nth_error ps i = Some p ->
  (i < L)%nat /\
  let cd := gather (ra_fasta ra) (ra_front ra) (ra_end ra) i in
  column_profile cd = Ok p /\
  cd_data cd = column (ra_fasta ra) i /\
  cd_not_gap cd = List.filter canonical (cd_data cd).
Proof.
  intros Hr Hc Hp.
  destruct (rmap_nth _ _ _ _ _ Hc Hp) as [j [Hj Hf]].
  assert (ji : j = i /\ (i < L)%nat).
  { assert (i < length (seq 0 L))%nat by (apply nth_error_Some; congruence).
    rewrite length_seq in H. rewrite nth_error_seq in Hj.
    destruct (Nat.ltb_spec i L); [|lia]. inversion Hj; subst. simpl. auto. }
  destruct ji as [-> Hi]. split; [exact Hi|].
  apply record_loop_fields in Hr as (E1 & E2 & E3). simpl in E1, E2, E3.
  rewrite E1, E2, E3 in *.
  set (F := fun s => fs_mask (front_pass s)).
  set (E := fun s => es_mask (end_pass s)).
  replace (map (fun r => fs_mask (front_pass (prep r))) recs) with (map F (map prep recs))
    by (rewrite map_map; reflexivity).
  replace (map (fun r => es_mask (end_pass (prep r))) recs) with (map E (map prep recs))
    by (rewrite map_map; reflexivity).
  replace (map (fun r => fs_mask (front_pass (prep r))) recs) with (map F (map prep recs))
    in Hf by (rewrite map_map; reflexivity).
  replace (map (fun r => es_mask (end_pass (prep r))) recs) with (map E (map prep recs))
    in Hf by (rewrite map_map; reflexivity).
  destruct (gather_spec F E front_mask_length end_mask_length (map prep recs) i) as [G1 G2].
  split; [exact Hf|]. split; [exact G1|]. rewrite G2, G1. reflexivity.
Qed.

Lemma column_profile_freq_range cd p :
  cd_not_gap cd = List.filter canonical (cd_data cd) ->
  column_profile cd = Ok p -> 0 <= p_freq_max p <= 100.
Proof.
  intros NG H. destruct (column_profile_spec cd p NG H) as (Hmax & Hsel & Ht & Hpos & Hf).
  assert (Hle : (p_major_count p <= p_total p)%nat).
  { rewrite Ht. destruct (existsb canonical (cd_data cd)).
    - destruct Hsel as [C E]. rewrite E.
      destruct (canonical_cases _ C) as [-> | [-> | [-> | ->]]]; lia.
    - destruct Hsel as [_ ->]. lia. }
  rewrite Hf. apply float_pct_range; lia.
Qed.

(** ** The identity-bucket ladder *)

(** The ladder in the words of the specification (section 4.4). *)
Definition spec_bucket (f : Z) : option Z :=
  if (90 <=? f) && (f <=? 100) then Some 90
  else if (80 <=? f) && (f <? 90) then Some 80
  else if (70 <=? f) && (f <? 80) then Some 70
  else if (60 <=? f) && (f <? 70) then Some 60
  else if (50 <=? f) && (f <? 60) then Some 50
  else if ((40 <=? f) && (f <? 50)) || (f <? 40) then Some 40
  else None.

Ltac decide_cmps :=
  repeat match goal with
    | |- context [?a <=? ?b] =>
        first [rewrite (proj2 (Z.leb_le a b)) by lia
              | rewrite (proj2 (Z.leb_gt a b)) by lia]
    | |- context [?a <? ?b] =>
        first [rewrite (proj2 (Z.ltb_lt a b)) by lia
              | rewrite (proj2 (Z.ltb_ge a b)) by lia]
    end.

Lemma bump_ladder f d :
  0 <= f <= 100 -> exists k, spec_bucket f = Some k /\ bump f d = incr k d.
Proof.
  intros Hf. unfold bump, spec_bucket, pctid_cutoff. cbn [cutoff_loop Nat.eqb].
  cbn [Z.add].
  destruct (Z_lt_le_dec f 40); [|destruct (Z_lt_le_dec f 50);
    [|destruct (Z_lt_le_dec f 60); [|destruct (Z_lt_le_dec f 70);
      [|destruct (Z_lt_le_dec f 80); [|destruct (Z_lt_le_dec f 90)]]]]];
  decide_cmps; simpl; eexists; split; reflexivity.
Qed.

Definition get_ok {A} (d : A) (r : result A) : A :=
  match r with Ok a => a | Exc _ => d end.

Definition empty_profile : profile :=
  {| p_a := 0; p_t := 0; p_g := 0; p_c := 0; p_etc := 0; p_miss := 0;
     p_real_gap := 0; p_miss_gap := 0; p_total := 0; p_apcr := 0;
     p_a_freq := 0; p_t_freq := 0; p_g_freq := 0; p_c_freq := 0;
     p_iupac := EmptyString; p_major := gap; p_major_count := 0; p_freq_max := 0 |}.

(* ================================================================== *)
(** * Claims about the column statistics engine *)

(** C3: the majority base of a column is the most frequent of the four
    canonical bases A, T, G, C (never an ambiguity letter or a gap); with
    no canonical base in the column it is the sentinel ["-"] with count 0;
    the majority frequency is [majority_count / total_count] as a
    percentage rounded to the nearest integer, where [total_count] counts
    the canonical bases, the ambiguity letters and the gap symbols.  The
    maximum of the four rounded frequencies is the rounded frequency of the
    majority count, computed in binary64 as the code does; with fewer than
    [2^40] sequences it lies within 1/2 of the exact percentage
    [100 * majority_count / total_count], so it is a nearest integer (at an
    exact tie such as 57.5 the float rounding may give either neighbour). *)
Theorem column_majority_vote (recs : list (list ascii)) (ra : rec_acc) (L : nat)
    (ps : list profile) (i : nat) (p : profile) :
  record_loop recs rec_acc_init = Ok ra ->
  column_loop (ra_fasta ra) (ra_front ra) (ra_end ra) L = Ok ps ->
  nth_error ps i = Some p ->
  let col := column (map prep recs) i in
  (forall b, canonical b = true -> (count_char b col <= p_major_count p)%nat) /\
  (if existsb canonical col
   then canonical (p_major p) = true /\ p_major_count p = count_char (p_major p) col
   else p_major p = gap /\ p_major_count p = 0%nat) /\
  p_total p =
    (count_char "A" col + count_char "T" col + count_char "G" col + count_char "C" col
     + fold_right (fun x acc => count_char x col + acc) 0 ambiguity_letters
     + (count_char gap col + count_char "." col))%nat /\
  p_freq_max p = float_pct (p_major_count p) (Z.of_nat (p_total p)) /\
  (Z.of_nat (p_total p) < 2 ^ 40 ->
   - Z.of_nat (p_total p)
   <= 2 * (Z.of_nat (p_total p) * p_freq_max p - 100 * Z.of_nat (p_major_count p))
   <= Z.of_nat (p_total p)).
Proof.
  intros Hr Hc Hp col.
  destruct (column_loop_profile recs ra L ps i p Hr Hc Hp) as (_ & Hprof & Hdata & NG).
  destruct (column_profile_spec _ _ NG Hprof) as (H1 & H2 & H3 & H0 & H4).
  assert (Hle : (p_major_count p <= p_total p)%nat).
  { rewrite H3. destruct (existsb canonical (cd_data _)).
    - destruct H2 as [C E]. rewrite E.
      destruct (canonical_cases _ C) as [-> | [-> | [-> | ->]]]; lia.
    - destruct H2 as [_ ->]. lia. }
  apply record_loop_fields in Hr as (E1 & _ & _). simpl in E1.
  rewrite Hdata, E1 in H1, H2, H3. fold col in H1, H2, H3.
  split; [exact H1|]. split; [exact H2|]. split; [exact H3|]. split; [exact H4|].
  intros Hb. rewrite H4. apply float_pct_near; lia.
Qed.

Definition recs_AAAT : list (list ascii) := fasta ["A"; "A"; "A"; "T"]%string.
Definition ra_AAAT : rec_acc := get_ok rec_acc_init (record_loop recs_AAAT rec_acc_init).
Definition ps_AAAT : list profile :=
  get_ok [] (column_loop (ra_fasta ra_AAAT) (ra_front ra_AAAT) (ra_end ra_AAAT) 1).

Lemma column_majority_vote_witness :
  record_loop recs_AAAT rec_acc_init = Ok ra_AAAT /\
  column_loop (ra_fasta ra_AAAT) (ra_front ra_AAAT) (ra_end ra_AAAT) 1 = Ok ps_AAAT /\
  nth_error ps_AAAT 0 = Some (nth 0 ps_AAAT empty_profile) /\
  p_major (nth 0 ps_AAAT empty_profile) = "A"%char /\
  p_freq_max (nth 0 ps_AAAT empty_profile) = 75 /\
  (let p := nth 0 ps_AAAT empty_profile in
   let col := column (map prep recs_AAAT) 0 in
   (forall b, canonical b = true -> (count_char b col <= p_major_count p)%nat) /\
   (if existsb canonical col
    then canonical (p_major p) = true /\ p_major_count p = count_char (p_major p) col
    else p_major p = gap /\ p_major_count p = 0%nat) /\
   p_total p =
     (count_char "A" col + count_char "T" col + count_char "G" col + count_char "C" col
      + fold_right (fun x acc => count_char x col + acc) 0 ambiguity_letters
      + (count_char gap col + count_char "." col))%nat /\
   p_freq_max p = float_pct (p_major_count p) (Z.of_nat (p_total p)) /\
   (Z.of_nat (p_total p) < 2 ^ 40 ->
    - Z.of_nat (p_total p)
    <= 2 * (Z.of_nat (p_total p) * p_freq_max p - 100 * Z.of_nat (p_major_count p))
    <= Z.of_nat (p_total p))).
Proof.
  assert (H1 : record_loop recs_AAAT rec_acc_init = Ok ra_AAAT) by (vm_compute; reflexivity).
  assert (H2 : column_loop (ra_fasta ra_AAAT) (ra_front ra_AAAT) (ra_end ra_AAAT) 1 = Ok ps_AAAT)
    by (vm_compute; reflexivity).
  assert (H3 : nth_error ps_AAAT 0 = Some (nth 0 ps_AAAT empty_profile))
    by (vm_compute; reflexivity).
  split; [exact H1|]. split; [exact H2|]. split; [exact H3|].
  split; [vm_compute; reflexivity|]. split; [vm_compute; reflexivity|].
  exact (column_majority_vote recs_AAAT ra_AAAT 1 ps_AAAT 0 _ H1 H2 H3).
Defined.

(** C2: a cell equal to its column's majority base increments exactly one
    identity bucket, chosen from the column's majority frequency [f] by the
    ladder [spec_bucket]: 90 for [90 <= f <= 100], [t] for [t <= f < t+10]
    ([t] in 80, 70, 60, 50), and 40 for [40 <= f < 50] or [f < 40]; in
    particular 90 -> 90, 89 -> 80, 40 -> 40 and 39 -> 40. *)
Theorem identity_bucket_ladder (recs : list (list ascii)) (ra : rec_acc) (L : nat)
    (ps : list profile) (i : nat) (p : profile) :
  record_loop recs rec_acc_init = Ok ra ->
  column_loop (ra_fasta ra) (ra_front ra) (ra_end ra) L = Ok ps ->
  nth_error ps i = Some p ->
  (exists k, spec_bucket (p_freq_max p) = Some k /\
     forall (s : list ascii) (st : blue_state), nth i s gap = p_major p ->
       exists nm,
         blue_cell (map (fun q => (p_major q, p_freq_max q)) ps) s i st =
         Ok {| bs_count := incr k (bs_count st); bs_nomiss := nm;
               bs_noblue := bs_noblue st |}) /\
  (forall d, bump 90 d = incr 90 d /\ bump 89 d = incr 80 d /\
             bump 40 d = incr 40 d /\ bump 39 d = incr 40 d).
Proof.
  intros Hr Hc Hp. split.
  - destruct (column_loop_profile recs ra L ps i p Hr Hc Hp) as (_ & Hprof & _ & NG).
    pose proof (column_profile_freq_range _ _ NG Hprof) as Hf.
    destruct (bump_ladder (p_freq_max p) ∅ Hf) as [k [Hk _]].
    exists k. split; [exact Hk|].
    intros s st Hs. unfold blue_cell.
    rewrite nth_error_map, Hp. simpl. rewrite Hs, Ascii.eqb_refl.
    destruct (bump_ladder (p_freq_max p) (bs_count st) Hf) as [k' [Hk' Hb]].
    rewrite Hk in Hk'. inversion Hk'; subst k'.
    rewrite Hb. eexists. reflexivity.
  - intros d. repeat split; reflexivity.
Qed.

Lemma identity_bucket_ladder_witness :
  record_loop recs_AAAT rec_acc_init = Ok ra_AAAT /\
  column_loop (ra_fasta ra_AAAT) (ra_front ra_AAAT) (ra_end ra_AAAT) 1 = Ok ps_AAAT /\
  nth_error ps_AAAT 0 = Some (nth 0 ps_AAAT empty_profile) /\
  let p := nth 0 ps_AAAT empty_profile in
  (exists k, spec_bucket (p_freq_max p) = Some k /\
     forall (s : list ascii) (st : blue_state), nth 0 s gap = p_major p ->
       exists nm,
         blue_cell (map (fun q => (p_major q, p_freq_max q)) ps_AAAT) s 0 st =
         Ok {| bs_count := incr k (bs_count st); bs_nomiss := nm;
               bs_noblue := bs_noblue st |}) /\
  (forall d, bump 90 d = incr 90 d /\ bump 89 d = incr 80 d /\
             bump 40 d = incr 40 d /\ bump 39 d = incr 40 d).
Proof.
  assert (H1 : record_loop recs_AAAT rec_acc_init = Ok ra_AAAT) by (vm_compute; reflexivity).
  assert (H2 : column_loop (ra_fasta ra_AAAT) (ra_front ra_AAAT) (ra_end ra_AAAT) 1 = Ok ps_AAAT)
    by (vm_compute; reflexivity).
  assert (H3 : nth_error ps_AAAT 0 = Some (nth 0 ps_AAAT empty_profile))
    by (vm_compute; reflexivity).
  split; [exact H1|]. split; [exact H2|]. split; [exact H3|].
  exact (identity_bucket_ladder recs_AAAT ra_AAAT 1 ps_AAAT 0 _ H1 H2 H3).
Defined.

(** ** All-gap rows *)

Lemma prep_nth_all_gap r : forall i,
  (forall c, In c r -> c = "-"%char \/ c = "."%char) -> nth i (prep r) gap = gap.
Proof.
  induction r as [|c r IH]; intros i Hall; [destruct i; reflexivity|].
  destruct i as [|i]; simpl.
  - destruct (Hall c (or_introl eq_refl)) as [-> | ->]; reflexivity.
  - apply IH. intros x Hx. apply Hall. right. exact Hx.
Qed.

Lemma front_loop_start_all_gap seq k :
  (forall i, nth i seq gap = gap) -> fs_base_start (front_loop seq k front_init) = 0%nat.
Proof.
  intros Hg. induction k as [|k IH]; [reflexivity|].
  simpl. set (st := front_loop seq k front_init) in *. unfold front_step. rewrite Hg. simpl.
  destruct (fs_cont st), (k =? 0)%nat, (fs_miss st =? 0)%nat; simpl; exact IH.
Qed.

Lemma end_loop_end_all_gap seq k st :
  (forall i, nth i seq gap = gap) -> es_base_end (end_loop seq k st) = es_base_end st.
Proof.
  intros Hg. revert st; induction k as [|k IH]; intros st; [reflexivity|].
  simpl. rewrite IH. unfold end_step. rewrite Hg. simpl.
  destruct (es_cont st), (k =? length seq - 1)%nat, (es_miss st =? 0)%nat; reflexivity.
Qed.

Lemma record_pass_all_gap r :
  r <> [] -> (forall c, In c r -> c = "-"%char \/ c = "."%char) ->
  record_pass r = Exc IndexError.
Proof.
  intros Hne Hall.
  assert (Hg' : forall i, nth i (prep r) gap = gap)
    by (intros i; apply prep_nth_all_gap; exact Hall).
  assert (Hb : fs_base_start (front_pass (prep r)) = 0%nat)
    by (apply front_loop_start_all_gap; exact Hg').
  assert (He : es_base_end (end_pass (prep r)) = 0%nat)
    by (unfold end_pass; rewrite end_loop_end_all_gap; [reflexivity | exact Hg']).
  assert (Hc : slice 0 1 (prep r) = [gap]).
  { unfold slice. simpl. destruct (prep r) as [|x l] eqn:E.
    - destruct r; [congruence | discriminate].
    - specialize (Hg' 0%nat). simpl in Hg' |- *. now subst. }
  unfold record_pass. cbv zeta. rewrite Hb, He, Hc. reflexivity.
Qed.

Lemma record_loop_all_gap recs r acc :
  In r recs -> record_pass r = Exc IndexError -> record_loop recs acc = Exc IndexError.
Proof.
  revert acc; induction recs as [|r' recs IH]; intros acc Hin Hr; [destruct Hin|].
  simpl. destruct Hin as [<- | Hin].
  - rewrite Hr. reflexivity.
  - destruct (record_pass r') as [ri|e] eqn:E; simpl.
    + apply IH; assumption.
    + apply record_pass_error in E. subst. reflexivity.
Qed.

(** C10: a non-empty row made only of gap symbols (['-'] or ['.']) makes
    the engine raise [IndexError] in the gap-run extraction of the record
    loop: [gap_starts] gets an entry that [gap_ends] never closes. *)
Theorem all_gap_row_index_error (recs : list (list ascii)) (r : list ascii) :
  In r recs -> r <> [] -> (forall c, In c r -> c = "-"%char \/ c = "."%char) ->
  record_loop recs rec_acc_init = Exc IndexError /\
  align_to_statistics recs = Exc IndexError.
Proof.
  intros Hin Hne Hall.
  pose proof (record_loop_all_gap recs r rec_acc_init Hin
                (record_pass_all_gap r Hne Hall)) as H.
  split; [exact H|]. unfold align_to_statistics. rewrite H. reflexivity.
Qed.

Lemma all_gap_row_index_error_witness :
  record_loop (fasta ["AC"; "-."]%string) rec_acc_init = Exc IndexError /\
  align_to_statistics (fasta ["AC"; "-."]%string) = Exc IndexError.
Proof.
  apply (all_gap_row_index_error (fasta ["AC"; "-."]%string) (list_ascii_of_string "-.")).
  - simpl. auto.
  - discriminate.
  - simpl. intros c [<- | [<- | []]]; auto.
Defined.

(** ** Degenerate inputs *)

Lemma align_to_statistics_ok recs out :
  align_to_statistics recs = Ok out ->
  exists ra ps bs,
    record_loop recs rec_acc_init = Ok ra /\
    ra_fasta ra <> [] /\
    column_loop (ra_fasta ra) (ra_front ra) (ra_end ra)
                (length (hd [] (ra_fasta ra))) = Ok ps /\
    blue_loop (map (fun p => (p_major p, p_freq_max p)) ps) (ra_fasta ra) blue_init = Ok bs /\
    bs_nomiss bs <> 0%nat /\
    out = {| values := report (length (hd [] (ra_fasta ra))) ps;
             gap_stat_header := gap_stat_header_names;
             gap_stats := gap_stats out;
             pct_id_cutoff := pctid_cutoff;
             blue_base_count := bs_count bs |} /\
    no_miss_bases (gap_stats out) = bs_nomiss bs /\
    no_blue_bases (gap_stats out) = bs_noblue bs.
Proof.
  intros H. unfold align_to_statistics in H.
  inv_bind H. rename a into ra.
  destruct (ra_gap_seq_count ra =? 0)%nat; cbv zeta in H;
  (inv_bind H; rename a into first;
   destruct (ra_fasta ra) as [|s fl] eqn:Efl; [discriminate|];
   simpl in Hr0; inversion Hr0; subst first; clear Hr0;
   inv_bind H; rename a into ps; inv_bind H; rename a into bs;
   destruct (bs_nomiss bs =? 0)%nat eqn:Enm; [discriminate|];
   apply Nat.eqb_neq in Enm;
   inversion H; subst out; clear H;
   exists ra, ps, bs; rewrite Efl; simpl;
   repeat split; auto; discriminate).
Qed.

(** C5: with no rows, or with a non-missing base count of 0, the engine
    raises instead of returning statistics. *)
Theorem degenerate_statistics_raise (recs : list (list ascii)) :
  (recs = [] -> align_to_statistics recs = Exc IndexError) /\
  (forall out, align_to_statistics recs = Ok out ->
     recs <> [] /\ no_miss_bases (gap_stats out) <> 0%nat).
Proof.
  split.
  - intros ->. reflexivity.
  - intros out H. destruct (align_to_statistics_ok recs out H)
      as (ra & ps & bs & Hr & Hne & _ & _ & Hnm & _ & Hm & _).
    split.
    + intros ->. simpl in Hr. inversion Hr; subst. apply Hne. reflexivity.
    + rewrite Hm. exact Hnm.
Qed.

Lemma degenerate_statistics_raise_witness :
  ([] = @nil (list ascii) /\ align_to_statistics [] = Exc IndexError) /\
  (align_to_statistics (fasta ["A"]%string) =
     Ok (get_ok (Build_stats_output [] [] (Build_gap_stat_result 0 0 0 0 0 0 0 0 0 0) [] ∅)
                (align_to_statistics (fasta ["A"]%string))) /\
   fasta ["A"]%string <> [] /\
   no_miss_bases (gap_stats (get_ok (Build_stats_output [] [] (Build_gap_stat_result 0 0 0 0 0 0 0 0 0 0) [] ∅)
                (align_to_statistics (fasta ["A"]%string)))) <> 0%nat).
Proof.
  split.
  - split; [reflexivity|]. apply (degenerate_statistics_raise []). reflexivity.
  - assert (H : align_to_statistics (fasta ["A"]%string) =
       Ok (get_ok (Build_stats_output [] [] (Build_gap_stat_result 0 0 0 0 0 0 0 0 0 0) [] ∅)
                  (align_to_statistics (fasta ["A"]%string)))) by (vm_compute; reflexivity).
    split; [exact H|].
    exact (proj2 (degenerate_statistics_raise (fasta ["A"]%string)) _ H).
Defined.

(** ** What the blue-base loop counts *)

Definition nongap (c : ascii) : bool := negb (Ascii.eqb c gap).

(** Cells of the matrix that are not ["-"]. *)
Definition nongap_cells (fl : list (list ascii)) : nat :=
  fold_right (fun s acc => length (List.filter nongap s) + acc)%nat 0%nat fl.

(** Positions of row [s] holding a non-gap symbol that differs from the
    majority base [nth j majors] of its column. *)
Definition noblue_row (majors : list ascii) (s : list ascii) : nat :=
  length (List.filter
            (fun j => nongap (nth j s gap) && negb (Ascii.eqb (nth j s gap) (nth j majors gap)))
            (seq 0 (length s))).

Definition noblue_cells (majors : list ascii) (fl : list (list ascii)) : nat :=
  fold_right (fun s acc => noblue_row majors s + acc)%nat 0%nat fl.

Lemma filter_map_S (g : nat -> bool) l :
  length (List.filter g (map S l)) = length (List.filter (fun j => g (S j)) l).
Proof.
  induction l as [|x l IH]; simpl; [reflexivity|].
  destruct (g (S x)); simpl; rewrite IH; reflexivity.
Qed.

Lemma filter_indices (f : ascii -> bool) s :
  length (List.filter (fun j => f (nth j s gap)) (seq 0 (length s))) =
  length (List.filter f s).
Proof.
  induction s as [|c s IH]; [reflexivity|].
  simpl length. rewrite <- seq_shift. simpl.
  destruct (f c); simpl; rewrite filter_map_S; simpl; rewrite IH; reflexivity.
Qed.

Lemma blue_cell_spec bp s j st st' :
  blue_cell bp s j st = Ok st' ->
  (j < length bp)%nat /\
  bs_nomiss st' = (bs_nomiss st + if nongap (nth j s gap) then 1 else 0)%nat /\
  bs_noblue st' =
    (bs_noblue st + if nongap (nth j s gap) &&
                       negb (Ascii.eqb (nth j s gap) (nth j (map fst bp) gap))
                    then 1 else 0)%nat /\
  (Ascii.eqb (nth j s gap) (nth j (map fst bp) gap) = false -> bs_count st' = bs_count st).
Proof.
  unfold blue_cell, nongap. intros H.
  destruct (nth_error bp j) as [[mx f]|] eqn:E; [|discriminate].
  assert (Hj : (j < length bp)%nat) by (apply nth_error_Some; congruence).
  rewrite (List.nth_error_nth (map fst bp) j gap (map_nth_error fst j bp E)).
  simpl.
  destruct (Ascii.eqb (nth j s gap) mx) eqn:Em.
  - inversion H; subst; simpl. apply Ascii.eqb_eq in Em. subst mx.
    destruct (Ascii.eqb (nth j s gap) gap); simpl; repeat split; try lia; discriminate.
  - destruct (Ascii.eqb (nth j s gap) gap); simpl; inversion H; subst; simpl;
      repeat split; lia.
Qed.

Lemma blue_row_spec bp s k st st' :
  blue_row bp s k st = Ok st' ->
  bs_nomiss st' = (bs_nomiss st + length (List.filter (fun j => nongap (nth j s gap)) (seq 0 k)))%nat /\
  bs_noblue st' =
    (bs_noblue st + length (List.filter
       (fun j => nongap (nth j s gap) && negb (Ascii.eqb (nth j s gap) (nth j (map fst bp) gap)))
       (seq 0 k)))%nat.
Proof.
  revert st'; induction k as [|k IH]; intros st' H; simpl in H.
  - inversion H; subst. simpl. lia.
  - inv_bind H. rename a into mid. destruct (IH mid Hr) as [I1 I2].
    destruct (blue_cell_spec _ _ _ _ _ H) as (_ & C1 & C2 & _).
    rewrite seq_S, !List.filter_app, !length_app. simpl.
    rewrite C1, C2, I1, I2.
    destruct (nongap (nth k s gap)); simpl;
      [destruct (negb (Ascii.eqb (nth k s gap) (nth k (map fst bp) gap)))|]; simpl; lia.
Qed.

Lemma blue_loop_spec bp fl st st' :
  blue_loop bp fl st = Ok st' ->
  bs_nomiss st' = (bs_nomiss st + nongap_cells fl)%nat /\
  bs_noblue st' = (bs_noblue st + noblue_cells (map fst bp) fl)%nat.
Proof.
  revert st; induction fl as [|s fl IH]; intros st H; simpl in H.
  - inversion H; subst. simpl. lia.
  - inv_bind H. rename a into mid. destruct (IH mid H) as [I1 I2].
    destruct (blue_row_spec _ _ _ _ _ Hr) as [R1 R2].
    rewrite (filter_indices nongap s) in R1.
    simpl. unfold noblue_row. lia.
Qed.

(** Cells equal to the majority base of their column. *)
Definition matched_cells (majors : list ascii) (fl : list (list ascii)) : nat :=
  fold_right (fun s acc =>
    length (List.filter (fun j => Ascii.eqb (nth j s gap) (nth j majors gap))
                        (seq 0 (length s))) + acc)%nat 0%nat fl.

Lemma sum_values_incr k d : sum_values (incr k d) = S (sum_values d).
Proof.
  unfold incr, sum_values.
  assert (C : forall (j1 j2 : Z) (z1 z2 y : nat), j1 <> j2 -> True ->
            True -> (z1 + (z2 + y) = z2 + (z1 + y))%nat) by (intros; lia).
  destruct (d !! k) as [x|] eqn:E; simpl.
  - remember (delete k d) as m eqn:Em.
    assert (Hm : m !! k = None) by (subst m; apply lookup_delete_eq).
    assert (Hd : d = <[k:=x]> m) by (subst m; rewrite insert_delete_eq, insert_id; auto).
    rewrite Hd, insert_insert_eq.
    rewrite !map_fold_insert_L by (auto || (intros; lia)). lia.
  - rewrite map_fold_insert_L by (auto || (intros; lia)). lia.
Qed.

Lemma blue_cell_count bp s j st st' :
  Forall (fun e => 0 <= snd e <= 100) bp ->
  blue_cell bp s j st = Ok st' ->
  sum_values (bs_count st') =
    (sum_values (bs_count st)
     + if Ascii.eqb (nth j s gap) (nth j (map fst bp) gap) then 1 else 0)%nat.
Proof.
  unfold blue_cell. intros HF H.
  destruct (nth_error bp j) as [[mx f]|] eqn:E; [|discriminate].
  rewrite (List.nth_error_nth (map fst bp) j gap (map_nth_error fst j bp E)).
  simpl.
  destruct (Ascii.eqb (nth j s gap) mx) eqn:Em.
  - inversion H; subst; simpl.
    assert (Hf : 0 <= f <= 100).
    { apply nth_error_In in E. rewrite List.Forall_forall in HF. apply (HF _ E). }
    destruct (bump_ladder f (bs_count st) Hf) as [k [_ ->]].
    rewrite sum_values_incr. lia.
  - destruct (negb (Ascii.eqb (nth j s gap) gap)); inversion H; subst; simpl; lia.
Qed.

Lemma blue_loop_count bp fl st st' :
  Forall (fun e => 0 <= snd e <= 100) bp ->
  blue_loop bp fl st = Ok st' ->
  sum_values (bs_count st') = (sum_values (bs_count st) + matched_cells (map fst bp) fl)%nat.
Proof.
  intros HF. revert st; induction fl as [|s fl IH]; intros st H; simpl in H.
  - inversion H; subst. simpl. lia.
  - inv_bind H. rename a into mid. rewrite (IH mid H).
    assert (R : forall k st1 st2, blue_row bp s k st1 = Ok st2 ->
              sum_values (bs_count st2) =
              (sum_values (bs_count st1) + length (List.filter
                 (fun j => Ascii.eqb (nth j s gap) (nth j (map fst bp) gap)) (seq 0 k)))%nat).
    { induction k as [|k IHk]; intros st1 st2 Hk; simpl in Hk.
      - inversion Hk; subst. simpl. lia.
      - inv_bind Hk. rewrite (blue_cell_count _ _ _ _ _ HF Hk), (IHk _ _ Hr0).
        rewrite seq_S, List.filter_app, length_app. simpl.
        destruct (Ascii.eqb (nth k s gap) (nth k (map fst bp) gap)); simpl; lia. }
    rewrite (R _ _ _ Hr). simpl. lia.
Qed.

(** C1 (as the code has it): the non-missing count is the number of cells
    that are not ["-"] (canonical bases and ambiguity letters alike); the
    non-blue count is the number of non-["-"] cells that differ from the
    majority base of their column (so ambiguity letters are non-blue); one
    bucket is incremented per cell equal to the majority base of its column;
    and that majority base is a canonical base whenever the column holds
    one. *)
Theorem blue_classification_counts (recs : list (list ascii)) (out : stats_output) :
  align_to_statistics recs = Ok out ->
  exists ra ps,
    record_loop recs rec_acc_init = Ok ra /\
    column_loop (ra_fasta ra) (ra_front ra) (ra_end ra)
                (length (hd [] (map prep recs))) = Ok ps /\
    no_miss_bases (gap_stats out) = nongap_cells (map prep recs) /\
    no_blue_bases (gap_stats out) = noblue_cells (map p_major ps) (map prep recs) /\
    sum_values (blue_base_count out) = matched_cells (map p_major ps) (map prep recs) /\
    (forall j p, nth_error ps j = Some p ->
       existsb canonical (column (map prep recs) j) = true ->
       canonical (p_major p) = true).
Proof.
  intros H.
  destruct (align_to_statistics_ok _ _ H)
    as (ra & ps & bs & Hr & _ & Hc & Hb & _ & Hout & Hnm & Hnb).
  pose proof Hr as Hfields. apply record_loop_fields in Hfields as (E1 & _ & _).
  simpl in E1.
  assert (Hprof : forall j p, nth_error ps j = Some p ->
            column_profile (gather (ra_fasta ra) (ra_front ra) (ra_end ra) j) = Ok p /\
            cd_data (gather (ra_fasta ra) (ra_front ra) (ra_end ra) j) = column (map prep recs) j /\
            cd_not_gap (gather (ra_fasta ra) (ra_front ra) (ra_end ra) j) =
              List.filter canonical (cd_data (gather (ra_fasta ra) (ra_front ra) (ra_end ra) j))).
  { intros j p Hj. destruct (column_loop_profile _ _ _ _ _ _ Hr Hc Hj) as (_ & P1 & P2 & P3).
    rewrite <- E1. auto. }
  assert (HF : Forall (fun e => 0 <= snd e <= 100) (map (fun p => (p_major p, p_freq_max p)) ps)).
  { apply List.Forall_forall. intros e Ie. apply in_map_iff in Ie as [p [<- Ip]].
    apply In_nth_error in Ip as [j Hj]. destruct (Hprof j p Hj) as (P1 & _ & P3).
    exact (column_profile_freq_range _ _ P3 P1). }
  assert (Hmaj : map fst (map (fun p => (p_major p, p_freq_max p)) ps) = map p_major ps)
    by (rewrite map_map; reflexivity).
  destruct (blue_loop_spec _ _ _ _ Hb) as [B1 B2].
  pose proof (blue_loop_count _ _ _ _ HF Hb) as B3.
  rewrite Hmaj, E1 in *. simpl in B1, B2, B3.
  exists ra, ps. repeat split; auto.
  - rewrite E1. exact Hc.
  - rewrite Hnm, B1. reflexivity.
  - rewrite Hnb, B2. reflexivity.
  - rewrite Hout. simpl. rewrite B3. unfold sum_values. rewrite map_fold_empty.
    reflexivity.
  - intros j p Hj Hex. destruct (Hprof j p Hj) as (P1 & P2 & P3).
    destruct (column_profile_spec _ _ P3 P1) as (_ & Hsel & _).
    rewrite P2, Hex in Hsel. tauto.
Qed.

Definition no_output : stats_output :=
  Build_stats_output [] [] (Build_gap_stat_result 0 0 0 0 0 0 0 0 0 0) [] ∅.

(** The statistics of an alignment given by its sequences. *)
Definition run_stats (l : list string) : stats_output :=
  get_ok no_output (align_to_statistics (fasta l)).

Lemma blue_classification_counts_witness :
  align_to_statistics (fasta ["AN"]%string) = Ok (run_stats ["AN"]%string) /\
  exists ra ps,
    record_loop (fasta ["AN"]%string) rec_acc_init = Ok ra /\
    column_loop (ra_fasta ra) (ra_front ra) (ra_end ra)
                (length (hd [] (map prep (fasta ["AN"]%string)))) = Ok ps /\
    no_miss_bases (gap_stats (run_stats ["AN"]%string)) =
      nongap_cells (map prep (fasta ["AN"]%string)) /\
    no_blue_bases (gap_stats (run_stats ["AN"]%string)) =
      noblue_cells (map p_major ps) (map prep (fasta ["AN"]%string)) /\
    sum_values (blue_base_count (run_stats ["AN"]%string)) =
      matched_cells (map p_major ps) (map prep (fasta ["AN"]%string)) /\
    (forall j p, nth_error ps j = Some p ->
       existsb canonical (column (map prep (fasta ["AN"]%string)) j) = true ->
       canonical (p_major p) = true).
Proof.
  assert (H : align_to_statistics (fasta ["AN"]%string) = Ok (run_stats ["AN"]%string))
    by (vm_compute; reflexivity).
  split; [exact H|].
  exact (blue_classification_counts _ _ H).
Defined.

(** C1 counterexample: in the one-row alignment ["AN"] the matrix holds
    one canonical base, yet the non-missing count (the ratio denominator) is
    2 and the ambiguity letter N is counted as a non-blue base. *)
Lemma blue_classification_counterexample :
  align_to_statistics (fasta ["AN"]%string) = Ok (run_stats ["AN"]%string) /\
  length (List.filter canonical (concat (map prep (fasta ["AN"]%string)))) = 1%nat /\
  no_miss_bases (gap_stats (run_stats ["AN"]%string)) = 2%nat /\
  no_blue_bases (gap_stats (run_stats ["AN"]%string)) = 1%nat.
Proof. vm_compute. repeat split; reflexivity. Qed.

(** * Claims about the gap-run statistics and the report *)

(** C4 (failing input): in the alignment ["A-A"; "AAA"] the first row has
    one internal gap run of length 1 between its first and last real base.
    The code uses [base_start == 0] as "not yet set", so with a real base at
    index 0 the core region starts at the second real base (index 2): the run
    is missed, and the gap-sequence count, the gap count and the summed gap
    length are all 0, while the masking pass of the same function reports the
    gap at column 2 in the ["Gap count"] line of the report. *)
Lemma internal_gap_run_missed :
  fs_base_start (front_pass (prep (list_ascii_of_string "A-A"))) = 2%nat /\
  align_to_statistics (fasta ["A-A"; "AAA"]%string) = Ok (run_stats ["A-A"; "AAA"]%string) /\
  gap_seq_count (gap_stats (run_stats ["A-A"; "AAA"]%string)) = 0%nat /\
  gap_count (gap_stats (run_stats ["A-A"; "AAA"]%string)) = 0%nat /\
  gap_sum_length (gap_stats (run_stats ["A-A"; "AAA"]%string)) = 0 /\
  nth 6 (values (run_stats ["A-A"; "AAA"]%string)) EmptyString =
    ("Gap count" ++ tab ++ "0" ++ tab ++ "1" ++ tab ++ "0")%string.
Proof. vm_compute. repeat split; reflexivity. Qed.

(** C7 counterexample: for the alignment ["A"] the sixth line of the
    report (index 5) is the missing count, and the per-base frequencies only
    start at index 9, after the missing, gap, other-symbol and combined-gap
    counts. *)
Lemma report_order_counterexample :
  align_to_statistics (fasta ["A"]%string) = Ok (run_stats ["A"]%string) /\
  nth 5 (values (run_stats ["A"]%string)) EmptyString = ("Miss count" ++ tab ++ "0")%string /\
  nth 9 (values (run_stats ["A"]%string)) EmptyString = ("A freq" ++ tab ++ "100")%string.
Proof. vm_compute. repeat split; reflexivity. Qed.

(** C7 (as the code has it): the report is the header line ([Position] and
    the column indices 1..L) followed by one line per metric in the order
    A/T/G/C count, Miss count, Gap count, etc count, MissGap count, A/T/G/C
    freq, Total count, Coverage, IUPAC, Major base, Major base count; each
    line is the metric name and its L tab-separated per-column values. *)
Theorem report_layout (recs : list (list ascii)) (out : stats_output) :
  align_to_statistics recs = Ok out ->
  let L := length (hd [] (map prep recs)) in
  exists cells : list (list string),
    values out =
      join tab ("Position"%string :: map str_nat (seq 1 L)) ::
      map (fun nc => fst nc ++ tab ++ join tab (snd nc))%string
          (combine ["A count"; "T count"; "G count"; "C count"; "Miss count";
                    "Gap count"; "etc count"; "MissGap count"; "A freq"; "T freq";
                    "G freq"; "C freq"; "Total count"; "Coverage"; "IUPAC";
                    "Major base"; "Major base count"]%string cells) /\
    length cells = 17%nat /\
    Forall (fun c => length c = L) cells.
Proof.
  intros H L.
  destruct (align_to_statistics_ok _ _ H) as (ra & ps & bs & Hr & _ & Hc & _ & _ & Hout & _).
  apply record_loop_fields in Hr as (E1 & _ & _). simpl in E1.
  rewrite E1 in Hc, Hout. fold L in Hc, Hout.
  unfold column_loop in Hc. apply rmap_length in Hc. rewrite length_seq in Hc.
  exists (value_data_list ps). rewrite Hout. simpl values.
  split; [reflexivity|]. split; [reflexivity|].
  unfold value_data_list. repeat constructor; rewrite length_map; exact Hc.
Qed.

Lemma report_layout_witness :
  align_to_statistics (fasta ["AC"]%string) = Ok (run_stats ["AC"]%string) /\
  exists cells : list (list string),
    values (run_stats ["AC"]%string) =
      join tab ("Position"%string :: map str_nat (seq 1 2)) ::
      map (fun nc => fst nc ++ tab ++ join tab (snd nc))%string
          (combine ["A count"; "T count"; "G count"; "C count"; "Miss count";
                    "Gap count"; "etc count"; "MissGap count"; "A freq"; "T freq";
                    "G freq"; "C freq"; "Total count"; "Coverage"; "IUPAC";
                    "Major base"; "Major base count"]%string cells) /\
    length cells = 17%nat /\
    Forall (fun c => length c = 2%nat) cells.
Proof.
  assert (H : align_to_statistics (fasta ["AC"]%string) = Ok (run_stats ["AC"]%string))
    by (vm_compute; reflexivity).
  split; [exact H|].
  exact (report_layout _ _ H).
Defined.

(* ------------------------------------------------------------------ *)
(** * The alignment task ([src/tasks/app.py]) *)

(** ** [clean_align_file]

    The FASTA file is the list of its parsed records; the [SeqIO.write] /
    [SeqIO.parse] round trip of a record is taken to keep its id and its
    sequence. *)

Record fasta_record := { rec_id : string; rec_seq : list ascii }.

Definition is_consensus (r : fasta_record) : bool := String.eqb (rec_id r) "consensus".

(** [record.id.startswith("*")] *)
Definition starts_with_star (s : string) : bool :=
  match s with String c _ => Ascii.eqb c "*" | EmptyString => false end.

(** [record.id[1:]] *)
Definition drop1 (s : string) : string :=
  match s with String _ s' => s' | EmptyString => EmptyString end.

(** [re.sub(r'[.~]', '-', s)] *)
Definition sub_dot_tilde (s : list ascii) : list ascii :=
  map (fun c => if Ascii.eqb c "." || Ascii.eqb c "~" then gap else c) s.

(** [s.ljust(n, fill)] *)
Definition ljust (n : nat) (fill : ascii) (s : list ascii) : list ascii :=
  s ++ repeat fill (n - length s).

(** First loop: the longest non-consensus sequence. *)
Definition max_length_of (recs : list fasta_record) : nat :=
  fold_left (fun m r => if is_consensus r then m else Nat.max m (length (rec_seq r)))
            recs 0%nat.

Definition clean_record (max_length : nat) (r : fasta_record) : fasta_record :=
  let id := if starts_with_star (rec_id r) then drop1 (rec_id r) else rec_id r in
  {| rec_id := id;
     rec_seq := str_upper (ljust max_length gap (sub_dot_tilde (rec_seq r))) |}.

(** The records of the rewritten file and the returned [max_length]. *)
Definition clean_align_file (recs : list fasta_record) : list fasta_record * nat :=
  let max_length := max_length_of recs in
  (flat_map (fun r => if is_consensus r then [] else [clean_record max_length r]) recs,
   max_length).

(** An alignment that is already normalised: no consensus row, no leading
    ["*"] on an id, every row of length [L], upper-case symbols and no
    ["."] or ["~"] gap character. *)
Definition normalized (L : nat) (recs : list fasta_record) : bool :=
  forallb (fun r =>
    negb (is_consensus r) && negb (starts_with_star (rec_id r)) &&
    (length (rec_seq r) =? L)%nat &&
    forallb (fun c => Ascii.eqb (ascii_upper c) c && negb (Ascii.eqb c ".")
                      && negb (Ascii.eqb c "~")) (rec_seq r)) recs.

(** ** [run_tool]

    The observable effects of the task are recorded as a trace of events;
    a computation of type [M A] extends the trace and either returns or
    raises, keeping the events performed before the exception.  Logging is
    not recorded. *)

Inductive Tool := MAFFT | VSEARCH | UCLUST.

(** [Tool(value)]: the enum lookup by value. *)
Definition Tool_of_value (s : string) : result Tool :=
  if String.eqb s "mafft" then Ok MAFFT
  else if String.eqb s "vsearch" then Ok VSEARCH
  else if String.eqb s "uclust" then Ok UCLUST
  else Exc ValueError.

Definition Tool_value (t : Tool) : string :=
  match t with MAFFT => "mafft" | VSEARCH => "vsearch" | UCLUST => "uclust" end.

Definition str_lower (s : string) : string :=
  string_of_list_ascii (map ascii_lower (list_ascii_of_string s)).

Inductive event :=
| Mkdir (p : string)             (* output_dir.mkdir(...) *)
| OpenWrite (p : string)         (* open(p, "w"): creates or truncates p *)
| OpenAppend (p : string)        (* open(p, "a") *)
| Spawn (cmd : string)           (* subprocess.Popen(cmd, shell=True) *)
| StartMonitoring                (* monitor.start_monitoring() *)
| StopMonitoring                 (* monitor.stop_monitoring() *)
| ReadFile (p : string)          (* open(p, "r").read() *)
| CleanAlign (p : string)        (* clean_align_file(p) *)
| RunBlueBase (p : string).      (* BlueBase(p, output_dir).main() *)

Definition M (A : Type) : Type := list event -> result A * list event.

Definition mret {A} (a : A) : M A := fun tr => (Ok a, tr).

Definition mbind {A B} (m : M A) (k : A -> M B) : M B :=
  fun tr => match m tr with
            | (Ok a, tr') => k a tr'
            | (Exc x, tr') => (Exc x, tr')
            end.

Notation "'mlet' x := m 'in' k" := (mbind m (fun x => k))
  (at level 200, x name, m at level 100, k at level 200).

Definition lift {A} (r : result A) : M A := fun tr => (r, tr).
Definition emit (e : event) : M unit := fun tr => (Ok tt, tr ++ [e]).
Definition raise {A} (x : exn) : M A := fun tr => (Exc x, tr).

(** [try: body except Exception as e: handler e]; a [BaseException] that is
    not an [Exception] (KeyboardInterrupt) passes through. *)
Definition try_except {A} (body : M A) (handler : exn -> M A) : M A :=
  fun tr => match body tr with
            | (Exc x, tr') => if is_Exception x then handler x tr' else (Exc x, tr')
            | r => r
            end.

Definition starts_with_slash (s : string) : bool :=
  match s with String c _ => Ascii.eqb c "/" | EmptyString => false end.

(** [os.path.join(a, b)] and [Path(a) / b]: an absolute [b] replaces [a]. *)
Definition path_join (a b : string) : string :=
  if starts_with_slash b then b else (a ++ "/" ++ b)%string.

(** [os.path.join(a, b)] *)
Definition os_path_join (a b : string) : string :=
  if starts_with_slash b then b
  else match a with
       | EmptyString => b
       | _ => if Ascii.eqb (List.last (list_ascii_of_string a) "/"%char) "/" then (a ++ b)%string
              else (a ++ "/" ++ b)%string
       end.

Fixpoint take_until (c : ascii) (s : list ascii) : list ascii :=
  match s with [] => [] | x :: s' => if Ascii.eqb x c then [] else x :: take_until c s' end.

Fixpoint drop_until (c : ascii) (s : list ascii) : list ascii :=
  match s with [] => [] | x :: s' => if Ascii.eqb x c then s else drop_until c s' end.

Fixpoint strip_leading (c : ascii) (s : list ascii) : list ascii :=
  match s with [] => [] | x :: s' => if Ascii.eqb x c then strip_leading c s' else s end.

(** [os.path.basename(p)] *)
Definition basename (p : string) : string :=
  string_of_list_ascii (rev (take_until "/" (rev (list_ascii_of_string p)))).

(** [os.path.dirname(p)]: the head up to the last ["/"], without its
    trailing slashes unless it consists of slashes only. *)
Definition dirname (p : string) : string :=
  let head := rev (drop_until "/" (rev (list_ascii_of_string p))) in
  if forallb (Ascii.eqb "/") head then string_of_list_ascii head
  else string_of_list_ascii (rev (strip_leading "/" (rev head))).

(** [s.split(".")[0]] *)
Definition before_dot (s : string) : string :=
  string_of_list_ascii (take_until "." (list_ascii_of_string s)).

Definition create_mafft_cmd (input_path : string) (options : list string) : string :=
  (Tool_value MAFFT ++ " " ++ join " " options ++ " --thread 8 " ++ input_path)%string.

Definition create_vsearch_cmd (input_path output_path : string) (options : list string) : string :=
  (Tool_value VSEARCH ++ " --cluster_smallmem " ++ input_path ++ " " ++ join " " options
   ++ " --msaout " ++ output_path)%string.

Definition create_uclust_cmd (input_path output_path : string) (options : list string) : string :=
  let base_name := before_dot (basename output_path) in
  let base_path := dirname output_path in
  let uc_file := os_path_join base_path (base_name ++ "_pctid_0.uc") in
  let temp_fa := os_path_join base_path (base_name ++ "_pctid_0.fa") in
  let cmd1 := (Tool_value UCLUST ++ " --input " ++ input_path ++ " --uc " ++ uc_file ++ " "
               ++ join " " options)%string in
  let cmd2 := (Tool_value UCLUST ++ " --uc2fasta " ++ uc_file ++ " --input " ++ input_path
               ++ " --output " ++ temp_fa)%string in
  let cmd3 := (Tool_value UCLUST ++ " --staralign " ++ temp_fa ++ " --output " ++ output_path)%string in
  (cmd1 ++ " && " ++ cmd2 ++ " && " ++ cmd3)%string.

Definition create_cmd (tool : Tool) (input_path output_path : string) (options : list string) : string :=
  match tool with
  | MAFFT => create_mafft_cmd input_path options
  | VSEARCH => create_vsearch_cmd input_path output_path options
  | UCLUST => create_uclust_cmd input_path output_path options
  end.

(** What the outside world answers to the task: the word drawn by
    [r.word()], [shlex.split], whether [Popen] starts the shell, what
    [process.wait()] returns or raises, the records the tool writes, and
    the result of [BlueBase(...).main()]. *)
Record env := {
  random_word : string;
  shlex_split : string -> result (list string);
  popen_result : result unit;
  wait_result : result Z;
  tool_output : list fasta_record;
  bluebase_result : result (string * string) }.

Definition PREFIX : string := "/data".

(** [run_tool(self, dir_name, base_name, tool, options)]; it returns the
    align file name, the stat file name and the statistic. *)
Definition run_tool (e : env) (dir_name base_name tool : string) (options : option string)
    : M (string * string * string) :=
  let output_dir := path_join PREFIX dir_name in
  let input_path := path_join output_dir base_name in
  let align_file_name := (random_word e ++ ".aln")%string in
  let align_file := path_join output_dir align_file_name in
  let log_file := path_join output_dir (random_word e ++ ".log") in
  mlet t := lift (Tool_of_value (str_lower tool)) in
  mlet opts := lift (shlex_split e (default EmptyString options)) in
  let cmd := create_cmd t input_path align_file opts in
  mlet _ := emit (Mkdir output_dir) in
  mlet _ := emit (OpenWrite log_file) in
  mlet _ := emit (OpenWrite align_file) in
  mlet _ := emit (OpenAppend log_file) in
  mlet _ := lift (popen_result e) in
  mlet _ := emit (Spawn cmd) in
  mlet _ := emit StartMonitoring in
  mlet _ := try_except
              (mlet return_code := lift (wait_result e) in
               mlet _ := emit StopMonitoring in
               if negb (return_code =? 0) then
                 mlet _ := emit (ReadFile log_file) in raise RuntimeError
               else mret tt)
              (fun x => mlet _ := emit StopMonitoring in raise x) in
  mlet _ := match t with
            | VSEARCH | UCLUST =>
                mlet _ := emit (CleanAlign align_file) in
                if (snd (clean_align_file (tool_output e)) =? 0)%nat then raise ValueError
                else mret tt
            | MAFFT => mret tt
            end in
  mlet _ := emit (RunBlueBase align_file) in
  mlet res := lift (bluebase_result e) in
  mret (align_file_name, fst res, snd res).

Definition is_stop (ev : event) : bool :=
  match ev with StopMonitoring => true | _ => false end.

Definition count_stops (tr : list event) : nat := length (List.filter is_stop tr).

(** * Claims about the alignment task *)

Lemma max_length_of_uniform L recs m :
  forallb (fun r => negb (is_consensus r) && (length (rec_seq r) =? L)%nat) recs = true ->
  fold_left (fun m r => if is_consensus r then m else Nat.max m (length (rec_seq r))) recs m =
  match recs with [] => m | _ => Nat.max m L end.
Proof.
  revert m; induction recs as [|r recs IH]; intros m H; [reflexivity|].
  simpl in H. apply andb_prop in H as [Hr H]. apply andb_prop in Hr as [Hc Hl].
  apply negb_true_iff in Hc. apply Nat.eqb_eq in Hl.
  simpl. rewrite Hc, Hl, (IH _ H).
  destruct recs; [reflexivity|]. lia.
Qed.

Lemma clean_record_normalized L r :
  negb (starts_with_star (rec_id r)) = true ->
  length (rec_seq r) = L ->
  forallb (fun c => Ascii.eqb (ascii_upper c) c && negb (Ascii.eqb c ".")
                    && negb (Ascii.eqb c "~")) (rec_seq r) = true ->
  clean_record L r = r.
Proof.
  intros Hs Hl Hc. destruct r as [id s]. unfold clean_record. simpl in *.
  apply negb_true_iff in Hs. rewrite Hs. f_equal.
  unfold ljust, sub_dot_tilde. rewrite length_map, Hl, Nat.sub_diag, app_nil_r. clear Hl.
  induction s as [|c s IH]; [reflexivity|].
  simpl in Hc. apply andb_prop in Hc as [Hc1 Hc2].
  apply andb_prop in Hc1 as [Hc1 Ht]. apply andb_prop in Hc1 as [Hu Hd].
  apply negb_true_iff in Hd, Ht. apply Ascii.eqb_eq in Hu.
  unfold str_upper in IH |- *. simpl. rewrite Hd, Ht. simpl. rewrite Hu.
  f_equal. exact (IH Hc2).
Qed.

(** C8: on an alignment that is already normalised (no consensus row, no
    leading ["*"] on an id, all rows of length [L], upper-case symbols with
    ["-"] as the only gap character), [clean_align_file] writes back the same
    records (ids and sequences) and returns the common length [L] (0 for an
    empty alignment); in particular a second normalisation changes
    nothing. *)
Theorem clean_align_file_idempotent (L : nat) (recs : list fasta_record) :
  normalized L recs = true ->
  clean_align_file recs = (recs, match recs with [] => 0%nat | _ => L end).
Proof.
  intros H. unfold clean_align_file, max_length_of.
  rewrite (max_length_of_uniform L).
  2:{ unfold normalized in H. rewrite forallb_forall in H |- *. intros r Ir.
      specialize (H r Ir). apply andb_prop in H as [H _]. apply andb_prop in H as [H Hl].
      apply andb_prop in H as [Hc _]. rewrite Hc, Hl. reflexivity. }
  assert (Hm : Nat.max 0 L = L) by lia.
  assert (Hf : flat_map (fun r => if is_consensus r then [] else [clean_record L r]) recs = recs).
  { clear Hm. induction recs as [|r recs IH]; [reflexivity|].
    simpl in H. apply andb_prop in H as [Hr H].
    apply andb_prop in Hr as [Hr Hc]. apply andb_prop in Hr as [Hr Hl].
    apply andb_prop in Hr as [Hn Hs]. apply negb_true_iff in Hn. apply Nat.eqb_eq in Hl.
    simpl. rewrite Hn. simpl. rewrite (clean_record_normalized L r Hs Hl Hc).
    f_equal. exact (IH H). }
  destruct recs; [reflexivity|]. rewrite Hm, Hf. reflexivity.
Qed.

Definition aligned_ex : list fasta_record :=
  [{| rec_id := "seq1"; rec_seq := list_ascii_of_string "AC-T" |};
   {| rec_id := "seq2"; rec_seq := list_ascii_of_string "A-NT" |}].

Lemma clean_align_file_idempotent_witness :
  normalized 4 aligned_ex = true /\ clean_align_file aligned_ex = (aligned_ex, 4%nat).
Proof.
  assert (H : normalized 4 aligned_ex = true) by reflexivity.
  split; [exact H|]. exact (clean_align_file_idempotent 4 aligned_ex H).
Defined.

(** C9: when the lower-cased tool name is none of ["mafft"], ["vsearch"],
    ["uclust"], [run_tool] raises [ValueError] from [Tool(...)] before
    anything happens: no directory is created, no command is spawned and no
    alignment file is opened (the trace is empty). *)
Theorem unknown_tool_rejected (e : env) (dir_name base_name tool : string)
    (options : option string) :
  str_lower tool <> "mafft"%string ->
  str_lower tool <> "vsearch"%string ->
  str_lower tool <> "uclust"%string ->
  run_tool e dir_name base_name tool options [] = (Exc ValueError, []).
Proof.
  intros H1 H2 H3. unfold run_tool, mbind, lift, Tool_of_value.
  destruct (String.eqb_spec (str_lower tool) "mafft"); [contradiction|].
  destruct (String.eqb_spec (str_lower tool) "vsearch"); [contradiction|].
  destruct (String.eqb_spec (str_lower tool) "uclust"); [contradiction|].
  reflexivity.
Qed.

Definition env_ex (rc : result Z) : env :=
  {| random_word := "apple";
     shlex_split := fun s => Ok (if String.eqb s EmptyString then [] else [s]);
     popen_result := Ok tt;
     wait_result := rc;
     tool_output := aligned_ex;
     bluebase_result := Ok ("apple_stat.txt", "statistic")%string |}.

Lemma unknown_tool_rejected_witness :
  str_lower "Clustalo" <> "mafft"%string /\ str_lower "Clustalo" <> "vsearch"%string /\
  str_lower "Clustalo" <> "uclust"%string /\
  run_tool (env_ex (Ok 0)) "job" "in.fa" "Clustalo" None [] = (Exc ValueError, []).
Proof.
  assert (H1 : str_lower "Clustalo" <> "mafft"%string) by (vm_compute; discriminate).
  assert (H2 : str_lower "Clustalo" <> "vsearch"%string) by (vm_compute; discriminate).
  assert (H3 : str_lower "Clustalo" <> "uclust"%string) by (vm_compute; discriminate).
  split; [exact H1|]. split; [exact H2|]. split; [exact H3|].
  exact (unknown_tool_rejected _ _ _ _ _ H1 H2 H3).
Defined.

(** C6 (as the code has it): once the process is spawned, the number of
    [stop_monitoring] calls is 1 when the process exits with code 0, 2 when
    it exits with a non-zero code (the [RuntimeError] raised after the first
    call inside the [try] is caught by its own [except Exception], which
    calls it again), 1 when [process.wait()] raises an [Exception], and 0
    when it raises a [BaseException] such as [KeyboardInterrupt]. *)
Theorem stop_monitoring_count (e : env) (dir_name base_name tool : string)
    (options : option string) (t : Tool) (args : list string) :
  Tool_of_value (str_lower tool) = Ok t ->
  shlex_split e (default EmptyString options) = Ok args ->
  popen_result e = Ok tt ->
  count_stops (snd (run_tool e dir_name base_name tool options [])) =
    match wait_result e with
    | Ok rc => if (rc =? 0) then 1%nat else 2%nat
    | Exc x => if is_Exception x then 1%nat else 0%nat
    end.
Proof.
  intros Ht Ho Hp. unfold run_tool, mbind, lift. rewrite Ht, Ho, Hp.
  unfold try_except, mbind, lift, emit, raise, mret.
  destruct (wait_result e) as [rc|x].
  - destruct (rc =? 0) eqn:Erc; simpl; [|reflexivity].
    destruct t; simpl;
      [|destruct ((max_length_of (tool_output e) =? 0)%nat); simpl..];
      destruct (bluebase_result e); reflexivity.
  - simpl. destruct (is_Exception x); reflexivity.
Qed.

(** C6 failing input: the tool exits with code 1; [stop_monitoring] is
    called twice. *)
Lemma stop_monitoring_count_witness :
  Tool_of_value (str_lower "mafft") = Ok MAFFT /\
  shlex_split (env_ex (Ok 1)) (default EmptyString None) = Ok [] /\
  popen_result (env_ex (Ok 1)) = Ok tt /\
  count_stops (snd (run_tool (env_ex (Ok 1)) "job" "in.fa" "mafft" None [])) = 2%nat.
Proof.
  assert (H1 : Tool_of_value (str_lower "mafft") = Ok MAFFT) by (vm_compute; reflexivity).
  assert (H2 : shlex_split (env_ex (Ok 1)) (default EmptyString None) = Ok [])
    by (vm_compute; reflexivity).
  assert (H3 : popen_result (env_ex (Ok 1)) = Ok tt) by reflexivity.
  split; [exact H1|]. split; [exact H2|]. split; [exact H3|].
  exact (stop_monitoring_count (env_ex (Ok 1)) "job" "in.fa" "mafft" None MAFFT [] H1 H2 H3).
Defined.

(* ================================================================== *)
(** * Further properties of the statistics engine *)

(** ** The missing-data masks *)

(** Length of the run of ["-"] that starts a sequence. *)
Fixpoint leading_gaps (s : list ascii) : nat :=
  match s with
  | [] => 0
  | c :: s' => if Ascii.eqb c gap then S (leading_gaps s') else 0
  end.

(** Length of the run of ["-"] that ends a sequence. *)
Definition trailing_gaps (s : list ascii) : nat := leading_gaps (rev s).

Lemma leading_gaps_le s : (leading_gaps s <= length s)%nat.
Proof.
  induction s as [|c s IH]; simpl; [lia|]. destruct (Ascii.eqb c gap); lia.
Qed.

Lemma leading_gaps_gap s i : (i < leading_gaps s)%nat -> nth i s gap = gap.
Proof.
  revert i; induction s as [|c s IH]; intros i Hi; simpl in *; [lia|].
  destruct (Ascii.eqb c gap) eqn:E; [|lia].
  destruct i; [apply Ascii.eqb_eq; exact E|]. apply IH. lia.
Qed.

Lemma leading_gaps_stop s :
  (leading_gaps s < length s)%nat -> Ascii.eqb (nth (leading_gaps s) s gap) gap = false.
Proof.
  induction s as [|c s IH]; intros H; simpl in *; [lia|].
  destruct (Ascii.eqb c gap) eqn:E; [|exact E].
  apply IH. lia.
Qed.

Lemma trailing_gaps_gap s i :
  (length s - trailing_gaps s <= i < length s)%nat -> nth i s gap = gap.
Proof.
  intros Hi. unfold trailing_gaps in *.
  pose proof (leading_gaps_gap (rev s) (length s - S i)) as G.
  rewrite rev_nth in G by lia.
  replace (length s - S (length s - S i))%nat with i in G by lia.
  apply G. lia.
Qed.

Lemma trailing_gaps_stop s :
  (trailing_gaps s < length s)%nat ->
  Ascii.eqb (nth (length s - trailing_gaps s - 1) s gap) gap = false.
Proof.
  intros H. unfold trailing_gaps in *.
  pose proof (leading_gaps_stop (rev s)) as G. rewrite length_rev in G.
  rewrite rev_nth in G by lia.
  replace (length s - leading_gaps (rev s) - 1)%nat
    with (length s - S (leading_gaps (rev s)))%nat by lia.
  apply G. exact H.
Qed.

Lemma repeat_snoc (x : ascii) n : repeat x n ++ [x] = repeat x (S n).
Proof. induction n as [|n IH]; simpl; [reflexivity|]. rewrite IH. reflexivity. Qed.

Lemma front_loop_shape s k :
  (k <= length s)%nat ->
  fs_mask (front_loop s k front_init) =
    repeat "*"%char (Nat.min k (leading_gaps s)) ++ repeat "|"%char (k - leading_gaps s) /\
  fs_cont (front_loop s k front_init) = (leading_gaps s <? k)%nat /\
  fs_miss (front_loop s k front_init) = Nat.min k (leading_gaps s).
Proof.
  set (lg := leading_gaps s).
  induction k as [|k IH]; intros Hk; [cbn; auto|].
  destruct IH as (M & C & Ms); [lia|].
  cbn -[repeat Nat.min Nat.sub Nat.ltb]. set (st := front_loop s k front_init) in *. unfold front_step.
  rewrite C, Ms.
  destruct (lt_eq_lt_dec k lg) as [[Hlt|Heq]|Hgt].
  - rewrite (leading_gaps_gap s k Hlt). rewrite Ascii.eqb_refl.
    replace (lg <? k)%nat with false by (symmetry; apply Nat.ltb_ge; lia).
    replace (Nat.min k lg) with k in * by lia.
    destruct (k =? 0)%nat eqn:Ek; cbn -[repeat Nat.min Nat.sub Nat.ltb].
    + rewrite M. replace (Nat.min (S k) lg) with (S k) by lia.
      replace (k - lg)%nat with 0%nat by lia. replace (S k - lg)%nat with 0%nat by lia.
      cbn -[repeat Nat.min Nat.sub Nat.ltb]. rewrite !app_nil_r, repeat_snoc. repeat split.
      symmetry; apply Nat.ltb_ge; lia.
    + replace (negb (k =? 0)%nat) with true by (rewrite Ek; reflexivity).
      replace (k =? 0)%nat with false by (symmetry; exact Ek). cbn -[repeat Nat.min Nat.sub Nat.ltb].
      replace (negb (k =? 0)%nat) with true by (rewrite Ek; reflexivity). cbn -[repeat Nat.min Nat.sub Nat.ltb].
      rewrite M. replace (Nat.min (S k) lg) with (S k) by lia.
      replace (k - lg)%nat with 0%nat by lia. replace (S k - lg)%nat with 0%nat by lia.
      cbn -[repeat Nat.min Nat.sub Nat.ltb]. rewrite !app_nil_r, repeat_snoc. repeat split.
      symmetry; apply Nat.ltb_ge; lia.
  - subst k. pose proof (leading_gaps_stop s) as St. fold lg in St.
    rewrite (St ltac:(lia)).
    rewrite Nat.ltb_irrefl. cbn -[repeat Nat.min Nat.sub Nat.ltb].
    replace (Nat.min (S lg) lg) with lg by lia. replace (Nat.min lg lg) with lg by lia.
    replace (S lg - lg)%nat with 1%nat by lia.
    destruct (lg =? 0)%nat; cbn -[repeat Nat.min Nat.sub Nat.ltb];
      rewrite M, Nat.min_id, Nat.sub_diag; cbn [repeat]; rewrite ?app_nil_r;
      repeat split; try reflexivity; symmetry; apply Nat.ltb_lt; lia.
  - replace (lg <? k)%nat with true by (symmetry; apply Nat.ltb_lt; lia).
    replace (lg <? S k)%nat with true by (symmetry; apply Nat.ltb_lt; lia). cbn -[repeat Nat.min Nat.sub Nat.ltb].
    replace (Nat.min (S k) lg) with lg by lia. replace (Nat.min k lg) with lg by lia.
    replace (S k - lg)%nat with (S (k - lg)) by lia.
    rewrite M, <- app_assoc, repeat_snoc.
    replace (Nat.min k lg) with lg by lia. auto.
Qed.

Definition end_inv (s : list ascii) (j : nat) (st : end_state) : Prop :=
  let n := length s in let tg := trailing_gaps s in
  es_mask st = repeat "|"%char (n - tg - j) ++ repeat "*"%char (Nat.min tg (n - j)) /\
  es_cont st = (j <? n - tg)%nat /\
  es_miss st = Nat.min tg (n - j).

Lemma end_step_inv s k st :
  (k < length s)%nat -> end_inv s (S k) st -> end_inv s k (end_step s k st).
Proof.
  unfold end_inv. set (n := length s). set (tg := trailing_gaps s).
  intros Hk (M & C & Ms). unfold end_step. fold n. rewrite C, Ms.
  assert (Htg : (tg <= n)%nat) by (unfold tg, n, trailing_gaps; rewrite <- (length_rev s); apply leading_gaps_le).
  destruct (Nat.le_gt_cases (n - tg) k) as [Hin|Hout].
  - (* inside the trailing run *)
    rewrite (trailing_gaps_gap s k ltac:(fold n tg; lia)), Ascii.eqb_refl.
    replace (S k <? n - tg)%nat with false by (symmetry; apply Nat.ltb_ge; lia).
    replace (k <? n - tg)%nat with false by (symmetry; apply Nat.ltb_ge; lia).
    replace (Nat.min tg (n - k)) with (S (Nat.min tg (n - S k))) by lia.
    replace (n - tg - k)%nat with 0%nat by lia.
    replace (n - tg - S k)%nat with 0%nat in M by lia.
    destruct (k =? n - 1)%nat eqn:Ek; cbn -[repeat Nat.min Nat.sub Nat.ltb].
    + rewrite M. auto.
    + replace (Nat.min tg (n - S k) =? 0)%nat with false
        by (symmetry; apply Nat.eqb_neq; apply Nat.eqb_neq in Ek; lia).
      cbn -[repeat Nat.min Nat.sub Nat.ltb]. rewrite M. auto.
  - destruct (Nat.eq_dec k (n - tg - 1)%nat) as [Heq|Hlt].
    + (* the last real base *)
      pose proof (trailing_gaps_stop s) as St. fold n tg in St. rewrite <- Heq in St.
      rewrite (St ltac:(lia)).
      replace (S k <? n - tg)%nat with false by (symmetry; apply Nat.ltb_ge; lia).
      replace (k <? n - tg)%nat with true by (symmetry; apply Nat.ltb_lt; lia).
      replace (Nat.min tg (n - S k)) with tg in * by lia.
      replace (Nat.min tg (n - k)) with tg by lia.
      replace (n - tg - S k)%nat with 0%nat in M by lia.
      replace (n - tg - k)%nat with 1%nat by lia.
      destruct (k =? n - 1)%nat; cbn -[repeat Nat.min Nat.sub Nat.ltb]; rewrite M; auto.
    + (* before the last real base *)
      replace (S k <? n - tg)%nat with true by (symmetry; apply Nat.ltb_lt; lia).
      replace (k <? n - tg)%nat with true by (symmetry; apply Nat.ltb_lt; lia).
      replace (Nat.min tg (n - S k)) with tg in * by lia.
      replace (Nat.min tg (n - k)) with tg by lia.
      replace (n - tg - k)%nat with (S (n - tg - S k)) by lia.
      cbn -[repeat Nat.min Nat.sub Nat.ltb]. rewrite M. auto.
Qed.

Lemma end_loop_inv s k st :
  (k <= length s)%nat -> end_inv s k st -> end_inv s 0 (end_loop s k st).
Proof.
  revert st; induction k as [|k IH]; intros st Hk H; [exact H|].
  simpl. apply IH; [lia|]. apply end_step_inv; [lia | exact H].
Qed.

(** The front mask of a sequence marks its leading run of ["-"] with ["*"]
    and every other position with ["|"]; the end mask marks its trailing run
    of ["-"] with ["*"] and every other position with ["|"]; [miss_front] and
    [miss_end] are the lengths of these runs. *)
Theorem miss_masks_shape (s : list ascii) :
  fs_mask (front_pass s) =
    repeat "*"%char (leading_gaps s) ++ repeat "|"%char (length s - leading_gaps s) /\
  fs_miss (front_pass s) = leading_gaps s /\
  es_mask (end_pass s) =
    repeat "|"%char (length s - trailing_gaps s) ++ repeat "*"%char (trailing_gaps s) /\
  es_miss (end_pass s) = trailing_gaps s.
Proof.
  pose proof (leading_gaps_le s) as Hl.
  assert (Ht : (trailing_gaps s <= length s)%nat)
    by (unfold trailing_gaps; rewrite <- (length_rev s); apply leading_gaps_le).
  destruct (front_loop_shape s (length s) (le_n _)) as (M & _ & Ms).
  assert (I : end_inv s (length s) end_init).
  { unfold end_inv. rewrite Nat.sub_diag. cbn -[Nat.min Nat.sub Nat.ltb].
    replace (length s - trailing_gaps s - length s)%nat with 0%nat by lia.
    rewrite Nat.min_0_r. repeat split. symmetry. apply Nat.ltb_ge. lia. }
  destruct (end_loop_inv s (length s) end_init (le_n _) I) as (E & _ & Es).
  unfold front_pass, end_pass. rewrite M, Ms, E, Es, !Nat.sub_0_r.
  replace (Nat.min (length s) (leading_gaps s)) with (leading_gaps s) by lia.
  replace (Nat.min (trailing_gaps s) (length s)) with (trailing_gaps s) by lia.
  auto.
Qed.

(** Cell [i] of row [s] exists and lies in exactly one of the leading and
    the trailing run of ["-"]: the cells [mdata] records as ["*"]. *)
Definition miss_cell (i : nat) (s : list ascii) : bool :=
  (i <? length s)%nat &&
  xorb (i <? leading_gaps s)%nat (length s - trailing_gaps s <=? i)%nat.

Lemma mask_nth (x y : ascii) a b i :
  (i < a + b)%nat -> nth_error (repeat x a ++ repeat y b) i = Some (if (i <? a)%nat then x else y).
Proof.
  intros H. destruct (Nat.ltb_spec i a).
  - rewrite nth_error_app1 by (rewrite repeat_length; lia).
    apply nth_error_repeat. exact H0.
  - rewrite nth_error_app2 by (rewrite repeat_length; lia).
    rewrite repeat_length. apply nth_error_repeat. lia.
Qed.

Lemma gather_mdata fl i k :
  (k <= length fl)%nat ->
  count_char "*" (cd_mdata (gather_loop fl (map (fun s => fs_mask (front_pass s)) fl)
                                            (map (fun s => es_mask (end_pass s)) fl) i k)) =
  length (List.filter (miss_cell i) (firstn k fl)).
Proof.
  induction k as [|k IH]; intros Hk; [reflexivity|].
  destruct (nth_error fl k) as [s|] eqn:Es; [| apply nth_error_None in Es; lia].
  rewrite (firstn_snoc _ _ _ Es), List.filter_app, length_app.
  cbn -[elem_char count_char]. unfold gather_step, lookup2.
  rewrite Es, !nth_error_map, Es. cbn -[elem_char count_char].
  destruct (miss_masks_shape s) as (MF & _ & ME & _).
  pose proof (leading_gaps_le s). 
  assert (Ht : (trailing_gaps s <= length s)%nat)
    by (unfold trailing_gaps; rewrite <- (length_rev s); apply leading_gaps_le).
  rewrite <- IH by lia.
  destruct (nth_error s i) as [c|] eqn:Ec.
  - assert (Hi : (i < length s)%nat) by (apply nth_error_Some; congruence).
    rewrite MF, ME, !mask_nth by lia.
    unfold miss_cell. replace (i <? length s)%nat with true by (symmetry; apply Nat.ltb_lt; exact Hi).
    replace (i <? length s - trailing_gaps s)%nat
      with (negb (length s - trailing_gaps s <=? i))%nat
      by (destruct (Nat.ltb_spec i (length s - trailing_gaps s));
          destruct (Nat.leb_spec (length s - trailing_gaps s) i); simpl; lia || reflexivity).
    assert (S1 : Ascii.eqb "*" "*" = true) by reflexivity.
    assert (S2 : Ascii.eqb "*" "|" = false) by reflexivity.
    destruct (i <? leading_gaps s)%nat, (length s - trailing_gaps s <=? i)%nat;
      cbn -[count_char]; rewrite ?count_char_app, ?count_char_single, ?S1, ?S2; lia.
  - apply nth_error_None in Ec. unfold miss_cell.
    replace (i <? length s)%nat with false by (symmetry; apply Nat.ltb_ge; exact Ec).
    simpl. lia.
Qed.

Lemma column_profile_miss cd p :
  column_profile cd = Ok p ->
  p_miss p = count_char "*" (cd_mdata cd) /\
  p_real_gap p = Z.of_nat (count_char gap (cd_data cd) + count_char "." (cd_data cd))
                 - Z.of_nat (p_miss p).
Proof.
  unfold column_profile.
  destruct (most_common1 (Counter (cd_not_gap cd))) as [[mx nmx]|]; cbv zeta;
  match goal with |- context [if ?b then _ else _] => destruct b end;
  [discriminate| |discriminate|];
  intros H; inv_bind H; inversion H; subst; simpl; auto.
Qed.

Lemma filter_length_mono {A} (f g : A -> bool) l :
  (forall x, f x = true -> g x = true) ->
  (length (List.filter f l) <= length (List.filter g l))%nat.
Proof.
  intros Hfg. induction l as [|x l IH]; simpl; [lia|].
  destruct (f x) eqn:Fx; [rewrite (Hfg x Fx); simpl; lia|].
  destruct (g x); simpl; lia.
Qed.

Lemma count_char_column c fl i :
  count_char c (column fl i) = length (List.filter (fun s => Ascii.eqb c (nth i s gap)) fl).
Proof.
  unfold count_char, column. induction fl as [|s fl IH]; simpl; [reflexivity|].
  destruct (Ascii.eqb c (nth i s gap)); simpl; rewrite IH; reflexivity.
Qed.

Lemma miss_cell_gap i s : miss_cell i s = true -> nth i s gap = gap.
Proof.
  unfold miss_cell. intros H. apply andb_prop in H as [Hi H].
  apply Nat.ltb_lt in Hi.
  destruct (Nat.ltb_spec i (leading_gaps s)).
  - apply leading_gaps_gap. exact H0.
  - destruct (Nat.leb_spec (length s - trailing_gaps s) i); [|discriminate].
    apply trailing_gaps_gap. lia.
Qed.

(** The missing count of column [i] is the number of rows whose cell [i]
    exists and lies in exactly one of the row's leading and trailing runs of
    ["-"]; the internal-gap count [real_gap_count] (gap symbols minus
    missing cells) is therefore never negative.  Padding cells of rows shorter
    than the column index count as internal gaps. *)
Theorem column_missing_count (recs : list (list ascii)) (ra : rec_acc) (L : nat)
    (ps : list profile) (i : nat) (p : profile) :
  record_loop recs rec_acc_init = Ok ra ->
  column_loop (ra_fasta ra) (ra_front ra) (ra_end ra) L = Ok ps ->
  nth_error ps i = Some p ->
  p_miss p = length (List.filter (miss_cell i) (map prep recs)) /\
  p_real_gap p =
    Z.of_nat (count_char gap (column (map prep recs) i)
              + count_char "." (column (map prep recs) i)) - Z.of_nat (p_miss p) /\
  0 <= p_real_gap p.
Proof.
  intros Hr Hc Hp.
  destruct (column_loop_profile _ _ _ _ _ _ Hr Hc Hp) as (_ & Hprof & Hdata & _).
  destruct (column_profile_miss _ _ Hprof) as [M R].
  apply record_loop_fields in Hr as (E1 & E2 & E3). simpl in E1, E2, E3.
  rewrite Hdata, E1 in R.
  assert (Hm : p_miss p = length (List.filter (miss_cell i) (map prep recs))).
  { rewrite M, E1, E2, E3.
    replace (map (fun r => fs_mask (front_pass (prep r))) recs)
      with (map (fun s => fs_mask (front_pass s)) (map prep recs)) by (rewrite map_map; reflexivity).
    replace (map (fun r => es_mask (end_pass (prep r))) recs)
      with (map (fun s => es_mask (end_pass s)) (map prep recs)) by (rewrite map_map; reflexivity).
    unfold gather. rewrite gather_mdata by lia. rewrite firstn_all. reflexivity. }
  split; [exact Hm|]. split; [exact R|].
  rewrite R, Hm.
  assert (length (List.filter (miss_cell i) (map prep recs)) <=
          count_char gap (column (map prep recs) i))%nat.
  { rewrite count_char_column. apply filter_length_mono.
    intros s Hs. rewrite (miss_cell_gap i s Hs). apply Ascii.eqb_refl. }
  lia.
Qed.

Definition recs_miss : list (list ascii) := fasta ["--ACG"; "A-AC-"; "GTAC-"]%string.
Definition ra_miss : rec_acc := get_ok rec_acc_init (record_loop recs_miss rec_acc_init).
Definition ps_miss : list profile :=
  get_ok [] (column_loop (ra_fasta ra_miss) (ra_front ra_miss) (ra_end ra_miss) 5).

(** Column 1 of [recs_miss] holds a leading-run gap (row 1), an internal
    gap (row 2) and a base: one missing cell and one real gap. *)
Lemma column_missing_count_witness :
  record_loop recs_miss rec_acc_init = Ok ra_miss /\
  column_loop (ra_fasta ra_miss) (ra_front ra_miss) (ra_end ra_miss) 5 = Ok ps_miss /\
  nth_error ps_miss 1 = Some (nth 1 ps_miss empty_profile) /\
  p_miss (nth 1 ps_miss empty_profile) = 1%nat /\
  p_real_gap (nth 1 ps_miss empty_profile) = 1 /\
  (let p := nth 1 ps_miss empty_profile in
   p_miss p = length (List.filter (miss_cell 1) (map prep recs_miss)) /\
   p_real_gap p =
     Z.of_nat (count_char gap (column (map prep recs_miss) 1)
               + count_char "." (column (map prep recs_miss) 1)) - Z.of_nat (p_miss p) /\
   0 <= p_real_gap p).
Proof.
  assert (H1 : record_loop recs_miss rec_acc_init = Ok ra_miss) by (vm_compute; reflexivity).
  assert (H2 : column_loop (ra_fasta ra_miss) (ra_front ra_miss) (ra_end ra_miss) 5 = Ok ps_miss)
    by (vm_compute; reflexivity).
  assert (H3 : nth_error ps_miss 1 = Some (nth 1 ps_miss empty_profile))
    by (vm_compute; reflexivity).
  split; [exact H1|]. split; [exact H2|]. split; [exact H3|].
  split; [vm_compute; reflexivity|]. split; [vm_compute; reflexivity|].
  exact (column_missing_count recs_miss ra_miss 5 ps_miss 1 _ H1 H2 H3).
Defined.

(** ** The symbols a column accepts *)

(** Symbols counted in [total_count] and removed from the IUPAC key:
    the canonical bases and [DEG_list]. *)
Definition in_alphabet (c : ascii) : bool :=
  elem_char c Nucleotide_common || elem_char c DEG_list.

Definition code_lt (a b : ascii) : Prop := (nat_of_ascii a < nat_of_ascii b)%nat.

Lemma elem_char_In c l : elem_char c l = true <-> In c l.
Proof.
  induction l as [|x l IH]; simpl; [split; [discriminate | tauto]|].
  rewrite orb_true_iff, IH, Ascii.eqb_eq. intuition congruence.
Qed.

Lemma insert_sorted_In x c l : In x (insert_sorted c l) <-> x = c \/ In x l.
Proof.
  induction l as [|y l IH]; simpl; [intuition congruence|].
  destruct (Ascii.eqb y c) eqn:E.
  - apply Ascii.eqb_eq in E. subst. simpl. intuition congruence.
  - destruct (nat_of_ascii c <? nat_of_ascii y)%nat; simpl; rewrite ?IH; intuition congruence.
Qed.

Lemma insert_sorted_sorted c l :
  StronglySorted code_lt l -> StronglySorted code_lt (insert_sorted c l).
Proof.
  induction l as [|y l IH]; intros H; simpl.
  - repeat constructor.
  - inversion H as [|? ? Hl Hy]; subst.
    destruct (Ascii.eqb y c) eqn:E; [exact H|].
    apply Ascii.eqb_neq in E.
    destruct (Nat.ltb_spec (nat_of_ascii c) (nat_of_ascii y)).
    + constructor; [exact H|]. constructor; [exact H0|].
      rewrite List.Forall_forall in Hy |- *. intros z Hz. specialize (Hy z Hz).
      unfold code_lt in *. lia.
    + constructor; [apply IH; exact Hl|].
      rewrite List.Forall_forall in Hy |- *. intros z Hz.
      apply insert_sorted_In in Hz as [->|Hz]; [|exact (Hy z Hz)].
      unfold code_lt. assert (nat_of_ascii y <> nat_of_ascii c).
      { intros Heq. apply E. rewrite <- (ascii_nat_embedding y), <- (ascii_nat_embedding c).
        rewrite Heq. reflexivity. }
      lia.
Qed.

Lemma sorted_set_spec l :
  StronglySorted code_lt (sorted_set l) /\ (forall x, In x (sorted_set l) <-> In x l).
Proof.
  unfold sorted_set.
  assert (G : forall acc, StronglySorted code_lt acc ->
            StronglySorted code_lt (fold_left (fun acc c => insert_sorted c acc) l acc) /\
            (forall x, In x (fold_left (fun acc c => insert_sorted c acc) l acc) <->
                       In x acc \/ In x l)).
  { induction l as [|c l IH]; intros acc H; simpl; [split; [exact H | tauto]|].
    destruct (IH (insert_sorted c acc) (insert_sorted_sorted c acc H)) as [S1 S2].
    split; [exact S1|]. intros x. rewrite S2, insert_sorted_In. intuition congruence. }
  destruct (G [] (SSorted_nil _)) as [S1 S2]. split; [exact S1|].
  intros x. rewrite S2. simpl. tauto.
Qed.

Lemma sorted_filter (f : ascii -> bool) l :
  StronglySorted code_lt l -> StronglySorted code_lt (List.filter f l).
Proof.
  induction l as [|x l IH]; intros H; simpl; [constructor|].
  inversion H as [|? ? Hl Hx]; subst.
  destruct (f x); [|exact (IH Hl)].
  constructor; [exact (IH Hl)|].
  rewrite List.Forall_forall in Hx |- *. intros z Hz.
  apply filter_In in Hz as [Hz _]. exact (Hx z Hz).
Qed.

Lemma sorted_unique l1 l2 :
  StronglySorted code_lt l1 -> StronglySorted code_lt l2 ->
  (forall x, In x l1 <-> In x l2) -> l1 = l2.
Proof.
  revert l2; induction l1 as [|x l1 IH]; intros l2 S1 S2 H.
  - destruct l2 as [|y l2]; [reflexivity|]. exfalso. apply (proj2 (H y)). left; reflexivity.
  - destruct l2 as [|y l2]; [exfalso; apply (proj1 (H x)); left; reflexivity|].
    inversion S1 as [|? ? S1' F1]; inversion S2 as [|? ? S2' F2]; subst.
    rewrite List.Forall_forall in F1, F2.
    assert (Exy : x = y).
    { destruct (proj1 (H x) (or_introl eq_refl)) as [|Hx]; [congruence|].
      destruct (proj2 (H y) (or_introl eq_refl)) as [|Hy]; [congruence|].
      specialize (F2 x Hx). specialize (F1 y Hy). unfold code_lt in *. lia. }
    subst y. f_equal. apply IH; [exact S1' | exact S2'|].
    intros z. split; intros Hz.
    + destruct (proj1 (H z) (or_intror Hz)) as [<-|Hz']; [|exact Hz'].
      specialize (F1 x Hz). unfold code_lt in F1. lia.
    + destruct (proj2 (H z) (or_intror Hz)) as [<-|Hz']; [|exact Hz'].
      specialize (F2 x Hz). unfold code_lt in F2. lia.
Qed.

Lemma alphabet_split c :
  in_alphabet c = elem_char c ["A"; "C"; "G"; "T"]%char || elem_char c DEG_list /\
  (elem_char c ["A"; "C"; "G"; "T"]%char = true -> elem_char c DEG_list = false) /\
  elem_char c (["A"; "T"; "G"; "C"] ++ ambiguity_letters ++ [gap; "."])%char = in_alphabet c /\
  elem_char c Nucleotide_common = elem_char c ["A"; "C"; "G"; "T"]%char.
Proof. destruct c as [[] [] [] [] [] [] [] []]; vm_compute; auto; discriminate. Qed.

Lemma filter_length_or {A} (f g : A -> bool) l :
  (forall c, In c l -> f c = true -> g c = false) ->
  length (List.filter (fun c => f c || g c) l) =
  (length (List.filter f l) + length (List.filter g l))%nat.
Proof.
  induction l as [|c l IH]; intros Hd; [reflexivity|].
  cbn [List.filter]. specialize (Hd c (or_introl eq_refl)) as Hc.
  assert (IH' := IH (fun c' H => Hd c' (or_intror H))).
  destruct (f c), (g c); cbn [orb length]; try lia; discriminate (Hc eq_refl).
Qed.

Lemma sum_counts D data :
  List.NoDup D ->
  fold_right (fun x acc => count_char x data + acc)%nat 0%nat D =
  length (List.filter (fun c => elem_char c D) data).
Proof.
  induction D as [|x D IH]; intros ND.
  - simpl. induction data; simpl; auto.
  - inversion ND as [|? ? Hx ND']; subst. cbn [fold_right]. rewrite (IH ND').
    unfold count_char.
    rewrite (List.filter_ext (fun c => elem_char c (x :: D))
               (fun c => Ascii.eqb x c || elem_char c D))
      by (intros c; unfold elem_char; cbn [existsb]; rewrite Ascii.eqb_sym; reflexivity).
    rewrite filter_length_or; [reflexivity|].
    intros c _ E. apply Ascii.eqb_eq in E; subst.
    apply not_true_iff_false; rewrite elem_char_In; exact Hx.
Qed.

Lemma total_count_alphabet data :
  (count_char "A" data + count_char "T" data + count_char "G" data + count_char "C" data
   + fold_right (fun x acc => count_char x data + acc) 0 ambiguity_letters
   + (count_char gap data + count_char "." data))%nat =
  length (List.filter in_alphabet data).
Proof.
  assert (ND : List.NoDup (["A"; "T"; "G"; "C"] ++ ambiguity_letters ++ [gap; "."])%char).
  { apply NoDup_ListNoDup. apply (bool_decide_unpack _). vm_compute. reflexivity. }
  rewrite <- (List.filter_ext (fun c => elem_char c (["A"; "T"; "G"; "C"] ++ ambiguity_letters ++ [gap; "."])%char))
    by (intros c; apply (alphabet_split c)).
  rewrite <- (sum_counts _ _ ND). simpl. lia.
Qed.

Lemma filter_all_true {A} (f : A -> bool) l :
  forallb f l = true -> List.filter f l = l.
Proof.
  induction l as [|x l IH]; simpl; [reflexivity|].
  intros H. apply andb_prop in H as [Hx Hl]. rewrite Hx, (IH Hl). reflexivity.
Qed.

Lemma canonical_sorted : StronglySorted code_lt ["A"; "C"; "G"; "T"]%char.
Proof.
  repeat apply SSorted_cons; try apply SSorted_nil;
  apply List.Forall_forall; simpl; intros y Hy;
  repeat destruct Hy as [<-|Hy]; try contradiction; unfold code_lt; apply Nat.ltb_lt; reflexivity.
Qed.

(** Line 263: the characters of the column minus the ambiguity letters,
    as a sorted set, are the canonical bases present, in the order A, C, G, T. *)
Lemma temp_eq data :
  forallb in_alphabet data = true ->
  List.filter (fun x => negb (elem_char x DEG_list)) (sorted_set data) =
  List.filter (fun b => elem_char b data) ["A"; "C"; "G"; "T"]%char.
Proof.
  intros Hall. destruct (sorted_set_spec data) as [SS Hin].
  apply sorted_unique.
  - apply sorted_filter, SS.
  - apply sorted_filter, canonical_sorted.
  - intros x. rewrite !List.filter_In, Hin. split; intros [H1 H2].
    + destruct (alphabet_split x) as [S1 _].
      rewrite forallb_forall in Hall. rewrite (Hall x H1) in S1.
      destruct (elem_char x DEG_list); [discriminate|].
      rewrite orb_false_r in S1. split; [apply elem_char_In; auto|].
      apply elem_char_In; exact H1.
    + split; [apply elem_char_In; exact H2|].
      destruct (alphabet_split x) as [_ [S2 _]].
      rewrite S2; [reflexivity|]. apply elem_char_In; exact H1.
Qed.

Lemma iupac_lookup_ok (f : ascii -> bool) :
  exists v, dict_lookup (string_of_list_ascii (List.filter f ["A"; "C"; "G"; "T"]%char))
                        Nucleotide_IUPAC_code = Ok v.
Proof.
  cbn [List.filter].
  destruct (f "A"%char), (f "C"%char), (f "G"%char), (f "T"%char); eexists; reflexivity.
Qed.

Lemma iupac_lookup_keys k v :
  dict_lookup k Nucleotide_IUPAC_code = Ok v ->
  forall x, In x (list_ascii_of_string k) -> elem_char x Nucleotide_common = true.
Proof.
  unfold dict_lookup. destruct (find _ _) as [[k' v']|] eqn:F; [|discriminate].
  intros _. apply find_some in F as [Hin Heq].
  apply String.eqb_eq in Heq; simpl in Heq; subst k'.
  assert (All : forallb (fun kv => forallb (fun x => elem_char x Nucleotide_common)
                                           (list_ascii_of_string (fst kv)))
                        Nucleotide_IUPAC_code = true) by (vm_compute; reflexivity).
  rewrite forallb_forall in All. specialize (All _ Hin).
  rewrite forallb_forall in All. exact All.
Qed.

Lemma column_profile_parts cd p :
  column_profile cd = Ok p ->
  p_total p = (count_char "A" (cd_data cd) + count_char "T" (cd_data cd)
               + count_char "G" (cd_data cd) + count_char "C" (cd_data cd)
               + fold_right (fun x acc => count_char x (cd_data cd) + acc) 0 ambiguity_letters
               + (count_char gap (cd_data cd) + count_char "." (cd_data cd)))%nat /\
  dict_lookup (string_of_list_ascii
                 (List.filter (fun x => negb (elem_char x DEG_list)) (sorted_set (cd_data cd))))
              Nucleotide_IUPAC_code = Ok (p_iupac p).
Proof.
  unfold column_profile.
  destruct (most_common1 (Counter (cd_not_gap cd))) as [[mx nmx]|]; cbv zeta;
  match goal with |- context [if ?b then _ else _] => destruct b end;
  [discriminate| |discriminate|];
  intros H; inv_bind H; inversion H; subst; simpl; auto.
Qed.

Lemma column_profile_in_alphabet cd p :
  column_profile cd = Ok p -> forallb in_alphabet (cd_data cd) = true.
Proof.
  intros Hp. apply forallb_forall. intros c Hc.
  destruct (in_alphabet c) eqn:Ea; [reflexivity|exfalso].
  destruct (column_profile_parts _ _ Hp) as [_ Hl].
  pose proof (iupac_lookup_keys _ _ Hl c) as K.
  rewrite list_ascii_of_string_of_list_ascii in K.
  destruct (alphabet_split c) as [S1 [_ [_ S4]]].
  rewrite Ea in S1. symmetry in S1. apply orb_false_iff in S1 as [SA SD].
  assert (Hin : In c (List.filter (fun x => negb (elem_char x DEG_list))
                                  (sorted_set (cd_data cd)))).
  { apply List.filter_In. split; [apply (proj2 (sorted_set_spec _)); exact Hc|].
    rewrite SD. reflexivity. }
  specialize (K Hin). rewrite S4, SA in K. discriminate.
Qed.

Lemma blue_row_len bp s k st st' :
  blue_row bp s k st = Ok st' -> (k <= length bp)%nat.
Proof.
  induction k as [|k IH]; simpl; intros H; [lia|].
  inv_bind H. apply blue_cell_spec in H. lia.
Qed.

Lemma blue_loop_len bp fl st st' :
  blue_loop bp fl st = Ok st' -> forall s, In s fl -> (length s <= length bp)%nat.
Proof.
  revert st; induction fl as [|s0 fl IH]; intros st H s Hs; simpl in H; [destruct Hs|].
  inv_bind H. destruct Hs as [<-|Hs]; [exact (blue_row_len _ _ _ _ _ Hr)|].
  exact (IH _ H s Hs).
Qed.

Lemma dict_lookup_exc k d e : dict_lookup k d = Exc e -> e = KeyError.
Proof. unfold dict_lookup. destruct (find _ _) as [[]|]; congruence. Qed.

Lemma forallb_false_ex {A} (f : A -> bool) l :
  forallb f l = false -> exists x, In x l /\ f x = false.
Proof.
  induction l as [|x l IH]; simpl; [discriminate|].
  intros H. destruct (f x) eqn:Fx; simpl in H.
  - destruct (IH H) as [y [Hy Fy]]. eauto.
  - eauto.
Qed.

Lemma existsb_filter_nil {A} (f : A -> bool) l :
  existsb f l = false -> List.filter f l = [].
Proof.
  induction l as [|x l IH]; simpl; [reflexivity|].
  intros H. apply orb_false_iff in H as [Hx Hl]. rewrite Hx. exact (IH Hl).
Qed.

(** Lines 258-273: a column with no symbol of the alphabet has total 0 and
    raises [ZeroDivisionError] at line 259; a column mixing symbols of the
    alphabet with others raises [KeyError] at the IUPAC lookup. *)
Lemma column_profile_errors cd :
  (existsb in_alphabet (cd_data cd) = false -> column_profile cd = Exc ZeroDivisionError) /\
  (existsb in_alphabet (cd_data cd) = true -> forallb in_alphabet (cd_data cd) = false ->
   column_profile cd = Exc KeyError).
Proof.
  split.
  - intros Hn. unfold column_profile.
    destruct (most_common1 (Counter (cd_not_gap cd))) as [[mx nmx]|]; cbv zeta;
    rewrite total_count_alphabet, (existsb_filter_nil _ _ Hn); reflexivity.
  - intros Hs Hf.
    apply existsb_exists in Hs as [c0 [Hc0 Ec0]].
    assert (Hlen : (length (List.filter in_alphabet (cd_data cd)) =? 0)%nat = false).
    { apply Nat.eqb_neq. intros E. apply length_zero_iff_nil in E.
      assert (In c0 (List.filter in_alphabet (cd_data cd))) by (apply List.filter_In; auto).
      rewrite E in H. destruct H. }
    destruct (forallb_false_ex _ _ Hf) as [c [Hc Ec]].
    set (temp := List.filter (fun x => negb (elem_char x DEG_list)) (sorted_set (cd_data cd))).
    assert (Hd : dict_lookup (string_of_list_ascii temp) Nucleotide_IUPAC_code = Exc KeyError).
    { destruct (dict_lookup (string_of_list_ascii temp) Nucleotide_IUPAC_code) as [v|e] eqn:Hl.
      - exfalso. pose proof (iupac_lookup_keys _ _ Hl c) as K.
        rewrite list_ascii_of_string_of_list_ascii in K.
        destruct (alphabet_split c) as [S1 [_ [_ S4]]].
        rewrite Ec in S1. symmetry in S1. apply orb_false_iff in S1 as [SA SD].
        assert (Hin : In c temp).
        { apply List.filter_In. split; [apply (proj2 (sorted_set_spec _)); exact Hc|].
          rewrite SD. reflexivity. }
        specialize (K Hin). rewrite S4, SA in K. discriminate.
      - rewrite (dict_lookup_exc _ _ _ Hl). reflexivity. }
    unfold column_profile. fold temp.
    destruct (most_common1 (Counter (cd_not_gap cd))) as [[mx nmx]|]; cbv zeta;
    rewrite total_count_alphabet, Hlen, Hd; reflexivity.
Qed.

(** X3 (column loop, lines 216-277): for a non-empty column, the profile
    is computed exactly when every symbol of the column is one of A, T, G, C,
    an IUPAC ambiguity letter, '-' or '.'.  Otherwise the column raises
    [ZeroDivisionError] when none of its symbols is in that alphabet (its
    total is 0) and [KeyError] at the IUPAC lookup when some are.  When it
    is computed, the total is the number of sequences and the IUPAC code is
    the entry for the sorted set of canonical bases present in the column. *)
Theorem column_profile_alphabet cd :
  cd_data cd <> [] ->
  ((exists p, column_profile cd = Ok p) <-> forallb in_alphabet (cd_data cd) = true) /\
  (forall e, column_profile cd = Exc e ->
     if existsb in_alphabet (cd_data cd) then e = KeyError else e = ZeroDivisionError) /\
  (forall p, column_profile cd = Ok p ->
     p_total p = length (cd_data cd) /\
     dict_lookup (string_of_list_ascii
                    (List.filter (fun b => elem_char b (cd_data cd)) ["A"; "C"; "G"; "T"]%char))
                 Nucleotide_IUPAC_code = Ok (p_iupac p)).
Proof.
  intros Hne.
  assert (Hiff : (exists p, column_profile cd = Ok p) <-> forallb in_alphabet (cd_data cd) = true).
  { split.
    - intros [p Hp]. exact (column_profile_in_alphabet _ _ Hp).
    - intros Hall.
      destruct (iupac_lookup_ok (fun b => elem_char b (cd_data cd))) as [v Hv].
      unfold column_profile.
      destruct (most_common1 (Counter (cd_not_gap cd))) as [[mx nmx]|]; cbv zeta;
      rewrite total_count_alphabet, (filter_all_true _ _ Hall), (temp_eq _ Hall), Hv;
      destruct (cd_data cd); (contradiction || (cbn -[float_pct]; eexists; reflexivity)). }
  split; [exact Hiff|]. split.
  { intros e He. destruct (column_profile_errors cd) as [Z1 Z2].
    destruct (existsb in_alphabet (cd_data cd)) eqn:Hs.
    - destruct (forallb in_alphabet (cd_data cd)) eqn:Hf.
      + destruct (proj2 Hiff eq_refl) as [p Hp]. congruence.
      + rewrite (Z2 eq_refl eq_refl) in He. congruence.
    - rewrite (Z1 eq_refl) in He. congruence. }
  intros p Hp.
  assert (Hall : forallb in_alphabet (cd_data cd) = true) by (apply Hiff; eauto).
  destruct (column_profile_parts _ _ Hp) as [Ht Hl].
  rewrite total_count_alphabet, (filter_all_true _ _ Hall) in Ht.
  rewrite (temp_eq _ Hall) in Hl. auto.
Qed.

Definition cd_AAAT : column_data :=
  {| cd_data := ["A"; "A"; "A"; "T"]%char; cd_mdata := [];
     cd_not_gap := ["A"; "A"; "A"; "T"]%char |}.

(** A column of symbols outside the alphabet has total 0; one mixing them
    with bases fails at the IUPAC lookup. *)
Example column_profile_Z :
  column_profile {| cd_data := ["Z"]%char; cd_mdata := []; cd_not_gap := [] |}
  = Exc ZeroDivisionError.
Proof. vm_compute. reflexivity. Qed.

Example column_profile_AZ :
  column_profile {| cd_data := ["A"; "Z"]%char; cd_mdata := []; cd_not_gap := ["A"]%char |}
  = Exc KeyError.
Proof. vm_compute. reflexivity. Qed.

Lemma column_profile_alphabet_witness :
  cd_data cd_AAAT <> [] /\
  (((exists p, column_profile cd_AAAT = Ok p) <->
    forallb in_alphabet (cd_data cd_AAAT) = true) /\
   (forall e, column_profile cd_AAAT = Exc e ->
      if existsb in_alphabet (cd_data cd_AAAT) then e = KeyError else e = ZeroDivisionError) /\
   (forall p, column_profile cd_AAAT = Ok p ->
      p_total p = length (cd_data cd_AAAT) /\
      dict_lookup (string_of_list_ascii
                     (List.filter (fun b => elem_char b (cd_data cd_AAAT))
                                  ["A"; "C"; "G"; "T"]%char))
                  Nucleotide_IUPAC_code = Ok (p_iupac p))).
Proof.
  split; [discriminate|].
  apply column_profile_alphabet. discriminate.
Defined.

(** X4 (lines 88-165, 196-327): when [align_to_statistics] returns
    statistics, no prepared record is longer than the first one (a longer
    record makes the blue-base loop raise), and every symbol of every
    prepared record is A, T, G, C, an IUPAC ambiguity letter, '-' or '.'. *)
Theorem align_rows_in_alphabet recs out :
  align_to_statistics recs = Ok out ->
  forall r, In r recs ->
    (length (prep r) <= length (prep (hd [] recs)))%nat /\
    forallb in_alphabet (prep r) = true.
Proof.
  intros H r Hr.
  destruct (align_to_statistics_ok recs out H)
    as (ra & ps & bs & Hra & _ & Hcl & Hbl & _).
  destruct (record_loop_fields _ _ _ Hra) as [Hfl _]. simpl in Hfl.
  set (L := length (hd [] (ra_fasta ra))) in *.
  assert (HL : L = length (prep (hd [] recs))).
  { unfold L. rewrite Hfl. destruct recs; [destruct Hr|reflexivity]. }
  assert (Hps : length ps = L) by (rewrite (rmap_length _ _ _ Hcl), length_seq; reflexivity).
  assert (Hin : In (prep r) (ra_fasta ra)) by (rewrite Hfl; apply in_map, Hr).
  assert (Hlen : (length (prep r) <= L)%nat).
  { pose proof (blue_loop_len _ _ _ _ Hbl _ Hin) as G. rewrite length_map, Hps in G. exact G. }
  split; [rewrite <- HL; exact Hlen|].
  apply forallb_forall. intros c Hc.
  destruct (In_nth_error _ _ Hc) as [i Hi].
  assert (Hi' : (i < length (prep r))%nat) by (apply nth_error_Some; congruence).
  destruct (nth_error ps i) as [p|] eqn:Ep;
    [|apply nth_error_None in Ep; lia].
  destruct (column_loop_profile _ _ _ _ _ _ Hra Hcl Ep) as (_ & Hp & Hcd & _).
  pose proof (column_profile_in_alphabet _ _ Hp) as A.
  rewrite Hcd, forallb_forall in A. apply A.
  unfold column. rewrite <- (nth_error_nth _ _ gap Hi).
  apply (in_map (fun s => nth i s gap)), Hin.
Qed.

Definition recs_mixed : list (list ascii) := fasta ["ACGT"; "ac-t"; "AGN."]%string.

Lemma align_rows_in_alphabet_witness :
  align_to_statistics recs_mixed = Ok (get_ok no_output (align_to_statistics recs_mixed)) /\
  forall r, In r recs_mixed ->
    (length (prep r) <= length (prep (hd [] recs_mixed)))%nat /\
    forallb in_alphabet (prep r) = true.
Proof.
  assert (E : align_to_statistics recs_mixed =
              Ok (get_ok no_output (align_to_statistics recs_mixed))) by (vm_compute; reflexivity).
  split; [exact E|]. exact (align_rows_in_alphabet _ _ E).
Defined.

(** Cells ["-"] of the rows [rows] lying in a column of [fl] that holds no
    canonical base. *)
Definition baseless_gap_cells (fl rows : list (list ascii)) : nat :=
  fold_right (fun s acc =>
    length (List.filter
              (fun j => Ascii.eqb (nth j s gap) gap && negb (existsb canonical (column fl j)))
              (seq 0 (length s))) + acc)%nat 0%nat rows.

Lemma align_sum_blue recs out :
  align_to_statistics recs = Ok out ->
  sum_of_blue_bases (gap_stats out) = sum_values (blue_base_count out).
Proof.
  intros H. unfold align_to_statistics in H.
  inv_bind H. rename a into ra.
  destruct (ra_gap_seq_count ra =? 0)%nat; cbv zeta in H;
  (inv_bind H; inv_bind H; inv_bind H;
   destruct (bs_nomiss _ =? 0)%nat; [discriminate|];
   inversion H; reflexivity).
Qed.

Lemma canonical_not_gap m : canonical m = true -> Ascii.eqb m gap = false.
Proof. destruct m as [[] [] [] [] [] [] [] []]; vm_compute; auto. Qed.

Lemma cell_balance c m (e : bool) :
  (if e then m = gap else canonical m = true) ->
  (Nat.b2n (Ascii.eqb c m) + Nat.b2n (nongap c && negb (Ascii.eqb c m)) =
   Nat.b2n (nongap c) + Nat.b2n (Ascii.eqb c gap && e))%nat.
Proof.
  unfold nongap. destruct e; intros Hm.
  - subst m. destruct (Ascii.eqb c gap); reflexivity.
  - rewrite andb_false_r. destruct (Ascii.eqb c m) eqn:E; simpl.
    + apply Ascii.eqb_eq in E; subst c. rewrite (canonical_not_gap _ Hm). reflexivity.
    + rewrite andb_true_r. lia.
Qed.

Lemma filter_balance {A} (f1 f2 g1 g2 : A -> bool) l :
  (forall x, In x l ->
     (Nat.b2n (f1 x) + Nat.b2n (f2 x) = Nat.b2n (g1 x) + Nat.b2n (g2 x))%nat) ->
  (length (List.filter f1 l) + length (List.filter f2 l) =
   length (List.filter g1 l) + length (List.filter g2 l))%nat.
Proof.
  induction l as [|x l IH]; intros H; [reflexivity|].
  cbn [List.filter]. specialize (IH (fun y Hy => H y (or_intror Hy))).
  specialize (H x (or_introl eq_refl)).
  destruct (f1 x), (f2 x), (g1 x), (g2 x); cbn [length Nat.b2n] in *; lia.
Qed.

Lemma blue_balance_rows fl majors rows :
  (forall j, (j < length majors)%nat ->
     if negb (existsb canonical (column fl j)) then nth j majors gap = gap
     else canonical (nth j majors gap) = true) ->
  (forall s, In s rows -> (length s <= length majors)%nat) ->
  (matched_cells majors rows + noblue_cells majors rows =
   nongap_cells rows + baseless_gap_cells fl rows)%nat.
Proof.
  intros Hmaj. induction rows as [|s rows IH]; intros Hlen; [reflexivity|].
  cbn [matched_cells noblue_cells nongap_cells baseless_gap_cells fold_right].
  unfold matched_cells, noblue_cells, nongap_cells, baseless_gap_cells in IH.
  rewrite <- (filter_indices nongap s). unfold noblue_row.
  assert (R : (length (List.filter (fun j => Ascii.eqb (nth j s gap) (nth j majors gap))
                                   (seq 0 (length s)))
               + length (List.filter (fun j => nongap (nth j s gap)
                                          && negb (Ascii.eqb (nth j s gap) (nth j majors gap)))
                                     (seq 0 (length s))) =
               length (List.filter (fun j => nongap (nth j s gap)) (seq 0 (length s)))
               + length (List.filter (fun j => Ascii.eqb (nth j s gap) gap
                                          && negb (existsb canonical (column fl j)))
                                     (seq 0 (length s))))%nat).
  { apply filter_balance. intros j Hj. apply in_seq in Hj.
    apply cell_balance. apply Hmaj.
    specialize (Hlen s (or_introl eq_refl)). lia. }
  specialize (IH (fun s' Hs' => Hlen s' (or_intror Hs'))). unfold noblue_row in IH. lia.
Qed.

Lemma baseless_gap_cells_zero fl rows L :
  (forall j, (j < L)%nat -> existsb canonical (column fl j) = true) ->
  (forall s, In s rows -> (length s <= L)%nat) ->
  baseless_gap_cells fl rows = 0%nat.
Proof.
  intros Hc. induction rows as [|s rows IH]; intros Hlen; [reflexivity|].
  cbn [baseless_gap_cells fold_right]. unfold baseless_gap_cells in IH.
  rewrite IH by (intros; apply Hlen; right; auto).
  rewrite (List.filter_ext_in _ (fun _ => false)); [rewrite filter_false; reflexivity|].
  intros j Hj. apply in_seq in Hj.
  specialize (Hlen s (or_introl eq_refl)). rewrite (Hc j) by lia.
  apply andb_false_r.
Qed.

(** X5 (lines 296-327): every cell equal to its column's majority is a blue
    base and every other non-["-"] cell is a non-blue base, so blue plus
    non-blue bases are the non-missing bases plus the ["-"] cells of columns
    holding no A, T, G or C (whose majority is ["-"]).  When every column
    holds a canonical base, the blue bases are at most the non-missing
    bases. *)
Theorem blue_base_balance recs out :
  align_to_statistics recs = Ok out ->
  (sum_of_blue_bases (gap_stats out) + no_blue_bases (gap_stats out) =
   no_miss_bases (gap_stats out) + baseless_gap_cells (map prep recs) (map prep recs))%nat /\
  ((forall j, (j < length (prep (hd [] recs)))%nat ->
      existsb canonical (column (map prep recs) j) = true) ->
   (sum_of_blue_bases (gap_stats out) <= no_miss_bases (gap_stats out))%nat).
Proof.
  intros H.
  pose proof (align_sum_blue _ _ H) as Hsb.
  destruct (align_to_statistics_ok _ _ H)
    as (ra & ps & bs & Hr & _ & Hc & Hb & _ & Hout & Hnm & Hnb).
  destruct (record_loop_fields _ _ _ Hr) as [E1 _]. simpl in E1.
  set (L := length (hd [] (ra_fasta ra))) in *.
  assert (HL : L = length (prep (hd [] recs))).
  { unfold L. rewrite E1. destruct recs; reflexivity. }
  assert (Hps : length ps = L) by (rewrite (rmap_length _ _ _ Hc), length_seq; reflexivity).
  assert (Hprof : forall j p, nth_error ps j = Some p ->
            column_profile (gather (ra_fasta ra) (ra_front ra) (ra_end ra) j) = Ok p /\
            cd_data (gather (ra_fasta ra) (ra_front ra) (ra_end ra) j) = column (map prep recs) j /\
            cd_not_gap (gather (ra_fasta ra) (ra_front ra) (ra_end ra) j) =
              List.filter canonical (cd_data (gather (ra_fasta ra) (ra_front ra) (ra_end ra) j))).
  { intros j p Hj. destruct (column_loop_profile _ _ _ _ _ _ Hr Hc Hj) as (_ & P1 & P2 & P3).
    rewrite <- E1. auto. }
  assert (HF : Forall (fun e => 0 <= snd e <= 100) (map (fun p => (p_major p, p_freq_max p)) ps)).
  { apply List.Forall_forall. intros e Ie. apply in_map_iff in Ie as [p [<- Ip]].
    apply In_nth_error in Ip as [j Hj]. destruct (Hprof j p Hj) as (P1 & _ & P3).
    exact (column_profile_freq_range _ _ P3 P1). }
  assert (Hmf : map fst (map (fun p => (p_major p, p_freq_max p)) ps) = map p_major ps)
    by (rewrite map_map; reflexivity).
  assert (Hlen : forall s, In s (map prep recs) -> (length s <= length (map p_major ps))%nat).
  { intros s Hs. rewrite <- E1 in Hs. pose proof (blue_loop_len _ _ _ _ Hb _ Hs) as G.
    rewrite !length_map in *. exact G. }
  assert (Hmaj : forall j, (j < length (map p_major ps))%nat ->
            if negb (existsb canonical (column (map prep recs) j))
            then nth j (map p_major ps) gap = gap
            else canonical (nth j (map p_major ps) gap) = true).
  { intros j Hj. rewrite length_map in Hj.
    destruct (nth_error ps j) as [p|] eqn:Ep; [|apply nth_error_None in Ep; lia].
    rewrite (nth_error_nth _ _ gap (map_nth_error p_major _ _ Ep)).
    destruct (Hprof j p Ep) as (P1 & P2 & P3).
    destruct (column_profile_spec _ _ P3 P1) as (_ & Hsel & _).
    rewrite P2 in Hsel. destruct (existsb canonical (column (map prep recs) j)); simpl; tauto. }
  destruct (blue_loop_spec _ _ _ _ Hb) as [B1 B2].
  pose proof (blue_loop_count _ _ _ _ HF Hb) as B3.
  rewrite Hmf, E1 in *. simpl in B1, B2, B3.
  assert (Hsum : sum_of_blue_bases (gap_stats out) = matched_cells (map p_major ps) (map prep recs)).
  { rewrite Hsb, Hout. simpl. rewrite B3. unfold sum_values. rewrite map_fold_empty. reflexivity. }
  pose proof (blue_balance_rows _ _ _ Hmaj Hlen) as Bal.
  split.
  - rewrite Hsum, Hnb, Hnm, B1, B2. exact Bal.
  - intros Hall.
    rewrite (baseless_gap_cells_zero _ _ L) in Bal.
    + rewrite Hsum, Hnm, B1. lia.
    + intros j Hj. apply Hall. lia.
    + intros s Hs. specialize (Hlen s Hs). rewrite length_map in Hlen. lia.
Qed.

Definition recs_gap_column : list (list ascii) := fasta ["A-"; "A-"]%string.

Lemma blue_base_balance_witness :
  align_to_statistics recs_gap_column =
    Ok (get_ok no_output (align_to_statistics recs_gap_column)) /\
  let out := get_ok no_output (align_to_statistics recs_gap_column) in
  (sum_of_blue_bases (gap_stats out) + no_blue_bases (gap_stats out) =
   no_miss_bases (gap_stats out)
   + baseless_gap_cells (map prep recs_gap_column) (map prep recs_gap_column))%nat /\
  ((forall j, (j < length (prep (hd [] recs_gap_column)))%nat ->
      existsb canonical (column (map prep recs_gap_column) j) = true) ->
   (sum_of_blue_bases (gap_stats out) <= no_miss_bases (gap_stats out))%nat).
Proof.
  assert (E : align_to_statistics recs_gap_column =
              Ok (get_ok no_output (align_to_statistics recs_gap_column)))
    by (vm_compute; reflexivity).
  split; [exact E|]. exact (blue_base_balance _ _ E).
Defined.

(** ** Gap-run bookkeeping of the record loop (lines 142-165) *)

(** Invariant of the scan after [k] positions: one start per end plus one
    while a run is open, every closed run ends after it starts, every start
    lies before [k], and a gap seen so far has opened a run. *)
Definition run_inv (s : list ascii) (k : nat) (st : bool * list nat * list nat) : Prop :=
  let '(flag, starts, ends) := st in
  length starts = (length ends + if flag then 1 else 0)%nat /\
  (forall i, (i < length ends)%nat -> (nth i starts 0 < nth i ends 0)%nat) /\
  (forall x, In x starts -> (x < k)%nat) /\
  ((exists n, (n < k)%nat /\ nth n s gap = gap) -> starts <> []).

Lemma run_step_inv s k st :
  run_inv s k st -> run_inv s (S k) (run_step s k st).
Proof.
  destruct st as [[flag starts] ends]. unfold run_inv, run_step.
  intros (I1 & I2 & I3 & I4).
  destruct (Ascii.eqb (nth k s gap) gap) eqn:Eg; destruct flag.
  - repeat split; auto.
    + intros x Hx. specialize (I3 x Hx). lia.
    + intros _ ->. simpl in I1. lia.
  - repeat split.
    + rewrite !length_app. simpl. lia.
    + intros i Hi. rewrite app_nth1 by lia. auto.
    + intros x Hx. apply in_app_or in Hx as [Hx|[<-|[]]]; [specialize (I3 x Hx)|]; lia.
    + intros _ E. destruct starts; discriminate.
  - repeat split.
    + rewrite !length_app. simpl. lia.
    + intros i Hi. rewrite length_app in Hi. simpl in Hi.
      destruct (Nat.lt_ge_cases i (length ends)) as [Hl|Hl].
      * rewrite app_nth1 by lia. auto.
      * assert (i = length ends) as -> by lia.
        rewrite app_nth2, Nat.sub_diag by lia. simpl.
        apply I3, nth_In. lia.
    + intros x Hx. specialize (I3 x Hx). lia.
    + intros [n [Hn Hg]]. apply I4. exists n. split; [|exact Hg].
      destruct (Nat.eq_dec n k) as [->|]; [|lia].
      rewrite Hg, Ascii.eqb_refl in Eg. discriminate.
  - repeat split; auto.
    + intros x Hx. specialize (I3 x Hx). lia.
    + intros [n [Hn Hg]]. apply I4. exists n. split; [|exact Hg].
      destruct (Nat.eq_dec n k) as [->|]; [|lia].
      rewrite Hg, Ascii.eqb_refl in Eg. discriminate.
Qed.

Lemma run_loop_inv s k : run_inv s k (run_loop s k (false, [], [])).
Proof.
  induction k as [|k IH]; simpl.
  - repeat split; simpl; try lia; try (intros; lia); intros [n [Hn _]]; lia.
  - apply run_step_inv, IH.
Qed.

Lemma gap_length_sum_ge starts ends acc len :
  (forall i, (i < length ends)%nat -> (nth i starts 0 < nth i ends 0)%nat) ->
  gap_length_sum starts ends acc = Ok len ->
  acc + Z.of_nat (length starts) <= len.
Proof.
  revert ends acc; induction starts as [|s starts IH]; intros ends acc Hlt H; simpl in H.
  - inversion H; subst. simpl. lia.
  - destruct ends as [|e ends]; [discriminate|].
    assert (Hse : (s < e)%nat) by (apply (Hlt 0%nat); simpl; lia).
    apply IH in H; [simpl length; lia|].
    intros i Hi. apply (Hlt (S i)). simpl. lia.
Qed.

Lemma record_pass_gaps r ri :
  record_pass r = Ok ri ->
  (if ri_gapped ri then (1 <= ri_runs ri)%nat else ri_runs ri = 0%nat /\ ri_runlen ri = 0) /\
  Z.of_nat (ri_runs ri) <= ri_runlen ri.
Proof.
  unfold record_pass.
  set (core := slice _ _ _).
  destruct (elem_char gap core) eqn:Eg.
  - unfold gap_runs. pose proof (run_loop_inv core (length core)) as Inv.
    destruct (run_loop core (length core) (false, [], [])) as [[flag starts] ends].
    destruct Inv as (_ & I2 & _ & I4).
    intros H. inv_bind H. inversion H; subst; simpl. split.
    + apply elem_char_In, In_nth_error in Eg as [n Hn].
      assert (Hs : starts <> []).
      { apply I4. exists n. split; [apply nth_error_Some; congruence|].
        apply nth_error_nth; exact Hn. }
      destruct starts; [contradiction|simpl; lia].
    + pose proof (gap_length_sum_ge _ _ _ _ I2 Hr). lia.
  - intros H. inversion H; subst; simpl. lia.
Qed.

Definition gap_inv (a : rec_acc) : Prop :=
  (ra_gap_seq_count a <= ra_gap_count a)%nat /\
  Z.of_nat (ra_gap_count a) <= ra_gap_sumlength a /\
  (ra_gap_seq_count a = 0%nat -> ra_gap_count a = 0%nat /\ ra_gap_sumlength a = 0).

Lemma record_loop_gaps recs acc ra :
  record_loop recs acc = Ok ra -> gap_inv acc -> gap_inv ra.
Proof.
  revert acc; induction recs as [|r recs IH]; intros acc H Inv; simpl in H.
  - inversion H; subst; exact Inv.
  - inv_bind H. apply (IH _ H). clear IH H.
    destruct (record_pass_gaps _ _ Hr) as [G1 G2].
    destruct Inv as (I1 & I2 & I3). unfold gap_inv, rec_add; simpl.
    destruct (ri_gapped a).
    + repeat split; try lia.
    + destruct G1 as [-> ->]. repeat split; try lia.
Qed.

Lemma align_gap_fields recs out :
  align_to_statistics recs = Ok out ->
  exists ra,
    record_loop recs rec_acc_init = Ok ra /\
    gap_seq_count (gap_stats out) = ra_gap_seq_count ra /\
    gap_count (gap_stats out) = ra_gap_count ra /\
    gap_sum_length (gap_stats out) = ra_gap_sumlength ra /\
    (ra_gap_seq_count ra <> 0%nat ->
     gap_frequency (gap_stats out) =
       qdiv (Z.of_nat (ra_gap_count ra)) (Z.of_nat (ra_gap_seq_count ra)) /\
     gap_length (gap_stats out) =
       qdiv (ra_gap_sumlength ra) (Z.of_nat (ra_gap_seq_count ra))).
Proof.
  intros H. unfold align_to_statistics in H.
  inv_bind H. rename a into ra. exists ra. split; [exact Hr|].
  destruct (ra_gap_seq_count ra =? 0)%nat eqn:E; cbv zeta in H;
  (inv_bind H; inv_bind H; inv_bind H;
   destruct (bs_nomiss _ =? 0)%nat; [discriminate|];
   inversion H; subst; simpl; split; [reflexivity|split; [reflexivity|split; [reflexivity|]]];
   intros Hn); [apply Nat.eqb_eq in E; contradiction|split; reflexivity].
Qed.

Lemma qdiv_ge_1 n d : 0 < d <= n -> (1 <= qdiv n d)%Q.
Proof.
  intros Hd. destruct d as [|d|d]; try lia.
  unfold qdiv, Qdiv, Qle, Qinv, Qmult; simpl. lia.
Qed.

Lemma qdiv_le n m d : 0 < d -> n <= m -> (qdiv n d <= qdiv m d)%Q.
Proof.
  intros Hd Hnm. destruct d as [|d|d]; try lia.
  unfold qdiv, Qdiv, Qle, Qinv, Qmult; simpl. nia.
Qed.

(** X6 (lines 142-175): every gapped sequence contributes at least one gap
    run and every run has length at least 1, so the gap-sequence count is at
    most the gap count, which is at most the summed gap length; with no
    gapped sequence both are 0, and otherwise the gap frequency is at least 1
    and at most the average gap length. *)
Theorem gap_stats_bounds recs out :
  align_to_statistics recs = Ok out ->
  let g := gap_stats out in
  (gap_seq_count g <= gap_count g)%nat /\
  Z.of_nat (gap_count g) <= gap_sum_length g /\
  (gap_seq_count g = 0%nat -> gap_count g = 0%nat /\ gap_sum_length g = 0) /\
  (gap_seq_count g <> 0%nat -> (1 <= gap_frequency g)%Q /\ (gap_frequency g <= gap_length g)%Q).
Proof.
  intros H g.
  destruct (align_gap_fields _ _ H) as (ra & Hr & F1 & F2 & F3 & F4).
  assert (Inv : gap_inv ra) by (apply (record_loop_gaps _ _ _ Hr); unfold gap_inv; simpl; lia).
  destruct Inv as (I1 & I2 & I3).
  unfold g. rewrite F1, F2, F3.
  split; [exact I1|]. split; [exact I2|]. split; [exact I3|].
  intros Hn. destruct (F4 Hn) as [-> ->]. split.
  - apply qdiv_ge_1. lia.
  - apply qdiv_le; lia.
Qed.

Definition recs_gappy : list (list ascii) := fasta ["-AA--A---AT-"; "AC-GT"; "CCGTA"]%string.

Lemma gap_stats_bounds_witness :
  align_to_statistics recs_gappy = Ok (get_ok no_output (align_to_statistics recs_gappy)) /\
  let g := gap_stats (get_ok no_output (align_to_statistics recs_gappy)) in
  (gap_seq_count g <= gap_count g)%nat /\
  Z.of_nat (gap_count g) <= gap_sum_length g /\
  (gap_seq_count g = 0%nat -> gap_count g = 0%nat /\ gap_sum_length g = 0) /\
  (gap_seq_count g <> 0%nat -> (1 <= gap_frequency g)%Q /\ (gap_frequency g <= gap_length g)%Q).
Proof.
  assert (E : align_to_statistics recs_gappy =
              Ok (get_ok no_output (align_to_statistics recs_gappy))) by (vm_compute; reflexivity).
  split; [exact E|]. exact (gap_stats_bounds _ _ E).
Defined.

(** ** [BlueBase.get_statistics] (lines 49-79) *)

Module Statistic.
(** The [Statistic] dataclass; [blue_base_count] is the dict built by the
    comprehension, in insertion order. *)
Record Statistic := mkStatistic {
  total_seq : nat;
  gap_seq_count : nat;
  gap_count : nat;
  gap_frequency : Q;
  gap_sum_length : Z;
  gap_length : Q;
  sum_of_blue_bases : nat;
  no_blue_bases : nat;
  no_miss_bases : nat;
  blue_base_ratio : Q;
  blue_base_count : list (Z * nat)
}.
End Statistic.

Definition newline : string := String (ascii_of_nat 10) EmptyString.

(** [blue_base_count[pct_id_cutoff[i]]] raises [KeyError] for a bucket
    never incremented. *)
Definition bucket_entry (d : gmap Z nat) (k : Z) : result (Z * nat) :=
  match d !! k with Some v => Ok (k, v) | None => Exc KeyError end.

(** The text written to [stat_file] (if any) and the result: the file is
    written once [align_to_statistics] has returned. *)
Definition get_statistics (recs : list (list ascii)) : option string * result Statistic.Statistic :=
  match align_to_statistics recs with
  | Exc e => (None, Exc e)
  | Ok out =>
      let content := (join newline (values out) ++ newline)%string in
      let g := gap_stats out in
      (Some content,
       let! bbc := rmap (bucket_entry (blue_base_count out)) (pct_id_cutoff out) in
       Ok (Statistic.mkStatistic (total_seq g) (gap_seq_count g) (gap_count g)
             (gap_frequency g) (gap_sum_length g) (gap_length g) (sum_of_blue_bases g)
             (no_blue_bases g) (no_miss_bases g) (blue_base_ratio g) bbc))
  end.

Lemma spec_bucket_in f k : spec_bucket f = Some k -> In k pctid_cutoff.
Proof.
  unfold spec_bucket.
  repeat match goal with |- context [if ?b then _ else _] => destruct b end;
  intros H; inversion H; subst; simpl; auto 7.
Qed.

(** The bucket dict sums to the sum over the cutoffs of its entries, and
    holds only cutoffs, each with a positive count. *)
Definition bucket_inv (d : gmap Z nat) : Prop :=
  sum_values d = fold_right Nat.add 0%nat (map (fun k => default 0%nat (d !! k)) pctid_cutoff) /\
  (forall k v, d !! k = Some v -> In k pctid_cutoff /\ (1 <= v)%nat).

Lemma incr_inv k d : In k pctid_cutoff -> bucket_inv d -> bucket_inv (incr k d).
Proof.
  intros Hk [S1 S2]. split.
  - rewrite sum_values_incr, S1. unfold incr.
    simpl in Hk.
    repeat destruct Hk as [<-|Hk]; try contradiction;
    cbn [map fold_right pctid_cutoff];
    rewrite lookup_insert_eq, !lookup_insert_ne by lia; simpl; lia.
  - intros k' v. unfold incr.
    destruct (Z.eq_dec k k') as [<-|Hne].
    + rewrite lookup_insert_eq. intros H; inversion H; split; [exact Hk|lia].
    + rewrite lookup_insert_ne by exact Hne. apply S2.
Qed.

Lemma bump_inv f d : 0 <= f <= 100 -> bucket_inv d -> bucket_inv (bump f d).
Proof.
  intros Hf Hd. destruct (bump_ladder f d Hf) as [k [Hk ->]].
  exact (incr_inv _ _ (spec_bucket_in _ _ Hk) Hd).
Qed.

Lemma blue_loop_inv bp fl st st' :
  Forall (fun e => 0 <= snd e <= 100) bp ->
  blue_loop bp fl st = Ok st' -> bucket_inv (bs_count st) -> bucket_inv (bs_count st').
Proof.
  intros HF.
  assert (Cell : forall s j st1 st2, blue_cell bp s j st1 = Ok st2 ->
            bucket_inv (bs_count st1) -> bucket_inv (bs_count st2)).
  { intros s j st1 st2. unfold blue_cell.
    destruct (nth_error bp j) as [[mx f]|] eqn:E; [|discriminate].
    assert (Hf : 0 <= f <= 100).
    { apply nth_error_In in E. rewrite List.Forall_forall in HF. exact (HF _ E). }
    destruct (Ascii.eqb _ mx); [|destruct (negb _)];
    intros H; inversion H; subst; simpl; auto using bump_inv. }
  assert (Row : forall s k st1 st2, blue_row bp s k st1 = Ok st2 ->
            bucket_inv (bs_count st1) -> bucket_inv (bs_count st2)).
  { intros s k; induction k as [|k IH]; intros st1 st2 H Hi; simpl in H.
    - inversion H; subst; exact Hi.
    - inv_bind H. exact (Cell _ _ _ _ H (IH _ _ Hr Hi)). }
  revert st; induction fl as [|s fl IH]; intros st H Hi; simpl in H.
  - inversion H; subst; exact Hi.
  - inv_bind H. exact (IH _ H (Row _ _ _ _ Hr Hi)).
Qed.

Lemma rmap_bucket_entry d ks :
  (forall bbc, rmap (bucket_entry d) ks = Ok bbc ->
     map fst bbc = ks /\ map snd bbc = map (fun k => default 0%nat (d !! k)) ks) /\
  (forall e, rmap (bucket_entry d) ks = Exc e -> e = KeyError) /\
  ((exists k, In k ks /\ d !! k = None) <-> exists e, rmap (bucket_entry d) ks = Exc e).
Proof.
  induction ks as [|k ks IH]; simpl.
  - split; [intros bbc H; inversion H; auto|]. split; [intros ? ?; discriminate|].
    split; [intros [k [[] _]]|intros [e H]; discriminate].
  - destruct IH as (IH1 & IH2 & IH3).
    destruct (d !! k) as [v|] eqn:E;
    [replace (bucket_entry d k) with (Ok (A:=Z*nat) (k, v))
       by (unfold bucket_entry; rewrite E; reflexivity)
    |replace (bucket_entry d k) with (Exc (A:=Z*nat) KeyError)
       by (unfold bucket_entry; rewrite E; reflexivity)]; simpl.
    + destruct (rmap (bucket_entry d) ks) as [bbc|e] eqn:R; simpl.
      * split; [intros bbc' H; inversion H; subst; simpl;
                destruct (IH1 _ eq_refl) as [-> ->]; auto|].
        split; [intros ? ?; discriminate|].
        split; [|intros [e H]; discriminate].
        intros [k' [[<-|Hk'] Hn]]; [congruence|].
        destruct (proj1 IH3 (ex_intro _ k' (conj Hk' Hn))) as [e He]. discriminate.
      * split; [intros ? ?; discriminate|]. split; [intros e' H; inversion H; subst; eauto|].
        split; [intros _; eauto|].
        intros _. destruct (proj2 IH3 (ex_intro _ e eq_refl)) as [k' [Hk' Hn]].
        exists k'. auto.
    + split; [intros ? ?; discriminate|]. split; [intros e H; inversion H; reflexivity|].
      split; [intros _; eauto|]. intros _. exists k. auto.
Qed.

Lemma rmap_in {A B} (f : A -> result B) l ys :
  rmap f l = Ok ys -> forall y, In y ys -> exists x, In x l /\ f x = Ok y.
Proof.
  revert ys; induction l as [|x l IH]; intros ys H y Hy; simpl in H.
  - inversion H; subst. destruct Hy.
  - inv_bind H. inv_bind H. inversion H; subst.
    destruct Hy as [<-|Hy]; [exists x; split; [left; reflexivity|exact Hr]|].
    destruct (IH _ Hr0 y Hy) as [x' [Hx' Hf]]. exists x'. split; [right; exact Hx'|exact Hf].
Qed.

Lemma align_pct_id_cutoff recs out :
  align_to_statistics recs = Ok out -> pct_id_cutoff out = pctid_cutoff.
Proof.
  intros H. destruct (align_to_statistics_ok _ _ H) as (ra & ps & bs & _ & _ & _ & _ & _ & Hout & _).
  rewrite Hout. reflexivity.
Qed.

Lemma align_bucket_inv recs out :
  align_to_statistics recs = Ok out -> bucket_inv (blue_base_count out).
Proof.
  intros H.
  destruct (align_to_statistics_ok _ _ H)
    as (ra & ps & bs & Hr & _ & Hc & Hb & _ & Hout & _).
  assert (HF : Forall (fun e => 0 <= snd e <= 100) (map (fun p => (p_major p, p_freq_max p)) ps)).
  { apply List.Forall_forall. intros e Ie. apply in_map_iff in Ie as [p [<- Ip]].
    apply In_nth_error in Ip as [j Hj].
    destruct (column_loop_profile _ _ _ _ _ _ Hr Hc Hj) as (_ & P1 & _ & P3).
    exact (column_profile_freq_range _ _ P3 P1). }
  rewrite Hout. cbn [blue_base_count]. apply (blue_loop_inv _ _ _ _ HF Hb). cbn [blue_init bs_count].
  split; [reflexivity|]. intros k v Hk. rewrite lookup_empty in Hk. discriminate.
Qed.

(** X7 (lines 49-65): once [align_to_statistics] has returned, the report
    lines are written to the statistics file, newline-joined with a final
    newline; the dict comprehension then raises [KeyError], and only that,
    exactly when one of the buckets 90, 80, 70, 60, 50, 40 never received a
    blue base. *)
Theorem get_statistics_key_error recs out :
  align_to_statistics recs = Ok out ->
  fst (get_statistics recs) = Some (join newline (values out) ++ newline)%string /\
  (forall e, snd (get_statistics recs) = Exc e -> e = KeyError) /\
  ((exists e, snd (get_statistics recs) = Exc e) <->
   exists k, In k pctid_cutoff /\ blue_base_count out !! k = None).
Proof.
  intros H. pose proof (align_pct_id_cutoff _ _ H) as Hc.
  destruct (rmap_bucket_entry (blue_base_count out) pctid_cutoff) as (R1 & R2 & R3).
  unfold get_statistics. rewrite H, Hc. cbn [fst snd].
  split; [reflexivity|].
  destruct (rmap (bucket_entry (blue_base_count out)) pctid_cutoff) as [bbc|e] eqn:R; simpl.
  - split; [intros ? ?; discriminate|].
    rewrite R3. split; intros [e He]; discriminate.
  - split; [intros e' He'; inversion He'; subst; apply R2; reflexivity|].
    rewrite R3. split; intros _; eauto.
Qed.

Lemma get_statistics_key_error_witness :
  align_to_statistics recs_AAAT = Ok (get_ok no_output (align_to_statistics recs_AAAT)) /\
  let out := get_ok no_output (align_to_statistics recs_AAAT) in
  fst (get_statistics recs_AAAT) = Some (join newline (values out) ++ newline)%string /\
  (forall e, snd (get_statistics recs_AAAT) = Exc e -> e = KeyError) /\
  ((exists e, snd (get_statistics recs_AAAT) = Exc e) <->
   exists k, In k pctid_cutoff /\ blue_base_count out !! k = None).
Proof.
  assert (E : align_to_statistics recs_AAAT =
              Ok (get_ok no_output (align_to_statistics recs_AAAT))) by (vm_compute; reflexivity).
  split; [exact E|]. exact (get_statistics_key_error _ _ E).
Defined.

(** X8 (lines 61-79): when [get_statistics] returns, its [blue_base_count]
    lists the buckets 90, 80, 70, 60, 50, 40 in that order, each with a
    positive count, and those counts add up to [sum_of_blue_bases]. *)
Theorem get_statistics_bucket_counts recs content st :
  get_statistics recs = (Some content, Ok st) ->
  map fst (Statistic.blue_base_count st) = pctid_cutoff /\
  fold_right Nat.add 0%nat (map snd (Statistic.blue_base_count st)) =
    Statistic.sum_of_blue_bases st /\
  Forall (fun kv => 1 <= snd kv)%nat (Statistic.blue_base_count st).
Proof.
  unfold get_statistics.
  destruct (align_to_statistics recs) as [out|e] eqn:A; [|discriminate].
  intros H. injection H as _ H. inv_bind H. rename a into bbc. inversion H; subst st; clear H.
  rewrite (align_pct_id_cutoff _ _ A) in Hr. simpl.
  destruct (proj1 (rmap_bucket_entry (blue_base_count out) pctid_cutoff) _ Hr) as [F1 F2].
  destruct (align_bucket_inv _ _ A) as [S1 S2].
  split; [exact F1|]. split.
  - rewrite F2, <- S1. symmetry. exact (align_sum_blue _ _ A).
  - apply List.Forall_forall. intros [k v] Hkv.
    destruct (rmap_in _ _ _ Hr _ Hkv) as [k' [_ Hb]].
    unfold bucket_entry in Hb. destruct (blue_base_count out !! k') eqn:Ek; [|discriminate].
    inversion Hb; subst. exact (proj2 (S2 _ _ Ek)).
Qed.

(** Ten sequences whose six columns have majority frequencies 100, 80, 70,
    60, 50 and 40, one in each bucket. *)
Definition recs_six : list (list ascii) :=
  fasta ["AAAAAA"; "AAAAAA"; "AAAAAA"; "AAAAAA"; "AAAAAT";
         "AAAATT"; "AAATTT"; "AATTTG"; "ATTTTG"; "ATTTTG"]%string.

Definition stat_dummy : Statistic.Statistic :=
  Statistic.mkStatistic 0 0 0 0 0 0 0 0 0 0 [].

Definition content_six : string := default EmptyString (fst (get_statistics recs_six)).
Definition stats_six : Statistic.Statistic := get_ok stat_dummy (snd (get_statistics recs_six)).

Lemma get_statistics_bucket_counts_witness :
  get_statistics recs_six = (Some content_six, Ok stats_six) /\
  map fst (Statistic.blue_base_count stats_six) = pctid_cutoff /\
  fold_right Nat.add 0%nat (map snd (Statistic.blue_base_count stats_six)) =
    Statistic.sum_of_blue_bases stats_six /\
  Forall (fun kv => 1 <= snd kv)%nat (Statistic.blue_base_count stats_six).
Proof.
  assert (E : get_statistics recs_six = (Some content_six, Ok stats_six))
    by (vm_compute; reflexivity).
  split; [exact E|]. exact (get_statistics_bucket_counts _ _ _ E).
Defined.

(** ** [clean_align_file] (app.py, lines 295-316) *)

(** A symbol as [clean_align_file] leaves it: upper-case, and neither ["."]
    nor ["~"]. *)
Definition clean_char (c : ascii) : bool :=
  Ascii.eqb (ascii_upper c) c && negb (Ascii.eqb c ".") && negb (Ascii.eqb c "~").

Lemma clean_char_cleaned c :
  clean_char (ascii_upper (if Ascii.eqb c "." || Ascii.eqb c "~" then gap else c)) = true.
Proof. destruct c as [[] [] [] [] [] [] [] []]; reflexivity. Qed.

Lemma clean_align_file_records recs :
  fst (clean_align_file recs) =
  map (clean_record (max_length_of recs)) (List.filter (fun r => negb (is_consensus r)) recs).
Proof.
  unfold clean_align_file. simpl. generalize (max_length_of recs) as L. intros L.
  induction recs as [|r recs IH]; [reflexivity|].
  simpl. destruct (is_consensus r); simpl; rewrite IH; reflexivity.
Qed.

Lemma max_length_of_bounds recs m :
  (m <= fold_left (fun m r => if is_consensus r then m else Nat.max m (length (rec_seq r))) recs m)%nat /\
  (forall r, In r recs -> is_consensus r = false ->
     (length (rec_seq r) <= fold_left (fun m r => if is_consensus r then m
                                                 else Nat.max m (length (rec_seq r))) recs m)%nat) /\
  (forall k, (m <= k)%nat -> (forall r, In r recs -> is_consensus r = false -> (length (rec_seq r) <= k)%nat) ->
     (fold_left (fun m r => if is_consensus r then m else Nat.max m (length (rec_seq r))) recs m <= k)%nat).
Proof.
  revert m; induction recs as [|r recs IH]; intros m; simpl.
  - split; [lia|]. split; [intros _ []|]. auto.
  - destruct (is_consensus r) eqn:Ec;
      [destruct (IH m) as (I1 & I2 & I3)|destruct (IH (Nat.max m (length (rec_seq r)))) as (I1 & I2 & I3)].
    + split; [exact I1|]. split.
      * intros r' [<-|Hr'] Hc; [congruence|]. auto.
      * intros k Hm Hk. apply I3; auto.
    + split; [lia|]. split.
      * intros r' [<-|Hr'] Hc; [lia|]. auto.
      * intros k Hm Hk. apply I3; [|auto].
        specialize (Hk r (or_introl eq_refl) Ec). lia.
Qed.

Lemma clean_output_spec recs :
  length (fst (clean_align_file recs)) =
    length (List.filter (fun r => negb (is_consensus r)) recs) /\
  (forall r, In r recs -> is_consensus r = false ->
     (length (rec_seq r) <= snd (clean_align_file recs))%nat) /\
  (forall r', In r' (fst (clean_align_file recs)) ->
     length (rec_seq r') = snd (clean_align_file recs) /\ forallb clean_char (rec_seq r') = true) /\
  (snd (clean_align_file recs) = 0%nat <->
   forall r, In r recs -> is_consensus r = false -> rec_seq r = []).
Proof.
  rewrite clean_align_file_records. cbn [snd clean_align_file].
  destruct (max_length_of_bounds recs 0) as (_ & B2 & B3).
  fold (max_length_of recs) in B2, B3.
  split; [apply length_map|]. split; [exact B2|]. split.
  - intros r' Hr'. apply in_map_iff in Hr' as [r [<- Hr]].
    apply List.filter_In in Hr as [Hr Hc]. apply negb_true_iff in Hc.
    specialize (B2 r Hr Hc). unfold clean_record. cbn [rec_seq].
    unfold str_upper, ljust, sub_dot_tilde. split.
    + rewrite length_map, length_app, length_map, repeat_length. lia.
    + rewrite forallb_forall. intros c Hin.
      apply in_map_iff in Hin as [d [<- Hd]]. apply in_app_or in Hd as [Hd|Hd].
      * apply in_map_iff in Hd as [e [<- _]]. apply clean_char_cleaned.
      * apply repeat_spec in Hd. subst d. reflexivity.
  - split.
    + intros H0 r Hr Hc. specialize (B2 r Hr Hc). rewrite H0 in B2.
      destruct (rec_seq r); [reflexivity|simpl in B2; lia].
    + intros Hall. apply Nat.le_0_r, B3; [lia|].
      intros r Hr Hc. rewrite (Hall r Hr Hc). reflexivity.
Qed.

(** X9 (app.py, lines 295-316): [clean_align_file] keeps one record per
    non-consensus input record; the returned [max_length] is at least the
    length of every non-consensus sequence; every written sequence has length
    [max_length] and holds only upper-case symbols other than ["."] and
    ["~"]; and [max_length] is 0 exactly when every non-consensus sequence
    is empty (or there is none). *)
Theorem clean_align_file_output recs :
  length (fst (clean_align_file recs)) =
    length (List.filter (fun r => negb (is_consensus r)) recs) /\
  (forall r, In r recs -> is_consensus r = false ->
     (length (rec_seq r) <= snd (clean_align_file recs))%nat) /\
  (forall r', In r' (fst (clean_align_file recs)) ->
     length (rec_seq r') = snd (clean_align_file recs) /\ forallb clean_char (rec_seq r') = true) /\
  (snd (clean_align_file recs) = 0%nat <->
   forall r, In r recs -> is_consensus r = false -> rec_seq r = []).
Proof. exact (clean_output_spec recs). Qed.

(** The id written for a record: one leading ["*"] removed. *)
Lemma clean_record_id_ok L r :
  is_consensus r = false ->
  negb (String.prefix "**" (rec_id r)) && negb (String.eqb (rec_id r) "*consensus") = true ->
  is_consensus (clean_record L r) = false /\ starts_with_star (rec_id (clean_record L r)) = false.
Proof.
  destruct r as [id s]. unfold clean_record, is_consensus. cbn [rec_id].
  intros Hc Hid. apply andb_prop in Hid as [Hp Hcs].
  apply negb_true_iff in Hp, Hcs.
  destruct id as [|c rest]; [split; reflexivity|].
  cbn [starts_with_star]. destruct (Ascii.eqb c "*") eqn:Ec.
  - apply Ascii.eqb_eq in Ec; subst c. cbn [drop1].
    split.
    + apply String.eqb_neq. intros ->. rewrite String.eqb_refl in Hcs. discriminate.
    + destruct rest as [|c' rest']; [reflexivity|]. cbn [starts_with_star].
      destruct (Ascii.eqb c' "*") eqn:Ec'; [|reflexivity].
      apply Ascii.eqb_eq in Ec'; subst c'. destruct rest'; vm_compute in Hp; discriminate Hp.
  - cbn [starts_with_star]. rewrite Ec. split; [exact Hc|reflexivity].
Qed.

Lemma clean_record_twice L r :
  is_consensus r = false ->
  negb (String.prefix "**" (rec_id r)) && negb (String.eqb (rec_id r) "*consensus") = true ->
  (length (rec_seq r) <= L)%nat ->
  clean_record L (clean_record L r) = clean_record L r.
Proof.
  intros Hc Hid Hl. destruct (clean_record_id_ok L r Hc Hid) as [_ Hs].
  apply clean_record_normalized.
  - rewrite Hs. reflexivity.
  - unfold clean_record, str_upper, ljust, sub_dot_tilde. cbn [rec_seq].
    rewrite length_map, length_app, length_map, repeat_length. lia.
  - unfold clean_record, str_upper, ljust, sub_dot_tilde. cbn [rec_seq].
    rewrite forallb_forall. intros c Hin.
    apply in_map_iff in Hin as [d [<- Hd]]. apply in_app_or in Hd as [Hd|Hd].
    + apply in_map_iff in Hd as [e [<- _]]. apply clean_char_cleaned.
    + apply repeat_spec in Hd. subst d. reflexivity.
Qed.

(** X10 (app.py, lines 295-316): when no id starts with ["**"] and none is
    ["*consensus"], cleaning the cleaned alignment again gives back the same
    records and the same [max_length]. *)
Theorem clean_align_file_twice recs :
  (forall r, In r recs ->
     negb (String.prefix "**" (rec_id r)) && negb (String.eqb (rec_id r) "*consensus") = true) ->
  clean_align_file (fst (clean_align_file recs)) = clean_align_file recs.
Proof.
  intros Hid.
  destruct (clean_output_spec recs) as (_ & O2 & O3 & O4).
  set (L := snd (clean_align_file recs)) in *.
  assert (HL : L = max_length_of recs) by reflexivity.
  assert (Ho : fst (clean_align_file recs) =
               map (clean_record L) (List.filter (fun r => negb (is_consensus r)) recs))
    by (rewrite HL; apply clean_align_file_records).
  assert (Hnc : forall r', In r' (fst (clean_align_file recs)) -> is_consensus r' = false).
  { intros r' Hr'. rewrite Ho in Hr'. apply in_map_iff in Hr' as [r [<- Hr]].
    apply List.filter_In in Hr as [Hr Hc]. apply negb_true_iff in Hc.
    exact (proj1 (clean_record_id_ok L r Hc (Hid r Hr))). }
  assert (HL2 : max_length_of (fst (clean_align_file recs)) = L).
  { unfold max_length_of.
    rewrite (max_length_of_uniform L).
    - destruct (fst (clean_align_file recs)) as [|r' out] eqn:Eo; [|lia].
      symmetry. apply O4. intros r Hr Hc.
      assert (Hin : In (clean_record L r)
                       (map (clean_record L) (List.filter (fun r => negb (is_consensus r)) recs))).
      { apply in_map, List.filter_In. rewrite Hc. auto. }
      rewrite <- Ho in Hin. destruct Hin.
    - apply forallb_forall. intros r' Hr'.
      rewrite (Hnc r' Hr'), (proj1 (O3 r' Hr')), Nat.eqb_refl. reflexivity. }
  unfold clean_align_file at 1. rewrite HL2.
  transitivity (fst (clean_align_file recs), L); [|symmetry; apply surjective_pairing].
  f_equal.
  transitivity (map (clean_record L) (fst (clean_align_file recs))).
  - generalize (fst (clean_align_file recs)) Hnc. intros out Hn.
    induction out as [|r' out IH]; [reflexivity|].
    simpl. rewrite (Hn r' (or_introl eq_refl)). simpl. f_equal.
    apply IH. intros; apply Hn; right; auto.
  - rewrite Ho, map_map. apply map_ext_in. intros r Hr.
    apply List.filter_In in Hr as [Hr Hc]. apply negb_true_iff in Hc.
    apply clean_record_twice; auto.
Qed.

Definition clean_ex : list fasta_record :=
  [{| rec_id := "*seq1"; rec_seq := list_ascii_of_string "ac.t~" |};
   {| rec_id := "consensus"; rec_seq := list_ascii_of_string "ACGTAC" |};
   {| rec_id := "seq2"; rec_seq := list_ascii_of_string "AG" |}].

Lemma clean_align_file_twice_witness :
  (forall r, In r clean_ex ->
     negb (String.prefix "**" (rec_id r)) && negb (String.eqb (rec_id r) "*consensus") = true) /\
  clean_align_file (fst (clean_align_file clean_ex)) = clean_align_file clean_ex.
Proof.
  assert (H : forall r, In r clean_ex ->
     negb (String.prefix "**" (rec_id r)) && negb (String.eqb (rec_id r) "*consensus") = true).
  { apply forallb_forall. vm_compute. reflexivity. }
  split; [exact H|]. exact (clean_align_file_twice clean_ex H).
Defined.

(** ** Outcome of [run_tool] once the process has been started *)

Ltac in_trace :=
  simpl; repeat (first [left; reflexivity | right]).

Ltac not_in_trace :=
  let p := fresh "p" in let Hp := fresh "Hp" in
  intros [p Hp]; simpl in Hp; repeat destruct Hp as [Hp|Hp]; try discriminate; contradiction.

(** X11 (app.py, lines 192-259): once the tool name, the options and the
    process start are accepted, [run_tool] raises what [process.wait()]
    raises, raises [RuntimeError] on a non-zero exit code, raises
    [ValueError] when a VSEARCH or UCLUST alignment has [max_length] 0, and
    otherwise returns the align file name with the result of BlueBase;
    BlueBase is run exactly when the exit code is 0 and the tool is MAFFT or
    the alignment is not empty. *)
Theorem run_tool_outcome (e : env) (dir_name base_name tool : string)
    (options : option string) (t : Tool) (args : list string) :
  Tool_of_value (str_lower tool) = Ok t ->
  shlex_split e (default EmptyString options) = Ok args ->
  popen_result e = Ok tt ->
  fst (run_tool e dir_name base_name tool options []) =
    match wait_result e with
    | Exc x => Exc x
    | Ok rc =>
        if negb (rc =? 0) then Exc RuntimeError
        else if negb (match t with MAFFT => true | _ => false end)
                && (max_length_of (tool_output e) =? 0)%nat then Exc ValueError
        else match bluebase_result e with
             | Ok res => Ok ((random_word e ++ ".aln")%string, fst res, snd res)
             | Exc x => Exc x
             end
    end /\
  ((exists p, In (RunBlueBase p) (snd (run_tool e dir_name base_name tool options []))) <->
   wait_result e = Ok 0 /\ (t = MAFFT \/ max_length_of (tool_output e) <> 0%nat)).
Proof.
  intros Ht Ho Hp. unfold run_tool, mbind, lift. rewrite Ht, Ho, Hp.
  unfold try_except, mbind, lift, emit, raise, mret.
  destruct (wait_result e) as [rc|x].
  - destruct (rc =? 0) eqn:Erc; simpl.
    + apply Z.eqb_eq in Erc; subst rc.
      destruct t; simpl;
        [|destruct (Nat.eqb_spec (max_length_of (tool_output e)) 0) as [Em|Em]; simpl..];
        (split; [destruct (bluebase_result e); reflexivity|]);
        (split; [ (destruct (bluebase_result e); simpl; not_in_trace)
                 || (intros _; split; [reflexivity|first [left; reflexivity | right; exact Em]])
                | intros [_ H];
                  first [ destruct H as [H|H]; [discriminate|contradiction]
                        | eexists; destruct (bluebase_result e); in_trace ] ]).
    + split; [reflexivity|]. split; [not_in_trace|].
      intros [H _]. injection H as ->. discriminate.
  - simpl. destruct (is_Exception x); simpl; (split; [reflexivity|]);
    (split; [not_in_trace|intros [H _]; discriminate]).
Qed.

Lemma run_tool_outcome_witness :
  Tool_of_value (str_lower "VSEARCH") = Ok VSEARCH /\
  shlex_split (env_ex (Ok 0)) (default EmptyString None) = Ok [] /\
  popen_result (env_ex (Ok 0)) = Ok tt /\
  fst (run_tool (env_ex (Ok 0)) "job" "input.fa" "VSEARCH" None []) =
    match wait_result (env_ex (Ok 0)) with
    | Exc x => Exc x
    | Ok rc =>
        if negb (rc =? 0) then Exc RuntimeError
        else if negb (match VSEARCH with MAFFT => true | _ => false end)
                && Nat.eqb (max_length_of (tool_output (env_ex (Ok 0)))) 0%nat then Exc ValueError
        else match bluebase_result (env_ex (Ok 0)) with
             | Ok res => Ok ((random_word (env_ex (Ok 0)) ++ ".aln")%string, fst res, snd res)
             | Exc x => Exc x
             end
    end /\
  ((exists p, In (RunBlueBase p) (snd (run_tool (env_ex (Ok 0)) "job" "input.fa" "VSEARCH" None []))) <->
   wait_result (env_ex (Ok 0)) = Ok 0 /\
   (VSEARCH = MAFFT \/ max_length_of (tool_output (env_ex (Ok 0))) <> 0%nat)).
Proof.
  assert (H1 : Tool_of_value (str_lower "VSEARCH") = Ok VSEARCH) by (vm_compute; reflexivity).
  assert (H2 : shlex_split (env_ex (Ok 0)) (default EmptyString None) = Ok [])
    by (vm_compute; reflexivity).
  assert (H3 : popen_result (env_ex (Ok 0)) = Ok tt) by reflexivity.
  split; [exact H1|]. split; [exact H2|]. split; [exact H3|].
  exact (run_tool_outcome (env_ex (Ok 0)) "job" "input.fa" "VSEARCH" None VSEARCH [] H1 H2 H3).
Defined.
